(** * cyclejs-component: the component runtime of [src/component.js]

    A shallow embedding of the orchestration code of [component.js]: the
    reducer wrappers built by [makeOnAction], the per-sink reducer streams of
    [initModel$], the request router of [initResponse$], the constructor with
    its process-wide root flag, and the timer queue that carries re-entrant
    dispatch.  Streams are read as the sequences of events they deliver. *)

From Stdlib Require Import String List ZArith Bool Lia Ascii DecimalString.
Import ListNotations.
Open Scope string_scope.

(** ** JavaScript values and the operators the component applies to them *)

Module JS.

(** The values that travel through the component as state, action data,
    request fields and reducer results.  Objects are plain data objects: an
    ordered list of own enumerable properties, read through [get], with no
    [toString]/[valueOf] of their own; arrays and other exotic objects are
    outside the model.  A function carried as data is known by a label only. *)
#[warnings="-register-all"]
Inductive value : Type :=
| VUndefined
| VNull
| VBool (b : bool)
| VNum (n : Z)
| VBigInt (n : Z)
| VStr (s : string)
| VSym (description : string)
| VFun (label : string)
| VObj (fields : list (string * value)).

Definition props := list (string * value).

(** [typeof v] *)
Definition typeof (v : value) : string :=
  match v with
  | VUndefined => "undefined"
  | VNull => "object"
  | VBool _ => "boolean"
  | VNum _ => "number"
  | VBigInt _ => "bigint"
  | VStr _ => "string"
  | VSym _ => "symbol"
  | VFun _ => "function"
  | VObj _ => "object"
  end.

(** ToBoolean, as used by [if (v)], [!v], [a || b], [a && b] and [c ? x : y]. *)
Definition truthy (v : value) : bool :=
  match v with
  | VUndefined | VNull => false
  | VBool b => b
  | VNum n | VBigInt n => negb (Z.eqb n 0)
  | VStr s => negb (String.eqb s "")
  | VSym _ | VFun _ | VObj _ => true
  end.

(** [a || b] and [a && b] *)
Definition or (a b : value) : value := if truthy a then a else b.
Definition and (a b : value) : value := if truthy a then b else a.

Fixpoint lookup (k : string) (o : props) : option value :=
  match o with
  | [] => None
  | (k', x) :: rest => if String.eqb k k' then Some x else lookup k rest
  end.

(** Defining a property in an object literal or through a spread: an
    existing key keeps its place and takes the new value, a new key is
    appended. *)
Fixpoint set (k : string) (x : value) (o : props) : props :=
  match o with
  | [] => [(k, x)]
  | (k', y) :: rest =>
      if String.eqb k k' then (k', x) :: rest else (k', y) :: set k x rest
  end.

Definition index_key (i : nat) : string :=
  NilZero.string_of_uint (Nat.to_uint i).

Fixpoint chars_from (i : nat) (s : string) : props :=
  match s with
  | EmptyString => []
  | String c rest => (index_key i, VStr (String c EmptyString)) :: chars_from (S i) rest
  end.

(** The own enumerable properties that a spread [{ ...v }] copies:
    nothing for undefined, null, booleans, numbers, symbols and functions,
    the indexed characters of a string, the properties of an object. *)
Definition own_props (v : value) : props :=
  match v with
  | VStr s => chars_from 0 s
  | VObj o => o
  | _ => []
  end.

(** [{ ...o, ...v }] once [o] has been built. *)
Definition spread (o : props) (v : value) : props :=
  fold_left (fun acc kv => set (fst kv) (snd kv) acc) (own_props v) o.

(** [v.k] for a value [v] that is neither undefined nor null (there the read
    raises a TypeError; the component guards each such read with a
    truthiness test, see [and]). *)
Definition get (v : value) (k : string) : value :=
  match v with
  | VStr s =>
      if String.eqb k "length" then VNum (Z.of_nat (String.length s))
      else match lookup k (chars_from 0 s) with Some x => x | None => VUndefined end
  | VObj o => match lookup k o with Some x => x | None => VUndefined end
  | _ => VUndefined
  end.

End JS.
Import JS.

(** ** Constants of [component.js] *)

Definition BOOTSTRAP_ACTION  := "BOOTSTRAP".
Definition INITIALIZE_ACTION := "INITIALIZE".
Definition HYDRATE_ACTION    := "HYDRATE".

Definition ABORT : string := "~~ABORT~~".

(** [v == ABORT].  The right operand is the string ["~~ABORT~~"]: a string is
    compared character by character; undefined and null equal only each
    other; a boolean or a number is compared with ToNumber of the string,
    which is NaN, and a bigint with StringToBigInt of it, which fails; a
    symbol equals nothing else; a plain object converts to
    ["[object Object]"] and a function to its source text, neither of
    which is the sentinel. *)
Definition loose_eq_ABORT (v : value) : bool :=
  match v with
  | VStr s => String.eqb s ABORT
  | VUndefined | VNull => false
  | VBool _ | VNum _ | VBigInt _ => false
  | VSym _ => false
  | VFun _ | VObj _ => false
  end.

(** ** Actions *)

(** An event of the action stream.  A field that an action object does not
    have reads as [VUndefined]. *)
Record action : Type := mkAction {
  type    : string;
  data    : value;
  req     : value;
  _reqId  : value;
  _action : value
}.

(** [{ type, data }] *)
Definition plain_action (t : string) (d : value) : action :=
  mkAction t d VUndefined VUndefined VUndefined.

(** ** [makeOnAction] *)

(** A call [next(type, data)] made by a reducer. *)
Definition dispatch_call := (string * value)%type.

(** A reducer function [reducer(state, data, next, req)]: the calls it makes
    to [next], in order, and the value it returns. *)
Definition reducer_fn := value -> value -> value -> list dispatch_call * value.

(** A reducer slot of the model: a function, or any other value. *)
Inductive reducer : Type :=
| RFun (f : reducer_fn)
| RVal (v : value).

(** [action._reqId || (action.req && action.req.id)] *)
Definition request_id_of (a : action) : value :=
  JS.or (_reqId a) (JS.and (req a) (get (req a) "id")).

(** The action that [next(type, data)] hands to [setTimeout] for the bus:
    [{ type, data: _data }], the data wrapped with the request id and the
    issuing action's name when the issuing action has a request id. *)
Definition next_action (name : string) (a : action) (c : dispatch_call) : action :=
  let _reqId := request_id_of a in
  let data := snd c in
  let _data :=
    if truthy _reqId then
      if String.eqb (typeof data) "object"
      then VObj (set "_action" (VStr name) (set "_reqId" _reqId (spread [] data)))
      else VObj [("data", data); ("_reqId", _reqId); ("_action", VStr name)]
    else data in
  plain_action (fst c) _data.

(** [let data = action.data; if (data && data.data && data._reqId) data = data.data] *)
Definition action_data (a : action) : value :=
  let d := data a in
  if truthy (JS.and (JS.and d (get d "data")) (get d "_reqId")) then get d "data" else d.

(** The function a state reducer is mapped to: [(state) => ...].  Calling it
    runs the reducer; the dispatched actions go to the timer queue. *)
Definition state_reducer (name : string) (f : reducer_fn) (a : action)
  : value -> list action * value :=
  fun state =>
    let r := f state (action_data a) (req a) in
    let newState := snd r in
    (map (next_action name a) (fst r),
     if loose_eq_ABORT newState then state else newState).

(** What the mapping of one action gives on a sink. *)
Inductive outcome : Type :=
| Emit (v : value)                                   (* a value sent on the sink *)
| EmitReducer (r : value -> list action * value)     (* a state reducer sent on the state sink *)
| Suppress                                           (* held back by [filter(result => result != ABORT)] *)
| Throw (msg : string).                              (* an Error thrown by the mapping function *)

Record handled : Type := mkHandled {
  scheduled : list action;   (* actions handed to setTimeout by [next] *)
  warnings  : list string;   (* console.warn *)
  result    : outcome
}.

Definition stamp (name : string) (a : action) (reduced : value) : value :=
  VObj (set "_action" (VStr name) (set "_reqId" (request_id_of a) (spread [] reduced))).

(** The non-state branch of the mapping function, before the filter. *)
Definition effect_map (name : string) (f : reducer_fn) (currentState : value) (a : action)
  : list action * list string * (string + value) :=
  let r := f currentState (action_data a) (req a) in
  let reduced := snd r in
  let type := typeof reduced in
  let timers := map (next_action name a) (fst r) in
  if existsb (String.eqb type) ["string"; "number"; "boolean"; "function"]
  then (timers, [], inr reduced)
  else if String.eqb type "object" then (timers, [], inr (stamp name a reduced))
  else if String.eqb type "undefined"
  then (timers, ["'undefined' value sent to " ++ name], inr reduced)
  else (timers, [], inl ("Invalid reducer type for " ++ name ++ " " ++ type)).

(** [filter(result => result != ABORT)] on a mapped value. *)
Definition filter_ABORT (v : value) : outcome :=
  if loose_eq_ABORT v then Suppress else Emit v.

(** The stream [makeOnAction(action$, isStateSink, rootAction$)(name, reducer)]
    on one action that passed [filter(({type}) => type == name)]. *)
Definition on_action (isStateSink : bool) (name : string) (r : reducer)
    (currentState : value) (a : action) : handled :=
  match r with
  | RFun f =>
      if isStateSink then
        (* the mapped value is a function, which is never [== ABORT] *)
        mkHandled [] [] (EmitReducer (state_reducer name f a))
      else
        match effect_map name f currentState a with
        | (timers, warned, inr v) => mkHandled timers warned (filter_ABORT v)
        | (timers, warned, inl msg) => mkHandled timers warned (Throw msg)
        end
  | RVal v =>
      match v with
      | VUndefined | VBool true => mkHandled [] [] (Emit (data a))
      | _ => mkHandled [] [] (Emit v)
      end
  end.

(** [filter(({type}) => type == name)] *)
Definition matches (name : string) (a : action) : bool := String.eqb (type a) name.

(** ** The model: [initState] and [initModel$] *)

(** The entry of one action in the model: a reducer function (shorthand for
    the state sink), an object from sink names to reducers, or another value. *)
Inductive model_entry : Type :=
| EntryFun (f : reducer_fn)
| EntrySinks (sinks : list (string * reducer))
| EntryOther (v : value).

Definition model_map := list (string * model_entry).

(** The result of a step that can throw. *)
Inductive res (A : Type) : Type :=
| Ok (x : A)
| Err (msg : string).
Arguments Ok {A} x.
Arguments Err {A} msg.

Definition bind {A B : Type} (r : res A) (k : A -> res B) : res B :=
  match r with
  | Ok x => k x
  | Err msg => Err msg
  end.

Notation "x <- r ;; k" := (bind r (fun x => k))
  (at level 61, r at next level, right associativity).

Fixpoint model_lookup (k : string) (m : model_map) : option model_entry :=
  match m with
  | [] => None
  | (k', e) :: rest => if String.eqb k k' then Some e else model_lookup k rest
  end.

Fixpoint model_set (k : string) (e : model_entry) (m : model_map) : model_map :=
  match m with
  | [] => [(k, e)]
  | (k', e') :: rest =>
      if String.eqb k k' then (k', e) :: rest else (k', e') :: model_set k e rest
  end.

(** [(_, data) => ({ ...data })] *)
Definition default_initialize : reducer_fn :=
  fun _ data _ => ([], VObj (spread [] data)).

(** [initState], on a model that is not undefined: a missing INITIALIZE entry
    is filled in with the default handler on the state sink; a given one
    loses every sink other than the state sink, with a warning each. *)
Definition initState (stateSourceName : string) (m : model_map) : res (model_map * list string) :=
  match model_lookup INITIALIZE_ACTION m with
  | None | Some (EntryOther VUndefined) =>
      Ok (model_set INITIALIZE_ACTION
            (EntrySinks [(stateSourceName, RFun default_initialize)]) m, [])
  | Some (EntrySinks sinks) =>
      let dropped := filter (fun kv => negb (String.eqb (fst kv) stateSourceName)) sinks in
      let kept := filter (fun kv => String.eqb (fst kv) stateSourceName) sinks in
      Ok (model_set INITIALIZE_ACTION (EntrySinks kept) m,
          map (fun kv => INITIALIZE_ACTION ++ " can only be used with the "
                           ++ stateSourceName ++ " source... disregarding " ++ fst kv) dropped)
  | Some (EntryOther VNull) => Err "TypeError: Cannot convert undefined or null to object"
  | Some (EntryOther (VStr s)) =>
      (* the keys of a string are its indices, which strict code cannot delete *)
      if existsb (fun kv => negb (String.eqb (fst kv) stateSourceName)) (chars_from 0 s)
      then Err "TypeError: Cannot delete property of [object String]"
      else Ok (m, [])
  | Some (EntryFun _) | Some (EntryOther _) => Ok (m, [])
  end.

(** One reducer stream of [initModel$]: the sink it is merged into, the
    action name it filters on, and the reducer. *)
Record registration : Type := mkReg {
  reg_sink    : string;
  reg_action  : string;
  reg_reducer : reducer
}.

(** The [modelEntries.forEach] loop: the reducer streams in the order in
    which they are pushed. *)
Fixpoint registrations (componentName stateSourceName : string) (m : model_map)
  : res (list registration) :=
  match m with
  | [] => Ok []
  | (action, e) :: rest =>
      sinks <- match e with
               | EntryFun f => Ok [(stateSourceName, RFun f)]
               | EntrySinks sinks => Ok sinks
               | EntryOther VNull => Err "TypeError: Cannot convert undefined or null to object"
               | EntryOther _ =>
                   Err ("Entry for each action must be an object: "
                          ++ componentName ++ " " ++ action)
               end ;;
      more <- registrations componentName stateSourceName rest ;;
      Ok (map (fun kv => mkReg (fst kv) action (snd kv)) sinks ++ more)%list
  end.

(** [reducers[sink]]: the streams merged into one sink. *)
Definition sink_streams (sink : string) (regs : list registration) : list registration :=
  filter (fun r => String.eqb (reg_sink r) sink) regs.

(** [shimmed$]: the INITIALIZE pseudo-action ahead of the action stream when
    the initial state is truthy ([concat(xs.of(initial), action$)], delayed
    as a whole), the action stream itself otherwise. *)
Definition shimmed (initialState : value) (bus : list action) : list action :=
  if truthy initialState
  then plain_action INITIALIZE_ACTION initialState :: bus
  else bus.

(** What the merged streams of one sink map one action to: each stream whose
    name the action matches, in the order the streams were pushed. *)
Definition deliver (isStateSink : bool) (streams : list registration)
    (currentState : value) (a : action) : list handled :=
  map (fun r => on_action isStateSink (reg_action r) (reg_reducer r) currentState a)
      (filter (fun r => matches (reg_action r) a) streams).

(** The state sink, [model$[stateSourceName]], over the actions of the bus. *)
Definition state_sink (stateSourceName : string) (regs : list registration)
    (initialState : value) (bus : list action) : list outcome :=
  flat_map (fun a => map result (deliver true (sink_streams stateSourceName regs) VUndefined a))
           (shimmed initialState bus).

(** Another sink over the actions of the bus, each paired with the value of
    [this.currentState] when it is delivered. *)
Definition effect_sink (sink : string) (regs : list registration)
    (bus : list (value * action)) : list handled :=
  flat_map (fun ca => deliver false (sink_streams sink regs) (fst ca) (snd ca)) bus.

(** The state driver folds the reducers it receives over its state, which
    starts undefined, and emits each new state; an emission that is not a
    function ends the fold. *)
Fixpoint drive (s : value) (es : list outcome) : list value :=
  match es with
  | EmitReducer r :: rest => let s' := snd (r s) in s' :: drive s' rest
  | _ => []
  end.

Definition state_after (s : value) (rs : list (value -> list action * value)) : value :=
  fold_left (fun s r => snd (r s)) rs s.

(** ** Sources *)

(** What the component asks of a source object: whether it has a [stream]
    (the state source), which of its properties are functions (the router's
    method selectors, [select], [request]), the events of the stream that
    [source.request(id)] returns, and the value its [stream] hands to a new
    listener at once, when it subscribes: the last value of a remembered
    stream that has emitted, such as the state stream of a state driver that
    already has a state. *)
Record source : Type := mkSource {
  has_stream     : bool;
  function_props : list string;
  request_events : value -> list value;
  held           : option value
}.

Definition source_map := list (string * source).

Fixpoint find_source (k : string) (srcs : source_map) : option source :=
  match srcs with
  | [] => None
  | (k', s) :: rest => if String.eqb k k' then Some s else find_source k rest
  end.

Definition has_function (s : source) (k : string) : bool :=
  existsb (String.eqb k) (function_props s).

Definition REQUEST_SELECTOR_METHOD := "request".

(** ** The request router: [initResponse$] *)

(** The target of a route in the request object: the name of the action to
    trigger, or a function of the state and the request, which may throw. *)
Inductive route_target : Type :=
| ToAction (name : string)
| ToFunction (f : value -> value -> res value).

(** An action as the object that carries it. *)
Definition action_object (a : action) : value :=
  VObj [("type", VStr (type a)); ("data", data a); ("req", req a);
        ("_reqId", _reqId a); ("_action", _action a)].

(** The action synthesized for a request:
    [{ type, data: body, req, _reqId, _action: type }]. *)
Definition request_action (type : string) (rq : value) : action :=
  mkAction type (get rq "body") rq (get rq "id") (VStr type).

(** What the function given to [map] does with one request. *)
Inductive mapped : Type :=
| Thrown (msg : string)             (* it throws *)
| Inner (events : list value)       (* it returns a stream, with these events *)
| NoStream.                         (* it returns undefined, after the catch *)

Record route_step : Type := mkStep {
  sent    : list action;    (* this.action$.shamefullySendNext *)
  errors  : list string;    (* console.error *)
  mapped_to : mapped
}.

(** The streams [source.request(_reqId)] of the sources that have a
    [request] function, merged. *)
Definition selected_responses (srcs : source_map) (_reqId : value) : list value :=
  flat_map (fun ns =>
              if has_function (snd ns) REQUEST_SELECTOR_METHOD
              then request_events (snd ns) _reqId else [])
           srcs.

(** The function mapped over the requests of one route:
    [req => { if (!req || !req.id) throw ...; try { ... } catch(err) { console.error(err) } }]. *)
Definition route_handler (routeString : string) (target : route_target)
    (srcs : source_map) (currentState : value) (req : value) : route_step :=
  if negb (truthy req) || negb (truthy (get req "id")) then
    mkStep [] [] (Thrown ("No id found in request: " ++ routeString))
  else
    let _reqId := get req "id" in
    let type := match target with ToFunction _ => "FUNCTION" | ToAction name => name end in
    let obj := request_action type req in
    (* [req.get ? req.get('host') : '0.0.0.0'] calls [req.get] when it is truthy *)
    if truthy (get req "get") && negb (String.eqb (typeof (get req "get")) "function") then
      mkStep [] ["TypeError: req.get is not a function"] NoStream
    else
      match target with
      | ToFunction f =>
          match f currentState req with
          | Ok result =>
              mkStep [] [] (Inner [action_object (mkAction type result req _reqId (VStr type))])
          | Err msg => mkStep [] [msg] NoStream
          end
      | ToAction _ => mkStep [obj] [] (Inner (selected_responses srcs _reqId))
      end.

(** How far a route's stream [router$[_method](route)...map(...).flatten()]
    has come.  These are the rules of the stream library for [map] and
    [flatten]:
    - an exception in the function given to [map] is handed on as the error
      of the stream: the mapping is unsubscribed from the requests at once,
      and the error ends every stream downstream;
    - [flatten] listens to the stream it was handed last; handed [undefined],
      it keeps [undefined] as its inner stream and throws a TypeError to the
      caller, without an error on the stream; when it had listened to a
      stream before, it then throws that TypeError on every later event as
      well, before it gets to listen to the new stream; when it had not, the
      next stream is taken as usual. *)
Inductive stream_status : Type :=
| Live
| Errored (msg : string)   (* the mapping function threw: it handles no request any more *)
| Broken.                  (* [flatten] holds [undefined] after a stream: the mapping
                              function still runs on each request, nothing more is relayed *)

Record route_run : Type := mkRun {
  bus_sent      : list action;   (* actions sent into the action stream, in order *)
  console_error : list string;
  responses     : list value;    (* events the route's inner streams contribute to response$ *)
  status        : stream_status;
  flattened     : bool           (* [flatten] has been handed a stream *)
}.

Definition route_start : route_run := mkRun [] [] [] Live false.

(** One request, with the value of [this.currentState] when it arrives, on a
    route's stream, past [dropRepeats].  The events of the inner stream are
    the ones that arrive while [flatten] listens to it, that is, until the
    next stream is taken. *)
Definition route_next (routeString : string) (target : route_target) (srcs : source_map)
    (run : route_run) (creq : value * value) : route_run :=
  match status run with
  | Errored _ => run
  | st =>
      let step := route_handler routeString target srcs (fst creq) (snd creq) in
      let bus := (bus_sent run ++ sent step)%list in
      let logged := (console_error run ++ errors step)%list in
      match mapped_to step with
      | Thrown msg => mkRun bus logged (responses run) (Errored msg) (flattened run)
      | Inner events =>
          match st with
          | Broken => mkRun bus logged (responses run) Broken (flattened run)
          | _ => mkRun bus logged (responses run ++ events)%list Live true
          end
      | NoStream =>
          mkRun bus logged (responses run) (if flattened run then Broken else st)
                (flattened run)
      end
  end.

Definition route_stream (routeString : string) (target : route_target) (srcs : source_map)
    (reqs : list (value * value)) : route_run :=
  fold_left (route_next routeString target srcs) reqs route_start.

(** ** Outbound responses: [initSendResponse$] *)

(** The mapping of one event of a stream returned by the response function
    under [command]:
    [({ _reqId, _action, data }) => { if (!_reqId) throw ...; return { _reqId, _action, command, data } }]. *)
Definition send_response (command : string) (ev : value) : res value :=
  match ev with
  | VUndefined | VNull =>
      (* the parameter cannot be destructured *)
      Err "TypeError: Cannot destructure property '_reqId'"
  | _ =>
      let _reqId := get ev "_reqId" in
      if negb (truthy _reqId)
      then Err ("No request id found for response for: " ++ command)
      else Ok (VObj [("_reqId", _reqId); ("_action", get ev "_action");
                     ("command", VStr command); ("data", get ev "data")])
  end.

(** [select(actions)] of the object handed to the response function, on one
    event of [response$]: [None] for [select()], a list of names otherwise. *)
Definition selects (actions : option (list string)) (ev : value) : bool :=
  match actions with
  | None | Some [] => true
  | Some names =>
      match get ev "_action" with
      | VStr a => String.eqb a "FUNCTION" || existsb (String.eqb a) names
      | _ => false
      end
  end.

(** ** The constructor of [Component] *)

(** What the intent function returns: a stream of actions, an object from
    action names to streams, or a value that is neither. *)
Inductive intent_result : Type :=
| IntentStream
| IntentMap (names : list string)
| IntentOther (v : value).

(** The [intent] parameter: a function, or a value that is not a function
    ([VUndefined] when it is not given). *)
Inductive intent_param : Type :=
| IntentFunction (returns : intent_result)
| IntentValue (v : value).

(** The action of a route in the [request] parameter. *)
Inductive route_entry : Type :=
| Route (target : route_target)
| RouteUndefined
| RouteOther (v : value).

(** The [request] parameter: not given, an object from methods to objects
    from routes to actions, or a primitive or null. *)
Inductive request_param : Type :=
| RequestUndefined
| RequestObject (methods : list (string * list (string * route_entry)))
| RequestOther (v : value).

(** A stream in the object the response function returns: one obtained from
    [select(actions)] ([None] for [select()]), or one of its own making. *)
Inductive response_stream : Type :=
| FromSelect (actions : option (list string))
| OwnStream.

Inductive response_result : Type :=
| ResponseObject (entries : list (string * response_stream))
| ResponseOther (v : value).

(** The [response] parameter: not given, a function, or another value. *)
Inductive response_param : Type :=
| ResponseUndefined
| ResponseFunction (returns : response_result)
| ResponseValue (v : value).

(** The object passed to the constructor.  [sources] is [None] when it is
    missing or not an object; a child factory is given by what it does when
    called on the sources: it throws, or returns sinks of these names. *)
Module Opts.
Record t : Type := mk {
  name              : string;
  sources           : option source_map;
  intent            : intent_param;
  request           : request_param;
  model             : option model_map;
  response          : response_param;
  view              : bool;
  children          : list (string * res (list string));
  initialState      : value;
  DOMSourceName     : string;
  stateSourceName   : string;
  requestSourceName : string
}.
End Opts.

(** [action$]: [xs.never()], or the merge of the delayed
    [concat(xs.of({ type: BOOTSTRAP }), runner)] with the hydrate stream,
    which is [xs.never()] unless the request source has a [select]. *)
Inductive action_stream : Type :=
| ActionNever
| ActionMerged (runner : intent_result) (hydrates : bool).

(** One wired route: its [routeString] and its target. *)
Definition wired_route := (string * route_target)%type.

(** The instance the constructor builds.  The streams are given by what
    they are built from: [action_s] is [action$], [response_s] is [response$]
    ([None] while undefined) by its routes, [model_s] is [model$] by its
    reducer streams, [sendResponse_s] is [sendResponse$] by the streams
    merged into it. *)
Record Component : Type := mkComponent {
  name              : string;
  sources           : source_map;
  intent            : intent_param;
  request           : request_param;
  model             : option model_map;
  response          : response_param;
  initialState      : value;
  DOMSourceName     : string;
  stateSourceName   : string;
  requestSourceName : string;
  sourceNames       : list string;
  currentState      : option value;
  action_s          : action_stream;
  response_s        : option (list wired_route);
  model_s           : list registration;
  sendResponse_s    : list (string * response_stream);
  sinks             : list string;
  warned            : list string
}.

Definition lower_ascii (c : ascii) : ascii :=
  let n := nat_of_ascii c in
  if (65 <=? n)%nat && (n <=? 90)%nat then ascii_of_nat (n + 32) else c.

Definition upper_ascii (c : ascii) : ascii :=
  let n := nat_of_ascii c in
  if (97 <=? n)%nat && (n <=? 122)%nat then ascii_of_nat (n - 32) else c.

Fixpoint map_string (f : ascii -> ascii) (s : string) : string :=
  match s with
  | EmptyString => EmptyString
  | String c rest => String (f c) (map_string f rest)
  end.

(** [toLowerCase] and [toUpperCase], on the letters of method names. *)
Definition toLowerCase := map_string lower_ascii.
Definition toUpperCase := map_string upper_ascii.

Definition NOOP_ACTION := "__NOOP_ACTION__".

(** The defaults of a root component without intent and model:
    [_ => ({ __NOOP_ACTION__: xs.never() })] and
    [{ __NOOP_ACTION__: state => state }]. *)
Definition noop_intent : intent_param := IntentFunction (IntentMap [NOOP_ACTION]).
Definition noop_model : model_map :=
  [(NOOP_ACTION, EntryFun (fun state _ _ => ([], state)))].

Definition intent_undefined (i : intent_param) : bool :=
  match i with IntentValue VUndefined => true | _ => false end.

(** [initIntent$]: the value of [this.intent$], [None] while undefined. *)
Definition initIntent (i : intent_param) : res (option intent_result) :=
  match i with
  | IntentFunction r =>
      match r with
      | IntentOther v =>
          if String.eqb (typeof v) "object" then Ok (Some r)
          else Err "Intent must return either an action$ stream or map of event streams"
      | _ => Ok (Some r)
      end
  | IntentValue v =>
      if truthy v then Err "Intent must be a function" else Ok None
  end.

(** [initAction$] *)
Definition initAction (intent_s : option intent_result) (requestSource : option source)
  : res action_stream :=
  let hydrates := match requestSource with
                  | Some s => has_function s "select"
                  | None => false
                  end in
  match intent_s with
  | None | Some (IntentOther VNull) => Ok ActionNever
  | Some (IntentOther (VObj (_ :: _))) => Err "TypeError: data$.map is not a function"
  | Some (IntentOther _) => Ok (ActionMerged (IntentMap []) hydrates)
  | Some r => Ok (ActionMerged r hydrates)
  end.

(** The inner [entries.reduce] of [initResponse$]: the routes of one method. *)
Fixpoint wire_routes (_method : string) (routes : list (string * route_entry))
  : res (list wired_route) :=
  match routes with
  | [] => Ok []
  | (route, entry) :: rest =>
      let routeString :=
        "[" ++ toUpperCase _method ++ "]:" ++ (if String.eqb route "" then "none" else route) in
      target <- match entry with
                | RouteUndefined =>
                    Err ("Action for '" ++ route ++ "' route in request object not specified")
                | RouteOther _ =>
                    Err ("Invalid action for '" ++ route ++ "' route: expecting string or function")
                | Route target => Ok target
                end ;;
      more <- wire_routes _method rest ;;
      Ok ((routeString, target) :: more)
  end.

(** The outer [methods.reduce] of [initResponse$]. *)
Fixpoint wire_methods (router : option source)
    (methods : list (string * list (string * route_entry))) : res (list wired_route) :=
  match methods with
  | [] => Ok []
  | (method, routes) :: rest =>
      let _method := toLowerCase method in
      match router with
      | None => Err "TypeError: Cannot read properties of undefined"
      | Some r =>
          if has_function r _method then
            mapped <- wire_routes _method routes ;;
            more <- wire_methods router rest ;;
            Ok (mapped ++ more)%list
          else Err "Invalid method in request object:"
      end
  end.

Definition response_given (r : response_param) : bool :=
  match r with ResponseUndefined => false | _ => true end.

(** [initResponse$]: the value of [this.response$], [None] while undefined. *)
Definition initResponse (request : request_param) (response : response_param)
    (router : option source) : res (option (list wired_route)) :=
  match request with
  | RequestUndefined => Ok None
  | RequestOther v =>
      if String.eqb (typeof v) "object"
      then Err "TypeError: Cannot convert undefined or null to object"
      else Err "The request parameter must be an object"
  | RequestObject methods =>
      wrapped <- wire_methods router methods ;;
      let response_s := Some wrapped in
      if response_given response && match response_s with None => true | Some _ => false end
      then Err "Cannot have a response parameter without a request parameter"
      else Ok response_s
  end.

Definition uses_select (with_names : bool) (e : string * response_stream) : bool :=
  match snd e with
  | FromSelect (Some _) => with_names
  | FromSelect None => negb with_names
  | OwnStream => false
  end.

(** [initSendResponse$]: the streams merged into [sendResponse$]. *)
Definition initSendResponse (response : response_param)
    (response_s : option (list wired_route)) : res (list (string * response_stream)) :=
  match response with
  | ResponseValue _ => Err "The response parameter must be a function"
  | ResponseUndefined => Ok []
  | ResponseFunction (ResponseOther v) =>
      if String.eqb (typeof v) "object"
      then Err "TypeError: Cannot convert undefined or null to object"
      else Err "The response function must return an object"
  | ResponseFunction (ResponseObject entries) =>
      match response_s with
      | Some _ => Ok entries
      | None =>
          (* [this.response$] is undefined: [select(actions)] reads its [filter],
             and a stream obtained from [select()] is undefined when mapped *)
          if existsb (uses_select true) entries
          then Err "TypeError: Cannot read properties of undefined (reading 'filter')"
          else if existsb (uses_select false) entries
          then Err "TypeError: Cannot read properties of undefined (reading 'map')"
          else Ok entries
      end
  end.

(** [initChildren$]: every child factory is called on the sources. *)
Fixpoint initChildren (children : list (string * res (list string))) : res (list string) :=
  match children with
  | [] => Ok []
  | (childName, Ok _) :: rest => more <- initChildren rest ;; Ok (childName :: more)
  | (_, Err msg) :: _ => Err msg
  end.

Fixpoint add_name (k : string) (names : list string) : list string :=
  match names with
  | [] => [k]
  | k' :: rest => if String.eqb k k' then names else k' :: add_name k rest
  end.

(** [initSinks]: the names of the sinks. *)
Definition initSinks (srcs : source_map) (DOM STATE HTTP : string) : res (list string) :=
  let names := map fst srcs in
  let no_stream :=
    existsb (fun n => negb (String.eqb n DOM) && String.eqb n STATE
                      && negb (match find_source STATE srcs with
                               | Some s => has_stream s
                               | None => false
                               end)) names in
  if no_stream then Err "TypeError: Cannot read properties of undefined (reading 'filter')"
  else Ok (add_name HTTP (add_name DOM (filter (fun n => negb (String.eqb n DOM)) names))).

(** The defaults a root component takes when it has neither intent nor
    model: the initial state, the intent and the model after
    [if (IS_ROOT_COMPONENT && ...) { ... }]. *)
Definition root_defaults (IS_ROOT_COMPONENT : bool) (o : Opts.t)
  : value * intent_param * option model_map :=
  if IS_ROOT_COMPONENT && intent_undefined (Opts.intent o)
     && match Opts.model o with None => true | Some _ => false end
  then (JS.or (Opts.initialState o) (VBool true), noop_intent, Some noop_model)
  else (Opts.initialState o, Opts.intent o, Opts.model o).

(** The part of the constructor that follows [IS_ROOT_COMPONENT = false]. *)
Definition init (o : Opts.t) (srcs : source_map) (currentState : option value)
    (defaults : value * intent_param * option model_map) : res Component :=
  let '(initialState, intent, model) := defaults in
  let STATE := Opts.stateSourceName o in
  let HTTP := Opts.requestSourceName o in
  intent_s <- initIntent intent ;;
  action_s <- initAction intent_s (find_source HTTP srcs) ;;
  response_s <- initResponse (Opts.request o) (Opts.response o) (find_source HTTP srcs) ;;
  model_warned <- match model with
                  | None => Ok (None, [])
                  | Some m => mw <- initState STATE m ;; Ok (Some (fst mw), snd mw)
                  end ;;
  model_s <- match fst model_warned with
             | None => Ok []
             | Some m => registrations (Opts.name o) STATE m
             end ;;
  sendResponse_s <- initSendResponse (Opts.response o) response_s ;;
  _ <- initChildren (Opts.children o) ;;
  sinks <- initSinks srcs (Opts.DOMSourceName o) STATE HTTP ;;
  Ok (mkComponent (Opts.name o) srcs intent (Opts.request o) (fst model_warned)
        (Opts.response o) initialState (Opts.DOMSourceName o) STATE HTTP
        (map fst srcs) currentState action_s response_s model_s sendResponse_s
        sinks (snd model_warned)).

(** [new Component(opts)] with the process-wide flag [IS_ROOT_COMPONENT]
    before the call: the instance or the error thrown, and the flag after. *)
Definition constructor (o : Opts.t) (IS_ROOT_COMPONENT : bool) : res Component * bool :=
  match Opts.sources o with
  | None => (Err "Missing or invalid sources", IS_ROOT_COMPONENT)
  | Some srcs =>
      let state_s := match find_source (Opts.stateSourceName o) srcs with
                     | Some s => has_stream s
                     | None => false
                     end in
      (* [this.currentState = initialState || {}], then the listener that
         [subscribe] adds is handed the value the stream holds, if any *)
      let replayed := match find_source (Opts.stateSourceName o) srcs with
                      | Some s => held s
                      | None => None
                      end in
      let currentState :=
        if state_s
        then Some (match replayed with
                   | Some val => val
                   | None => JS.or (Opts.initialState o) (VObj [])
                   end)
        else None in
      (init o srcs currentState (root_defaults IS_ROOT_COMPONENT o), false)
  end.

(** Components constructed one after the other in one process. *)
Fixpoint construct_all (os : list Opts.t) (IS_ROOT_COMPONENT : bool)
  : list (res Component) * bool :=
  match os with
  | [] => ([], IS_ROOT_COMPONENT)
  | o :: rest =>
      let '(c, flag) := constructor o IS_ROOT_COMPONENT in
      let '(cs, last) := construct_all rest flag in
      (c :: cs, last)
  end.

(** ** The event loop: timers, the action bus and re-entrant dispatch *)

(** What a pending timer does when it runs. *)
Inductive task : Type :=
| SendNext (a : action)   (* set by [next]: [() => rootAction$.shamefullySendNext({ type, data: _data })] *)
| Wrapped (a : action)    (* an event of [wrapped$], held back by [delay(10)] *)
| Shimmed (a : action).   (* an event of [shimmed$], held back by [delay(0)] *)

Record timer : Type := mkTimer {
  timer_id : nat;
  due      : nat;
  job      : task
}.

(** What happens, in the order in which it happens. *)
Inductive entry : Type :=
| Delivered (a : action)                                    (* [action$] hands [a] to its listeners *)
| Called (sink name : string) (a : action)                  (* the mapping of stream (name, sink) starts on [a] *)
| Dispatched (id : nat) (a : action)                        (* [next] is called: [setTimeout] returns [id] *)
| Returned (sink name : string) (a : action) (r : outcome)  (* the mapping has returned, and the stream emits its
                                                               outcome: a value (to the log, and to the driver of
                                                               the sink while the merged stream of the sink is
                                                               live), nothing, or its error *)
| Stored (v : value)                                        (* the state stream emits [v]: [this.currentState = v] *)
| Fired (id : nat) (j : task).                              (* the event loop runs timer [id] *)

(** The reducer streams are subscribed from the start: [this.log] subscribes
    to each of them when it is composed.  A stream whose mapping throws ends
    with that error, and with it the merged stream of its sink; the other
    streams of the sink keep their log listener, so their reducers still run
    on every action they filter in, and their calls of [next] count. *)
Record loop : Type := mkLoop {
  now        : nat;
  next_timer : nat;                                (* the id the next [setTimeout] returns *)
  timers     : list timer;                         (* pending timers, in the order they were set *)
  pending    : list (string * action * reducer_fn);(* reducers sent on the state sink, not yet called *)
  cached     : value;                              (* [this.currentState] *)
  stopped    : list (string * string);             (* the reducer streams (sink, action) whose mapping threw *)
  closed     : list string;                        (* the routes whose mapping receives no request any more *)
  trace      : list entry
}.

Definition log (e : entry) (L : loop) : loop :=
  mkLoop (now L) (next_timer L) (timers L) (pending L) (cached L) (stopped L) (closed L)
         (trace L ++ [e]).

(** [setTimeout(job, delay)] *)
Definition set_timeout (delay : nat) (j : task) (L : loop) : loop :=
  mkLoop (now L) (S (next_timer L))
         (timers L ++ [mkTimer (next_timer L) (now L + delay) j])
         (pending L) (cached L) (stopped L) (closed L) (trace L).

(** One call of [next] inside a reducer. *)
Definition dispatch (L : loop) (a : action) : loop :=
  set_timeout 10 (SendNext a) (log (Dispatched (next_timer L) a) L).

Definition stop_stream (sink name : string) (L : loop) : loop :=
  mkLoop (now L) (next_timer L) (timers L) (pending L) (cached L)
         ((sink, name) :: stopped L) (closed L) (trace L).

Definition stream_stopped (sink name : string) (L : loop) : bool :=
  existsb (fun s => String.eqb (fst s) sink && String.eqb (snd s) name) (stopped L).

(** [initSinks] makes a sink of [model$[name]] for every key of the sources
    but the DOM source name. *)
Definition relays (c : Component) (sink : string) : bool :=
  existsb (String.eqb sink) (sourceNames c) && negb (String.eqb sink (DOMSourceName c)).

(** The mapping of one stream of a non-state sink on an action it filters
    in; a stream whose mapping has thrown maps no more. *)
Definition invoke_effect (L : loop) (r : registration) (a : action) : loop :=
  if stream_stopped (reg_sink r) (reg_action r) L then L
  else
    let h := on_action false (reg_action r) (reg_reducer r) (cached L) a in
    let L1 := log (Called (reg_sink r) (reg_action r) a) L in
    let L2 := fold_left dispatch (scheduled h) L1 in
    let L3 := log (Returned (reg_sink r) (reg_action r) a (result h)) L2 in
    match result h with
    | Throw _ => stop_stream (reg_sink r) (reg_action r) L3
    | _ => L3
    end.

Definition effect_streams (c : Component) : list registration :=
  filter (fun r => negb (String.eqb (reg_sink r) (stateSourceName c))) (model_s c).

(** An action reaches the state sink's streams: each reducer function that
    filters it in is sent to the state driver. *)
Definition emit_state (c : Component) (a : action) (L : loop) : loop :=
  let fresh :=
    flat_map (fun r => match reg_reducer r with
                       | RFun f => [(reg_action r, a, f)]
                       | RVal _ => []
                       end)
             (filter (fun r => matches (reg_action r) a)
                     (sink_streams (stateSourceName c) (model_s c))) in
  mkLoop (now L) (next_timer L) (timers L) (pending L ++ fresh) (cached L) (stopped L)
         (closed L) (trace L).

(** [action$] emits [a]: the streams of the other sinks map it at once; the
    state sink's streams, which exist when there is a model, get it through
    [shimmed$]. *)
Definition send (c : Component) (L : loop) (a : action) : loop :=
  let L1 := log (Delivered a) L in
  let L2 := fold_left (fun L r => invoke_effect L r a)
                      (filter (fun r => matches (reg_action r) a) (effect_streams c)) L1 in
  match model c with
  | None => L2
  | Some _ =>
      if truthy (initialState c) then set_timeout 0 (Shimmed a) L2 else emit_state c a L2
  end.

(** The pending timer that is due first, the earliest set among equals. *)
Fixpoint earliest (ts : list timer) : option timer :=
  match ts with
  | [] => None
  | t :: rest =>
      match earliest rest with
      | Some t' => if (due t' <? due t)%nat then Some t' else Some t
      | None => Some t
      end
  end.

Fixpoint remove_timer (id : nat) (ts : list timer) : list timer :=
  match ts with
  | [] => []
  | t :: rest => if Nat.eqb (timer_id t) id then rest else t :: remove_timer id rest
  end.

Fixpoint find_route (routeString : string) (routes : list wired_route) : option route_target :=
  match routes with
  | [] => None
  | (rs, target) :: rest =>
      if String.eqb routeString rs then Some target else find_route routeString rest
  end.

Definition close_route (routeString : string) (L : loop) : loop :=
  mkLoop (now L) (next_timer L) (timers L) (pending L) (cached L) (stopped L)
         (routeString :: closed L) (trace L).

Definition route_closed (routeString : string) (L : loop) : bool :=
  existsb (String.eqb routeString) (closed L).

(** [this.currentState = val], for a component that listens to the state
    stream. *)
Definition store (c : Component) (v : value) (L : loop) : loop :=
  match currentState c with
  | Some _ =>
      log (Stored v)
          (mkLoop (now L) (next_timer L) (timers L) (pending L) v (stopped L) (closed L)
                  (trace L))
  | None => L
  end.

(** What reaches the component from outside its own code. *)
Inductive input : Type :=
| Request (routeString : string) (rq : value)  (* a request event on a wired route, past dropRepeats *)
| Detach (routeString : string)                (* after [response$] has ended with an error, the deferred
                                                  stop of the stream library reaches the mapping of a route *)
| Intent (a : action)                          (* the runner of the intent emits *)
| Hydrate (d : value)                          (* the request source's initial data arrives *)
| StateEmits (v : value)                       (* the state source's stream emits a state set elsewhere *)
| Reduce (s : value)                           (* the state driver calls the oldest reducer it was sent, on
                                                  its state [s], and takes what it returns as its state *)
| Timeout                                      (* the event loop runs the timer due first *)
| Wait (dt : nat).                             (* time passes, up to the next timer *)

(** One step of the component.  A request is handled by the mapping of its
    route for as long as that mapping is subscribed: until it throws, or,
    once another route has thrown and [response$] has ended, until the
    stream library stops the rest of the routes, which it does a few timer
    turns later ([Detach]); a caught error leaves the route as it is.  The
    state driver is the one of @cycle/state: the state it gets from a reducer
    is emitted on the state stream at once, unless it is undefined (or the
    very object emitted last, which [this.currentState] then holds already). *)
Definition step (c : Component) (L : loop) (i : input) : loop :=
  match i with
  | Request routeString rq =>
      match response_s c with
      | Some routes =>
          match find_route routeString routes with
          | Some target =>
              if route_closed routeString L then L
              else
                let s := route_handler routeString target (sources c) (cached L) rq in
                let L1 := fold_left (send c) (sent s) L in
                match mapped_to s with
                | Thrown _ => close_route routeString L1
                | _ => L1
                end
          | None => L
          end
      | None => L
      end
  | Detach routeString =>
      match closed L with
      | [] => L
      | _ => close_route routeString L
      end
  | Intent a =>
      match action_s c with
      | ActionMerged IntentStream _ => set_timeout 10 (Wrapped a) L
      | ActionMerged (IntentMap names) _ =>
          if existsb (String.eqb (type a)) names
          then set_timeout 10 (Wrapped (plain_action (type a) (data a))) L
          else L
      | _ => L
      end
  | Hydrate d =>
      match action_s c with
      | ActionMerged _ true => send c L (plain_action HYDRATE_ACTION d)
      | _ => L
      end
  | StateEmits v => store c v L
  | Reduce s =>
      match pending L with
      | [] => L
      | (name, a, f) :: rest =>
          if relays c (stateSourceName c) then
            let r := state_reducer name f a s in
            let L0 := mkLoop (now L) (next_timer L) (timers L) rest (cached L) (stopped L)
                             (closed L) (trace L) in
            let L1 := log (Called (stateSourceName c) name a) L0 in
            let L2 := fold_left dispatch (fst r) L1 in
            let L3 := log (Returned (stateSourceName c) name a (Emit (snd r))) L2 in
            match snd r with
            | VUndefined => L3
            | v => store c v L3
            end
          else L
      end
  | Timeout =>
      match earliest (timers L) with
      | None => L
      | Some t =>
          let L1 := log (Fired (timer_id t) (job t))
                        (mkLoop (Nat.max (now L) (due t)) (next_timer L)
                                (remove_timer (timer_id t) (timers L))
                                (pending L) (cached L) (stopped L) (closed L) (trace L)) in
          match job t with
          | SendNext a | Wrapped a => send c L1 a
          | Shimmed a => emit_state c a L1
          end
      end
  | Wait dt =>
      let target := match earliest (timers L) with
                    | Some t => Nat.min (now L + dt) (Nat.max (now L) (due t))
                    | None => now L + dt
                    end in
      mkLoop target (next_timer L) (timers L) (pending L) (cached L) (stopped L)
             (closed L) (trace L)
  end.

(** The loop when the component's sinks have been subscribed: [wrapped$]
    holds the BOOTSTRAP action, [shimmed$] the INITIALIZE pseudo-action. *)
Definition start (c : Component) : loop :=
  let boot := match action_s c with
              | ActionMerged _ _ => [mkTimer 0 10 (Wrapped (plain_action BOOTSTRAP_ACTION VUndefined))]
              | ActionNever => []
              end in
  let shim := match model c with
              | Some _ =>
                  if truthy (initialState c)
                  then [mkTimer 1 0 (Shimmed (plain_action INITIALIZE_ACTION (initialState c)))]
                  else []
              | None => []
              end in
  mkLoop 0 2 (boot ++ shim)%list [] 
         (match currentState c with Some v => v | None => VUndefined end)
         [] [] [].

Definition run (c : Component) (inputs : list input) : loop :=
  fold_left (step c) inputs (start c).

(** ** Concrete components used to exercise the definitions *)

Module Examples.

(** A reducer that returns the sentinel: [() => ABORT]. *)
Definition abort_reducer : reducer_fn := fun _ _ _ => ([], VStr ABORT).

(** [(state, data) => ({ count: state.count + data })], on integer counts. *)
Definition increment : reducer_fn :=
  fun state data _ =>
    match get state "count", data with
    | VNum c, VNum d => ([], VObj [("count", VNum (c + d))])
    | _, _ => ([], VObj [("count", VUndefined)])
    end.

(** [(state, data, next) => { next('LOG', data); return null }] *)
Definition notify_null : reducer_fn := fun _ data _ => ([("LOG", data)], VNull).

(** [() => 'sent'], [() => undefined], [() => Symbol('s')] *)
Definition say_sent : reducer_fn := fun _ _ _ => ([], VStr "sent").
Definition say_nothing : reducer_fn := fun _ _ _ => ([], VUndefined).
Definition say_symbol : reducer_fn := fun _ _ _ => ([], VSym "s").
Definition say_object : reducer_fn := fun _ data _ => ([], VObj [("command", VStr "save"); ("value", data)]).

Definition request_r1 : value :=
  VObj [("id", VStr "r1"); ("method", VStr "GET"); ("url", VStr "/x"); ("body", VNum 1)].

(** The action the router synthesizes for [request_r1] routed to ["SAVE"]. *)
Definition save_r1 : action :=
  mkAction "SAVE" (VNum 1) request_r1 (VStr "r1") (VStr "SAVE").

Definition counter_model : model_map :=
  [("INCREMENT", EntryFun increment);
   ("SAVE", EntrySinks [("DB", RFun say_symbol)])].

(** [{ INCREMENT: (state, data) => ({ count: state.count + data }) }] *)
Definition increment_model : model_map := [("INCREMENT", EntryFun increment)].

(** The reducer streams of [increment_model] once [initState] has added the
    default INITIALIZE handler. *)
Definition increment_regs : list registration :=
  match initState "STATE" increment_model with
  | Ok (m, _) =>
      match registrations "counter" "STATE" m with
      | Ok regs => regs
      | Err _ => []
      end
  | Err _ => []
  end.

(** A request event without an id. *)
Definition request_anonymous : value :=
  VObj [("method", VStr "GET"); ("url", VStr "/x"); ("body", VNum 2)].

(** A driver source whose [request(id)] stream carries one event, tagged
    with the id it was selected by. *)
Definition db_source : source :=
  mkSource false ["request"]
    (fun id => [VObj [("_reqId", id); ("data", VStr "saved")]]) None.

(** A router source: it has the method selector [get] and no [request]. *)
Definition http_source : source :=
  mkSource false ["get"; "post"; "select"] (fun _ => []) None.

Definition state_source : source := mkSource true [] (fun _ => []) None.

Definition app_sources : source_map :=
  [("STATE", state_source); ("HTTP", http_source); ("DB", db_source)].

(** [(state, req) => state.count] *)
Definition read_count : value -> value -> res value :=
  fun state _ => Ok (get state "count").

(** [new Component({ name: 'api', sources, response: () => ({ send: xs.of(...) }) })]:
    a response function, no request parameter. *)
Definition response_only : Opts.t :=
  Opts.mk "api" (Some app_sources) (IntentValue VUndefined) RequestUndefined None
          (ResponseFunction (ResponseObject [("send", OwnStream)]))
          false [] VUndefined "DOM" "STATE" "HTTP".

(** [new Component({ name: 'bare', sources })]: neither intent nor model. *)
Definition bare : Opts.t :=
  Opts.mk "bare" (Some app_sources) (IntentValue VUndefined) RequestUndefined None
          ResponseUndefined false [] VUndefined "DOM" "STATE" "HTTP".

(** A component whose SAVE action is routed from [GET /x]; its DB reducer
    dispatches LOG and returns null. *)
Definition saver : Opts.t :=
  Opts.mk "saver" (Some app_sources) (IntentFunction (IntentMap ["INCREMENT"]))
          (RequestObject [("GET", [("/x", Route (ToAction "SAVE"))])])
          (Some [("INCREMENT", EntryFun increment);
                 ("SAVE", EntrySinks [("DB", RFun notify_null)])])
          ResponseUndefined false [] (VObj [("count", VNum 0)]) "DOM" "STATE" "HTTP".



(** [(state, data, next) => { next('PONG', data); return { n: 1 } }] *)
Definition ping : reducer_fn :=
  fun _ data _ => ([("PONG", data)], VObj [("n", VNum 1)]).

(** A component whose state reducer of PING dispatches PONG. *)
Definition pinger : Opts.t :=
  Opts.mk "pinger" (Some app_sources) (IntentFunction (IntentMap ["PING"]))
          RequestUndefined (Some [("PING", EntryFun ping)])
          ResponseUndefined false [] (VObj [("n", VNum 0)]) "DOM" "STATE" "HTTP".

(** The intent emits PING; the timers of INITIALIZE, BOOTSTRAP and PING run
    and the state driver calls the reducers it is sent; then the timer of
    the dispatched PONG runs. *)
Definition ping_then_timers : list input :=
  [Intent (plain_action "PING" (VNum 5)); Timeout; Reduce VUndefined; Timeout; Timeout;
   Timeout; Timeout; Reduce (VObj [("n", VNum 0)]); Timeout].

(** A component whose intent returns a stream of actions; its DB reducer
    of SAVE returns an object. *)
Definition streamer : Opts.t :=
  Opts.mk "streamer" (Some app_sources) (IntentFunction IntentStream) RequestUndefined
          (Some [("SAVE", EntrySinks [("DB", RFun say_object)])])
          ResponseUndefined false [] VUndefined "DOM" "STATE" "HTTP".

(** An action of the intent stream with a [_reqId] of its own:
    [{ type: 'SAVE', data: 1, _reqId: 'forged' }]. *)
Definition forged : action :=
  mkAction "SAVE" (VNum 1) VUndefined (VStr "forged") VUndefined.

End Examples.

(** ** Auxiliary notions for the statements below *)

Definition first_char (s : string) : option ascii :=
  match s with
  | EmptyString => None
  | String c _ => Some c
  end.



Definition task_action (j : task) : action :=
  match j with
  | SendNext a | Wrapped a | Shimmed a => a
  end.

(** [a] has no request id, or is the action synthesized for one of the
    requests among [inputs]. *)
Definition from_request (inputs : list input) (a : action) : Prop :=
  truthy (request_id_of a) = false
  \/ exists routeString rq name,
       In (Request routeString rq) inputs /\ a = request_action name rq.

(** Every action held by a timer, waiting for the state driver or seen by
    a reducer so far has no request id or was synthesized for a request. *)
Definition ids_traced (inputs : list input) (L : loop) : Prop :=
  (forall t, In t (timers L) -> from_request inputs (task_action (job t)))
  /\ (forall n a f, In (n, a, f) (pending L) -> from_request inputs a)
  /\ (forall sink name a, In (Called sink name a) (trace L) -> from_request inputs a).

(** The actions of an intent that returns a stream carry no request id. *)
Definition intent_without_ids (c : Component) (inputs : list input) : Prop :=
  forall hydrates a,
    action_s c = ActionMerged IntentStream hydrates ->
    In (Intent a) inputs -> truthy (request_id_of a) = false.






(** The entries and the timers of the calls of [next] for the actions [l],
    the first of which gets timer [n]. *)
Fixpoint dispatch_entries (n : nat) (l : list action) : list entry :=
  match l with
  | [] => []
  | a :: rest => Dispatched n a :: dispatch_entries (S n) rest
  end.

Fixpoint dispatch_timers (now n : nat) (l : list action) : list timer :=
  match l with
  | [] => []
  | a :: rest => mkTimer n (now + 10) (SendNext a) :: dispatch_timers now (S n) rest
  end.

(** What is recorded after a reducer has returned the state [v] to the
    state driver. *)
Definition state_entries (c : Component) (v : value) : list entry :=
  match v, currentState c with
  | VUndefined, _ | _, None => []
  | _, Some _ => [Stored v]
  end.


(** ** Further notions: dispatched data, the view's input, switchable *)

(** An entry of the model that [initModel$] accepts: a function or an object. *)
Definition entry_accepted (e : model_entry) : bool :=
  match e with
  | EntryFun _ | EntrySinks _ => true
  | EntryOther _ => false
  end.

Module More.

(** [{ INITIALIZE: { STATE: (s, d) => d, DB: () => 'init', LOG: true }, SAVE: { DB: ... } }] *)
Definition eager_model : model_map :=
  [("INITIALIZE", EntrySinks [("STATE", RFun (fun _ d _ => ([], d)));
                              ("DB", RFun Examples.say_sent);
                              ("LOG", RVal (VBool true))]);
   ("SAVE", EntrySinks [("DB", RFun Examples.say_object)])].

End More.

Module MoreRouting.

(** [{ Get: { '/x': 'SAVE', '': (state, req) => state.count } }] *)
Definition mixed_case_request : list (string * list (string * route_entry)) :=
  [("Get", [("/x", Route (ToAction "SAVE")); ("", Route (ToFunction Examples.read_count))])].

(** Options with sources missing. *)
Definition no_sources : Opts.t :=
  Opts.mk "lost" None (IntentValue VUndefined) RequestUndefined None
          ResponseUndefined false [] VUndefined "DOM" "STATE" "HTTP".

(** Sources whose state stream already holds the state [{ count: 7 }]. *)
Definition warm_sources : source_map :=
  [("STATE", mkSource true [] (fun _ => []) (Some (VObj [("count", VNum 7)])));
   ("HTTP", Examples.http_source); ("DB", Examples.db_source)].

(** [new Component({ name: 'warm', sources, initialState: { count: 0 } })] *)
Definition warm : Opts.t :=
  Opts.mk "warm" (Some warm_sources) (IntentValue VUndefined) RequestUndefined None
          ResponseUndefined false [] (VObj [("count", VNum 0)]) "DOM" "STATE" "HTTP".

End MoreRouting.

(** Whether the state source of [srcs] has a stream. *)
Definition state_stream (STATE : string) (srcs : source_map) : bool :=
  match find_source STATE srcs with
  | Some s => has_stream s
  | None => false
  end.

(** The value the state stream of [srcs] hands to the listener that the
    constructor subscribes, if it holds one. *)
Definition state_held (STATE : string) (srcs : source_map) : option value :=
  match find_source STATE srcs with
  | Some s => held s
  | None => None
  end.

(** The actions for which a stream of sink [st] was called, in order. *)
Definition state_calls (st : string) (tr : list entry) : list action :=
  flat_map (fun e => match e with
                     | Called sink _ a => if String.eqb sink st then [a] else []
                     | _ => []
                     end) tr.

(** [{ type: INITIALIZE_ACTION, data: this.initialState }] *)
Definition initialize_action (c : Component) : action :=
  plain_action INITIALIZE_ACTION (initialState c).

(** [L'] comes from [L] with more timers set after the pending ones, the
    same reducers waiting for the state driver, and a longer trace in which
    no stream of sink [st] is called. *)
Definition grows_quietly (st : string) (L L' : loop) : Prop :=
  (exists more, timers L' = (timers L ++ more)%list)
  /\ pending L' = pending L
  /\ exists new, trace L' = (trace L ++ new)%list /\ state_calls st new = [].

(** Where a run stands with respect to the first reducer of the state sink:
    the timer of the INITIALIZE pseudo-action is the next to run; or its
    reducer heads the queue of the state driver; or it was the first to be
    called. *)
Inductive initialize_phase (c : Component) (L : loop) : Prop :=
| InitializeDue (l1 l2 : list timer) :
    timers L = (l1 ++ mkTimer 1 0 (Shimmed (initialize_action c)) :: l2)%list ->
    Forall (fun t => 0 < due t) l1 ->
    pending L = [] ->
    state_calls (stateSourceName c) (trace L) = [] ->
    initialize_phase c L
| InitializeQueued (name : string) (f : reducer_fn)
    (rest : list (string * action * reducer_fn)) :
    pending L = (name, initialize_action c, f) :: rest ->
    state_calls (stateSourceName c) (trace L) = [] ->
    initialize_phase c L
| InitializeCalled :
    hd_error (state_calls (stateSourceName c) (trace L)) = Some (initialize_action c) ->
    initialize_phase c L.

(** ** The view's input: [initChildren$] and [initVdom$] *)

Fixpoint assoc_get {A : Type} (k : string) (l : list (string * A)) : option A :=
  match l with
  | [] => None
  | (k', x) :: rest => if String.eqb k k' then Some x else assoc_get k rest
  end.

(** [o[k] = x] on an object whose values are of type [A]. *)
Fixpoint assoc_set {A : Type} (k : string) (x : A) (l : list (string * A))
  : list (string * A) :=
  match l with
  | [] => [(k, x)]
  | (k', y) :: rest =>
      if String.eqb k k' then (k', x) :: rest else (k', y) :: assoc_set k x rest
  end.

(** A stream combined for the view: the state source's stream, or the DOM
    sink of a child. *)
Inductive render_stream : Type :=
| StateStream
| ChildDOM (childName : string).

(** [this.children$[this.DOMSourceName]]: the object from child names to the
    children's DOM sinks, which [initChildren$] builds only when the DOM
    source name is a key of the sources; undefined otherwise.  Every child
    is taken to return a DOM sink, and the state source to have a stream;
    the order of the keys plays no part in what the view reads. *)
Definition children_DOM (sourceNames : list string) (DOM : string) (children : list string)
  : option (list (string * render_stream)) :=
  if existsb (String.eqb DOM) sourceNames
  then Some (fold_left (fun acc child => assoc_set child (ChildDOM child) acc) children [])
  else None.

(** [renderParams]: a copy of [children$[DOM]], then [state] and
    [renderParams[stateSourceName]] set to the state stream. *)
Definition renderParams (childrenDOM : option (list (string * render_stream)))
    (STATE : string) : list (string * render_stream) :=
  assoc_set STATE StateStream
    (assoc_set "state" StateStream
       (match childrenDOM with Some o => o | None => [] end)).

(** [pulled.names.reduce((acc, name, index) => { acc[name] = arr[index]; return acc }, {})] *)
Definition render_input (names : list string) (arr : list value) : props :=
  fold_left (fun acc kv => set (fst kv) (snd kv) acc) (combine names arr) [].

(** The object the view function is called with, for the latest state and
    the latest value of each child's DOM sink. *)
Definition view_input (sourceNames : list string) (DOM STATE : string)
    (children : list string) (state : value) (dom : string -> value) : props :=
  let pulled := renderParams (children_DOM sourceNames DOM children) STATE in
  render_input (map fst pulled)
    (map (fun p => match snd p with
                   | StateStream => state
                   | ChildDOM childName => dom childName
                   end) pulled).

(** ** [switchable.js] *)

Module Switchable.

(** [dropRepeats()] on names, compared with [===]; [last] is the name let
    through last. *)
Fixpoint dropRepeats (last : option string) (names : list string) : list string :=
  match names with
  | [] => []
  | n :: rest =>
      if match last with Some l => String.eqb l n | None => false end
      then dropRepeats last rest
      else n :: dropRepeats (Some n) rest
  end.

(** [withInitial$]: [name$.compose(dropRepeats()).startWith(initial).remember()] *)
Definition withInitial (initial : string) (names : list string) : list string :=
  initial :: dropRepeats None names.

(** No two neighbours are equal. *)
Fixpoint no_repeat (names : list string) : bool :=
  match names with
  | n :: ((n' :: _) as rest) => negb (String.eqb n n') && no_repeat rest
  | _ => true
  end.

(** [if (typeof switched === 'string') switched = [switched]] *)
Inductive switched_param : Type :=
| SwitchedName (sink : string)
| SwitchedList (sinks : list string).

Definition switched_list (p : switched_param) : list string :=
  match p with
  | SwitchedName sink => [sink]
  | SwitchedList sinks => sinks
  end.

(** A source handed to a factory: one of the sources given to the switchable,
    or the state source built on the component's narrowed state stream. *)
Inductive factory_source : Type :=
| Original (sourceName : string)
| Narrowed (component : string).

(** The sources a factory is called with: [{ ...sources, state }] when
    [sources[stateSourceName]] is there, [sources] otherwise. *)
Definition factory_sources (sourceNames : list string) (stateSourceName : string)
    (component : string) : list (string * factory_source) :=
  let given := map (fun n => (n, Original n)) sourceNames in
  if existsb (String.eqb stateSourceName) sourceNames
  then assoc_set "state" (Narrowed component) given
  else given.

(** What happens around a switchable, in order: [name$] emits, the state
    source's stream emits, a component emits on one of its sinks. *)
Inductive occurrence : Type :=
| Named (n : string)
| Stated (s : value)
| Emitted (component sink : string) (v : value).

(** What the streams derived from [withInitial$] and the state stream hold:
    the name [dropRepeats] let through last, the current name, the latest
    state, and the latest value of each component on the sink followed. *)
Record held : Type := mkHeld {
  last_name : option string;
  current   : string;
  state     : option value;
  latest    : list (string * value)
}.

Definition hold (initial : string) : held := mkHeld None initial None [].

Definition repeats (h : held) (n : string) : bool :=
  match last_name h with Some l => String.eqb l n | None => false end.

(** The stream handed to the state source of [component]:
    [xs.combine(name$, state$).filter(([n, _]) => n == name).map(([_, state]) => state)]. *)
Fixpoint narrowed_state (component : string) (h : held) (timeline : list occurrence)
  : list value :=
  match timeline with
  | [] => []
  | Named n :: rest =>
      if repeats h n then narrowed_state component h rest
      else
        (if String.eqb n component
         then match state h with Some s => [s] | None => [] end
         else [])
          ++ narrowed_state component (mkHeld (Some n) n (state h) (latest h)) rest
  | Stated s :: rest =>
      (if String.eqb (current h) component then [s] else [])
        ++ narrowed_state component (mkHeld (last_name h) (current h) (Some s) (latest h)) rest
  | Emitted _ _ _ :: rest => narrowed_state component h rest
  end.

(** The names and the states of a timeline, in order. *)
Definition names_of (timeline : list occurrence) : list string :=
  flat_map (fun o => match o with Named n => [n] | _ => [] end) timeline.

Definition states_of (timeline : list occurrence) : list value :=
  flat_map (fun o => match o with Stated s => [s] | _ => [] end) timeline.

(** The components of a switchable: for each name, the sinks its factory
    returned, each with whether it hands its latest value to a new listener
    (a remembered stream). *)
Definition components := list (string * list (string * bool)).

Definition sink_of (cs : components) (component sink : string) : option bool :=
  match assoc_get component cs with
  | Some sinks => assoc_get sink sinks
  | None => None
  end.

(** What [flatten] relays when it moves to the sink of component [n]: the
    latest value of that sink if it is a remembered stream. *)
Definition replayed (cs : components) (sink : string) (h : held) (n : string) : list value :=
  match sink_of cs n sink with
  | Some true => match assoc_get n (latest h) with Some v => [v] | None => [] end
  | _ => []
  end.

(** After the initial value [''], a sink named in [switched]:
    [name$.map(n => (sink of n) || xs.never()).flatten()]. *)
Fixpoint switched_events (cs : components) (sink : string) (h : held)
    (timeline : list occurrence) : list value :=
  match timeline with
  | [] => []
  | Named n :: rest =>
      if repeats h n then switched_events cs sink h rest
      else replayed cs sink h n
             ++ switched_events cs sink (mkHeld (Some n) n (state h) (latest h)) rest
  | Stated s :: rest =>
      switched_events cs sink (mkHeld (last_name h) (current h) (Some s) (latest h)) rest
  | Emitted component sink' v :: rest =>
      if String.eqb sink' sink && match sink_of cs component sink with Some _ => true | None => false end
      then (if String.eqb component (current h) then [v] else [])
             ++ switched_events cs sink
                  (mkHeld (last_name h) (current h) (state h)
                          (assoc_set component v (latest h))) rest
      else switched_events cs sink h rest
  end.

(** A sink not named in [switched]: [xs.merge(...definedSinks)]. *)
Fixpoint merged_events (cs : components) (sink : string) (timeline : list occurrence)
  : list value :=
  match timeline with
  | [] => []
  | Emitted component sink' v :: rest =>
      if String.eqb sink' sink && match sink_of cs component sink with Some _ => true | None => false end
      then v :: merged_events cs sink rest
      else merged_events cs sink rest
  | _ :: rest => merged_events cs sink rest
  end.

(** The sinks of [_switchable]: one for every key of the sources. *)
Definition switchable_sink (cs : components) (switched : switched_param)
    (initial : string) (sink : string) (timeline : list occurrence) : list value :=
  if existsb (String.eqb sink) (switched_list switched)
  then VStr "" :: switched_events cs sink (hold initial) timeline
  else merged_events cs sink timeline.

Definition switchable (cs : components) (sourceNames : list string)
    (switched : switched_param) (initial : string) (timeline : list occurrence)
  : list (string * list value) :=
  map (fun sink => (sink, switchable_sink cs switched initial sink timeline)) sourceNames.

End Switchable.

Module MoreSwitchable.

Import Switchable.

(** Two pages: [home] has a remembered DOM sink and a plain LOG sink, [about]
    a remembered DOM sink only. *)
Definition pages : components :=
  [("home", [("DOM", true); ("LOG", false)]); ("about", [("DOM", true)])].

(** [about] renders while [home] is shown, then the name changes to [about]. *)
Definition visit_about : list occurrence :=
  [Emitted "home" "DOM" (VStr "<home>"); Emitted "about" "DOM" (VStr "<about>");
   Emitted "about" "LOG" (VStr "ignored"); Emitted "home" "LOG" (VStr "seen");
   Stated (VObj [("n", VNum 1)]); Named "about"; Stated (VObj [("n", VNum 2)])].

End MoreSwitchable.

(** A request event that the mapping function of a route takes: it is
    truthy, has a truthy id, and its [get], if it has one, is a function. *)
Definition request_taken (rq : value) : bool :=
  truthy rq && truthy (get rq "id")
  && negb (truthy (get rq "get") && negb (String.eqb (typeof (get rq "get")) "function")).

(** The reducers that an action puts in the queue of the state driver. *)
Definition state_reducers_for (c : Component) (a : action)
  : list (string * action * reducer_fn) :=
  flat_map (fun r => match reg_reducer r with
                     | RFun f => [(reg_action r, a, f)]
                     | RVal _ => []
                     end)
           (filter (fun r => matches (reg_action r) a)
                   (sink_streams (stateSourceName c) (model_s c))).

(** ** The action stream: [initAction$] *)

Definition is_wrapped (j : task) : bool :=
  match j with
  | Wrapped _ => true
  | _ => false
  end.

(** The actions that have come out of [wrapped$], past [delay(10)], in order. *)
Definition wrapped_actions (tr : list entry) : list action :=
  flat_map (fun e => match e with
                     | Fired _ (Wrapped a) => [a]
                     | _ => []
                     end) tr.

(** [{ type: BOOTSTRAP_ACTION }] *)
Definition bootstrap_action : action := plain_action BOOTSTRAP_ACTION VUndefined.

(** [L'] comes from [L] within one turn of the event loop, with more timers
    set after the pending ones, none of them for [wrapped$], and a longer
    trace in which nothing comes out of [wrapped$]. *)
Definition grows_unwrapped (L L' : loop) : Prop :=
  now L' = now L
  /\ (next_timer L <= next_timer L')%nat
  /\ (exists more,
        timers L' = (timers L ++ more)%list
        /\ Forall (fun t => is_wrapped (job t) = false
                            /\ (next_timer L <= timer_id t)%nat) more)
  /\ exists new, trace L' = (trace L ++ new)%list /\ wrapped_actions new = [].

(** Where a run stands with respect to [wrapped$]: the timer of the
    BOOTSTRAP action is the oldest pending one, and every other timer of
    [wrapped$] is due at 10 or later; or the BOOTSTRAP action was the first
    to come out, at 10 or later. *)
Inductive bootstrap_phase (L : loop) : Prop :=
| BootstrapDue (l2 : list timer) :
    timers L = mkTimer 0 10 (Wrapped bootstrap_action) :: l2 ->
    Forall (fun t => (0 < timer_id t)%nat
                     /\ (is_wrapped (job t) = true -> (10 <= due t)%nat)) l2 ->
    (0 < next_timer L)%nat ->
    wrapped_actions (trace L) = [] ->
    bootstrap_phase L
| BootstrapOut :
    hd_error (wrapped_actions (trace L)) = Some bootstrap_action ->
    (10 <= now L)%nat ->
    bootstrap_phase L.

(** ** Properties of the value operators *)

Section Props.

Lemma lookup_set_same (k : string) (x : value) (o : props) :
  lookup k (set k x o) = Some x.
Proof.
  induction o as [|[k' y] o IH]; simpl.
  - now rewrite String.eqb_refl.
  - destruct (String.eqb k k') eqn:E; simpl; rewrite E; auto.
Qed.

Lemma lookup_set_other (k k' : string) (x : value) (o : props) :
  k <> k' -> lookup k' (set k x o) = lookup k' o.
Proof.
  intros Hne; induction o as [|[k0 y] o IH]; simpl.
  - destruct (String.eqb k' k) eqn:E; auto.
    apply String.eqb_eq in E; congruence.
  - destruct (String.eqb k k0) eqn:E; simpl.
    + apply String.eqb_eq in E; subst k0.
      destruct (String.eqb k' k) eqn:E'; auto.
      apply String.eqb_eq in E'; congruence.
    + destruct (String.eqb k' k0); auto.
Qed.

Lemma set_fresh (k : string) (x : value) (o : props) :
  ~ In k (map fst o) -> set k x o = (o ++ [(k, x)])%list.
Proof.
  induction o as [|[k' y] o IH]; simpl; intros Hn; auto.
  destruct (String.eqb k k') eqn:E.
  - apply String.eqb_eq in E; subst; tauto.
  - rewrite IH; auto.
Qed.

Lemma fold_set_nodup (l acc : props) :
  NoDup (map fst (acc ++ l)%list) ->
  fold_left (fun a kv => set (fst kv) (snd kv) a) l acc = (acc ++ l)%list.
Proof.
  revert acc; induction l as [|[k x] l IH]; intros acc Hnd; simpl.
  - now rewrite app_nil_r.
  - rewrite set_fresh.
    + rewrite IH; rewrite <- app_assoc; simpl; auto.
    + rewrite map_app in Hnd; simpl in Hnd.
      apply NoDup_remove_2 in Hnd.
      intros Hin; apply Hnd, in_or_app; now left.
Qed.

(** A shallow copy [{ ...o }] of a plain object has the properties of [o],
    in the same order. *)
Lemma spread_copy (o : props) :
  NoDup (map fst o) -> spread [] (VObj o) = o.
Proof. intros Hnd; unfold spread; simpl; now rewrite fold_set_nodup. Qed.

Lemma stamp_reqId (name : string) (a : action) (reduced : value) :
  get (stamp name a reduced) "_reqId" = request_id_of a.
Proof.
  unfold stamp, get.
  rewrite lookup_set_other by discriminate.
  now rewrite lookup_set_same.
Qed.

Lemma stamp_action (name : string) (a : action) (reduced : value) :
  get (stamp name a reduced) "_action" = VStr name.
Proof. unfold stamp, get; now rewrite lookup_set_same. Qed.

End Props.

(** ** The ABORT sentinel *)

(** C8, as stated, fails: the plain string ["~~ABORT~~"] compares equal to
    ABORT, so a reducer returning it as its new state leaves the state as it
    was. *)
Lemma ABORT_is_a_plain_string :
  ~ (forall v : value,
        v = VNull \/ (exists s, v = VStr s) -> loose_eq_ABORT v = false)
  /\ snd (state_reducer "SET" (fun _ data _ => ([], data))
            (plain_action "SET" (VStr "~~ABORT~~")) (VStr "old")) = VStr "old".
Proof.
  split; [|reflexivity].
  intros H. specialize (H (VStr "~~ABORT~~")).
  discriminate H. right; eexists; reflexivity.
Qed.

(** C8 (amended): null and every plain string other than ["~~ABORT~~"] do not
    compare equal to ABORT, and a state reducer returning such a value has it
    taken as the new state. *)
Theorem ABORT_distinct_from_other_strings_and_null :
  forall v : value,
    v = VNull \/ (exists s, v = VStr s /\ s <> ABORT) ->
    loose_eq_ABORT v = false
    /\ forall name f a state,
         snd (f state (action_data a) (req a)) = v ->
         snd (state_reducer name f a state) = v.
Proof.
  intros v Hv.
  assert (Hne : loose_eq_ABORT v = false).
  { destruct Hv as [-> | (s & -> & Hs)]; simpl; auto.
    now apply String.eqb_neq. }
  split; auto.
  intros name f a state Hf. unfold state_reducer; simpl.
  now rewrite Hf, Hne.
Qed.

Lemma ABORT_distinct_from_other_strings_and_null_witness :
  (VStr "abort" = VNull \/ (exists s, VStr "abort" = VStr s /\ s <> ABORT))
  /\ loose_eq_ABORT (VStr "abort") = false.
Proof.
  assert (H : VStr "abort" = VNull \/ (exists s, VStr "abort" = VStr s /\ s <> ABORT)).
  { right; exists "abort"; split; [reflexivity | discriminate]. }
  split; [exact H|].
  exact (proj1 (ABORT_distinct_from_other_strings_and_null (VStr "abort") H)).
Defined.

(** ** State reducers and the state sequence *)

Lemma drive_reducers_app (pre : list (value -> list action * value))
    (rest : list outcome) (s0 : value) :
  drive s0 (map EmitReducer pre ++ rest)
  = (drive s0 (map EmitReducer pre) ++ drive (state_after s0 pre) rest)%list.
Proof.
  revert s0; induction pre as [|r pre IH]; intros s0; simpl; auto.
  now rewrite IH.
Qed.

Lemma state_after_snoc (pre : list (value -> list action * value))
    (r : value -> list action * value) (s0 : value) :
  state_after s0 (pre ++ [r]) = snd (r (state_after s0 pre)).
Proof. unfold state_after; now rewrite fold_left_app. Qed.

(** A wrapped state reducer never hands the sentinel on as the new state. *)
Lemma state_reducer_not_ABORT (name : string) (f : reducer_fn) (a : action) (s : value) :
  loose_eq_ABORT s = false ->
  loose_eq_ABORT (snd (state_reducer name f a s)) = false.
Proof.
  intros Hs; unfold state_reducer; simpl.
  destruct (loose_eq_ABORT (snd (f s (action_data a) (req a)))) eqn:E; auto.
Qed.

(** Every function emitted on the state sink is a wrapper built by
    [makeOnAction]. *)
Lemma deliver_state_wrapped (streams : list registration) (cs : value) (a : action)
    (r : value -> list action * value) :
  In (EmitReducer r) (map result (deliver true streams cs a)) ->
  exists name f, r = state_reducer name f a.
Proof.
  unfold deliver; rewrite map_map; intros Hin.
  apply in_map_iff in Hin as (reg & Hr & _).
  unfold on_action in Hr.
  destruct (reg_reducer reg) as [f|v].
  - simpl in Hr; injection Hr as <-; eauto.
  - destruct v as [| |[|]| | | | | |]; discriminate.
Qed.

Lemma state_sink_wrapped (st : string) (regs : list registration) (init : value)
    (bus : list action) (r : value -> list action * value) :
  In (EmitReducer r) (state_sink st regs init bus) ->
  exists name f a, r = state_reducer name f a.
Proof.
  unfold state_sink; intros Hin.
  apply in_flat_map in Hin as (a & _ & Hin).
  apply deliver_state_wrapped in Hin as (name & f & ->); eauto.
Qed.

Lemma drive_never_ABORT (es : list outcome) :
  (forall r, In (EmitReducer r) es -> exists name f a, r = state_reducer name f a) ->
  forall s0, loose_eq_ABORT s0 = false ->
  Forall (fun s => loose_eq_ABORT s = false) (drive s0 es).
Proof.
  induction es as [|e es IH]; intros Hw s0 Hs0; simpl; [constructor|].
  destruct e as [v|r| |msg]; try constructor.
  - destruct (Hw r (or_introl eq_refl)) as (name & f & a & ->).
    now apply state_reducer_not_ABORT.
  - apply IH.
    + intros r' Hin; apply Hw; now right.
    + destruct (Hw r (or_introl eq_refl)) as (name & f & a & ->).
      now apply state_reducer_not_ABORT.
Qed.

(** C2: when the reducer of action X returns ABORT, the wrapper returns the
    state it was given, so the state handed to the next reducer is the state
    before X; the state sequence is the one obtained when X's reducer is
    replaced by the reducer that changes nothing, that is the sequence
    without X with the state before X repeated in X's place; and no state
    emitted from the state sink's reducers compares equal to ABORT. *)
Theorem ABORT_idempotence :
  (forall name f a (pre : list (value -> list action * value)) (post : list outcome) s0,
      let s := state_after s0 pre in
      let X := state_reducer name f a in
      snd (f s (action_data a) (req a)) = VStr ABORT ->
      snd (X s) = s
      /\ state_after s0 (pre ++ [X]) = s
      /\ drive s0 (map EmitReducer pre ++ EmitReducer X :: post)
         = (drive s0 (map EmitReducer pre) ++ s :: drive s post)%list
      /\ drive s0 (map EmitReducer pre ++ post)
         = (drive s0 (map EmitReducer pre) ++ drive s post)%list
      /\ drive s0 (map EmitReducer pre ++ EmitReducer X :: post)
         = drive s0 (map EmitReducer pre ++ EmitReducer (fun state => ([], state)) :: post))
  /\ (forall st regs init bus,
        Forall (fun s => loose_eq_ABORT s = false)
               (drive VUndefined (state_sink st regs init bus))).
Proof.
  split.
  - intros name f a pre post s0 s X Hab.
    assert (HX : snd (X s) = s).
    { unfold X, state_reducer; simpl. rewrite Hab; reflexivity. }
    repeat split.
    + exact HX.
    + rewrite state_after_snoc; exact HX.
    + rewrite drive_reducers_app.
      change (state_after s0 pre) with s.
      change (drive s (EmitReducer X :: post)) with (snd (X s) :: drive (snd (X s)) post).
      now rewrite HX.
    + now rewrite drive_reducers_app.
    + rewrite !drive_reducers_app.
      change (state_after s0 pre) with s.
      change (drive s (EmitReducer X :: post)) with (snd (X s) :: drive (snd (X s)) post).
      now rewrite HX.
  - intros st regs init bus.
    apply drive_never_ABORT; [|reflexivity].
    intros r; apply state_sink_wrapped.
Qed.

Lemma ABORT_idempotence_witness :
  snd (Examples.abort_reducer (state_after (VObj [("count", VNum 0)]) [])
         (action_data (plain_action "CANCEL" VNull)) VUndefined) = VStr ABORT
  /\ drive (VObj [("count", VNum 0)])
       (map EmitReducer []
          ++ EmitReducer (state_reducer "CANCEL" Examples.abort_reducer
                            (plain_action "CANCEL" VNull))
          :: [EmitReducer (state_reducer "INCREMENT" Examples.increment
                             (plain_action "INCREMENT" (VNum 1)))])
     = [VObj [("count", VNum 0)]; VObj [("count", VNum 1)]].
Proof.
  split; [reflexivity|].
  destruct (proj1 ABORT_idempotence "CANCEL" Examples.abort_reducer
              (plain_action "CANCEL" VNull) []
              [EmitReducer (state_reducer "INCREMENT" Examples.increment
                              (plain_action "INCREMENT" (VNum 1)))]
              (VObj [("count", VNum 0)]) eq_refl) as (_ & _ & H & _ & _).
  rewrite H; reflexivity.
Defined.

(** ** Return values of reducers on the other sinks *)

Lemma sink_streams_skip (st : string) (pre post : list registration) (r : registration) :
  reg_sink r <> st ->
  sink_streams st (pre ++ r :: post) = sink_streams st (pre ++ post).
Proof.
  intros Hne; unfold sink_streams.
  rewrite !filter_app; simpl.
  destruct (String.eqb (reg_sink r) st) eqn:E; auto.
  apply String.eqb_eq in E; contradiction.
Qed.

(** C5, as stated, fails: a reducer on a non-state sink that returns the
    string ["~~ABORT~~"] has nothing emitted, the value is held back by the
    filter that follows the mapping. *)
Lemma ABORT_string_not_emitted :
  typeof (snd (Examples.abort_reducer VUndefined VUndefined VUndefined)) = "string"
  /\ result (on_action false "SAVE" (RFun Examples.abort_reducer) (VObj [])
               Examples.save_r1)
     <> Emit (snd (Examples.abort_reducer (VObj []) (action_data Examples.save_r1)
                     (req Examples.save_r1))).
Proof. split; [reflexivity | discriminate]. Qed.

(** C5 (amended): on a non-state sink, a returned string other than the ABORT
    sentinel, number, boolean or function is emitted unchanged, and the
    string equal to ABORT is not emitted; a returned object is emitted
    stamped with the request id and the action name; undefined is emitted
    with one warning; a value of any other type makes the mapping throw; and
    the state sink is the same with or without that reducer's stream. *)
Theorem effect_return_policy :
  forall name f currentState a,
    let reduced := snd (f currentState (action_data a) (req a)) in
    let h := on_action false name (RFun f) currentState a in
    (In (typeof reduced) ["string"; "number"; "boolean"; "function"] ->
       (reduced <> VStr ABORT -> result h = Emit reduced /\ warnings h = [])
       /\ (reduced = VStr ABORT -> result h = Suppress))
    /\ (typeof reduced = "object" ->
          result h = Emit (stamp name a reduced) /\ warnings h = []
          /\ get (stamp name a reduced) "_reqId" = request_id_of a
          /\ get (stamp name a reduced) "_action" = VStr name)
    /\ (typeof reduced = "undefined" ->
          result h = Emit reduced
          /\ warnings h = ["'undefined' value sent to " ++ name])
    /\ (~ In (typeof reduced)
            ["string"; "number"; "boolean"; "function"; "object"; "undefined"] ->
          result h = Throw ("Invalid reducer type for " ++ name ++ " " ++ typeof reduced)
          /\ forall st sink pre post init bus,
               sink <> st ->
               state_sink st (pre ++ mkReg sink name (RFun f) :: post) init bus
               = state_sink st (pre ++ post) init bus).
Proof.
  intros name f cs a reduced h.
  unfold h, on_action, effect_map. fold reduced.
  destruct reduced as [| |b|n|n|s|d|l|o] eqn:E; simpl;
    repeat split; try (intros; exfalso; simpl in *; intuition congruence); intros.
  all: try reflexivity.
  all: try (apply stamp_reqId || apply stamp_action).
  all: try (unfold state_sink; rewrite sink_streams_skip by (simpl; assumption); reflexivity).
  - unfold filter_ABORT; simpl.
    destruct (String.eqb s ABORT) eqn:Es; auto.
    apply String.eqb_eq in Es; congruence.
  - injection H0 as ->. reflexivity.
Qed.

Lemma effect_return_policy_witness :
  typeof (snd (Examples.say_object (VObj []) (action_data Examples.save_r1)
                 (req Examples.save_r1))) = "object"
  /\ result (on_action false "SAVE" (RFun Examples.say_object) (VObj []) Examples.save_r1)
     = Emit (VObj [("command", VStr "save"); ("value", VNum 1);
                   ("_reqId", VStr "r1"); ("_action", VStr "SAVE")]).
Proof.
  split; [reflexivity|].
  destruct (effect_return_policy "SAVE" Examples.say_object (VObj []) Examples.save_r1)
    as (_ & Hobj & _).
  destruct (Hobj eq_refl) as (H & _).
  rewrite H; reflexivity.
Defined.

(** C10: a reducer on a non-state sink that returns null is classified as an
    object: the emitted value is the object holding only the request id and
    the action name, nothing is thrown and nothing is warned. *)
Theorem null_result_is_stamped :
  forall name f currentState a,
    snd (f currentState (action_data a) (req a)) = VNull ->
    let h := on_action false name (RFun f) currentState a in
    result h = Emit (VObj [("_reqId", request_id_of a); ("_action", VStr name)])
    /\ warnings h = []
    /\ scheduled h = map (next_action name a) (fst (f currentState (action_data a) (req a))).
Proof.
  intros name f cs a Hnull h.
  unfold h, on_action, effect_map.
  rewrite Hnull; simpl. repeat split.
Qed.

Lemma null_result_is_stamped_witness :
  snd (Examples.notify_null (VObj []) (action_data Examples.save_r1)
         (req Examples.save_r1)) = VNull
  /\ result (on_action false "SAVE" (RFun Examples.notify_null) (VObj []) Examples.save_r1)
     = Emit (VObj [("_reqId", VStr "r1"); ("_action", VStr "SAVE")]).
Proof.
  split; [reflexivity|].
  exact (proj1 (null_result_is_stamped "SAVE" Examples.notify_null (VObj [])
                  Examples.save_r1 eq_refl)).
Defined.

(** ** The first state *)

Lemma model_set_fresh (k : string) (e : model_entry) (m : model_map) :
  model_lookup k m = None -> model_set k e m = (m ++ [(k, e)])%list.
Proof.
  induction m as [|[k' e'] m IH]; simpl; auto.
  destruct (String.eqb k k'); [discriminate|].
  intros H; now rewrite IH.
Qed.

Lemma registrations_app (n st : string) (m1 m2 : model_map) (r1 r2 : list registration) :
  registrations n st m1 = Ok r1 ->
  registrations n st m2 = Ok r2 ->
  registrations n st (m1 ++ m2)%list = Ok (r1 ++ r2)%list.
Proof.
  revert r1; induction m1 as [|[k e] m1 IH]; simpl; intros r1 H1 H2.
  - injection H1 as <-; auto.
  - destruct (match e with
              | EntryFun f => Ok [(st, RFun f)]
              | EntrySinks sinks => Ok sinks
              | EntryOther VNull => _
              | EntryOther _ => _
              end) as [sinks|msg]; simpl in *; [|discriminate].
    destruct (registrations n st m1) as [more|msg]; simpl in *; [|discriminate].
    injection H1 as <-.
    rewrite (IH more eq_refl H2); simpl. now rewrite app_assoc.
Qed.

Lemma registrations_prefix (n st : string) (m1 m2 : model_map) (r : list registration) :
  registrations n st (m1 ++ m2)%list = Ok r ->
  exists r1, registrations n st m1 = Ok r1.
Proof.
  revert r; induction m1 as [|[k e] m1 IH]; simpl; intros r H; eauto.
  destruct (match e with
            | EntryFun f => Ok [(st, RFun f)]
            | EntrySinks sinks => Ok sinks
            | EntryOther VNull => _
            | EntryOther _ => _
            end) as [sinks|msg]; simpl in *; [|discriminate].
  destruct (registrations n st (m1 ++ m2)%list) as [more|msg] eqn:E; simpl in *; [|discriminate].
  destruct (IH more eq_refl) as (r1 & ->); simpl; eauto.
Qed.

(** The streams registered for a model filter on the model's own keys. *)
Lemma registrations_actions (n st k : string) (m : model_map) (regs : list registration) :
  model_lookup k m = None ->
  registrations n st m = Ok regs ->
  Forall (fun r => String.eqb k (reg_action r) = false) regs.
Proof.
  revert regs; induction m as [|[k' e] m IH]; simpl; intros regs Hk H.
  - injection H as <-; constructor.
  - destruct (String.eqb k k') eqn:Ek; [discriminate|].
    destruct (match e with
              | EntryFun f => Ok [(st, RFun f)]
              | EntrySinks sinks => Ok sinks
              | EntryOther VNull => _
              | EntryOther _ => _
              end) as [sinks|msg]; simpl in *; [|discriminate].
    destruct (registrations n st m) as [more|msg]; simpl in *; [|discriminate].
    injection H as <-.
    apply Forall_app; split; [|now apply IH].
    apply Forall_forall; intros r Hin.
    apply in_map_iff in Hin as (kv & <- & _); simpl; exact Ek.
Qed.

Lemma filter_none {A : Type} (p : A -> bool) (l : list A) :
  Forall (fun x => p x = false) l -> filter p l = [].
Proof.
  induction 1 as [|x l Hx _ IH]; simpl; auto. now rewrite Hx.
Qed.

(** C3, as stated, fails: with the falsy initial state [0] the state sink is
    not seeded at all; with the initial state [5] the first state is the
    empty object; and an initial state holding truthy [data] and [_reqId]
    properties is replaced by its [data] property. *)
Lemma initial_state_not_always_first :
  hd_error (drive VUndefined
              (state_sink "STATE" Examples.increment_regs (VNum 0) [])) = None
  /\ hd_error (drive VUndefined
                 (state_sink "STATE" Examples.increment_regs (VNum 5) []))
     = Some (VObj [])
  /\ hd_error (drive VUndefined
                 (state_sink "STATE" Examples.increment_regs
                    (VObj [("data", VObj [("count", VNum 1)]); ("_reqId", VStr "r1")]) []))
     = Some (VObj [("count", VNum 1)]).
Proof. repeat split. Qed.

(** C3 (amended): for an initial state S0 that is a plain object not holding
    both a truthy [data] and a truthy [_reqId] property, and a model with no
    INITIALIZE entry, the state sink starts with the reducer of the
    INITIALIZE pseudo-action, ahead of the reducers of the actions of the
    bus; that reducer dispatches nothing and returns a copy of S0 whatever
    the state before, so the first state value is S0.  With a falsy initial
    state the state sink holds the reducers of the bus only. *)
Theorem initial_state_first :
  forall name st (m m' : model_map) (warned : list string) (regs : list registration)
         (o : props) (bus : list action),
    model_lookup INITIALIZE_ACTION m = None ->
    initState st m = Ok (m', warned) ->
    registrations name st m' = Ok regs ->
    NoDup (map fst o) ->
    truthy (JS.and (get (VObj o) "data") (get (VObj o) "_reqId")) = false ->
    exists r0,
      state_sink st regs (VObj o) bus
      = EmitReducer r0 :: state_sink st regs VUndefined bus
      /\ (forall s, r0 s = ([], VObj o))
      /\ hd_error (drive VUndefined (state_sink st regs (VObj o) bus)) = Some (VObj o)
      /\ (forall falsy, truthy falsy = false ->
            state_sink st regs falsy bus = state_sink st regs VUndefined bus).
Proof.
  intros name st m m' warned regs o bus Hnone Hinit Hregs Hnd Hdata.
  unfold initState in Hinit; rewrite Hnone in Hinit.
  injection Hinit as <- <-.
  rewrite model_set_fresh in Hregs by assumption.
  destruct (registrations_prefix _ _ _ _ _ Hregs) as (r1 & Hr1).
  rewrite (registrations_app name st m
             [(INITIALIZE_ACTION, EntrySinks [(st, RFun default_initialize)])] r1
             [mkReg st INITIALIZE_ACTION (RFun default_initialize)] Hr1 eq_refl) in Hregs.
  injection Hregs as <-.
  pose proof (registrations_actions name st INITIALIZE_ACTION m r1 Hnone Hr1) as Hkeys.
  set (init := plain_action INITIALIZE_ACTION (VObj o)).
  assert (Hstreams :
    filter (fun r => matches (reg_action r) init)
      (sink_streams st (r1 ++ [mkReg st INITIALIZE_ACTION (RFun default_initialize)])%list)
    = [mkReg st INITIALIZE_ACTION (RFun default_initialize)]).
  { unfold sink_streams. rewrite filter_app, filter_app; simpl.
    rewrite String.eqb_refl; simpl.
    rewrite filter_none; [reflexivity|].
    apply Forall_forall; intros r Hin.
    apply filter_In in Hin as (Hin & _).
    rewrite Forall_forall in Hkeys. exact (Hkeys r Hin). }
  assert (Hdata' : action_data init = VObj o).
  { unfold action_data, init; simpl data.
    change (JS.and (VObj o) (get (VObj o) "data")) with (get (VObj o) "data").
    now rewrite Hdata. }
  exists (state_reducer INITIALIZE_ACTION default_initialize init).
  assert (Hcopy : forall s,
             state_reducer INITIALIZE_ACTION default_initialize init s = ([], VObj o)).
  { intros s; unfold state_reducer, default_initialize; simpl.
    rewrite Hdata'. now rewrite spread_copy. }
  assert (Hsink :
    state_sink st (r1 ++ [mkReg st INITIALIZE_ACTION (RFun default_initialize)])%list (VObj o) bus
    = EmitReducer (state_reducer INITIALIZE_ACTION default_initialize init)
      :: state_sink st (r1 ++ [mkReg st INITIALIZE_ACTION (RFun default_initialize)])%list
           VUndefined bus).
  { unfold state_sink, shimmed; simpl truthy; cbv iota.
    fold init. simpl flat_map. unfold deliver at 1. rewrite Hstreams. reflexivity. }
  split; [exact Hsink|]. split; [exact Hcopy|]. split.
  - rewrite Hsink.
    change (hd_error (drive VUndefined (EmitReducer ?r :: ?rest)))
      with (Some (snd (r VUndefined))).
    now rewrite Hcopy.
  - intros falsy Hfalsy. unfold state_sink, shimmed. now rewrite Hfalsy.
Qed.

Lemma initial_state_first_witness :
  model_lookup INITIALIZE_ACTION Examples.increment_model = None
  /\ hd_error (drive VUndefined
                 (state_sink "STATE" Examples.increment_regs (VObj [("count", VNum 0)])
                    [plain_action "INCREMENT" (VNum 1)]))
     = Some (VObj [("count", VNum 0)]).
Proof.
  split; [reflexivity|].
  destruct (initial_state_first "counter" "STATE" Examples.increment_model _ _
              Examples.increment_regs [("count", VNum 0)]
              [plain_action "INCREMENT" (VNum 1)]
              eq_refl eq_refl eq_refl) as (r0 & _ & _ & H & _).
  - repeat constructor; simpl; tauto.
  - reflexivity.
  - exact H.
Defined.

(** ** The request router *)

Lemma route_next_dead (routeString : string) (target : route_target) (srcs : source_map)
    (reqs : list (value * value)) (run : route_run) (msg : string) :
  status run = Errored msg ->
  fold_left (route_next routeString target srcs) reqs run = run.
Proof.
  intros Hdead; induction reqs as [|r reqs IH]; simpl; auto.
  unfold route_next at 2. rewrite Hdead. exact IH.
Qed.

(** C6, as stated, fails: a request without an id on a route makes the
    mapping function throw before its try block; nothing is written to
    console.error, the route's stream ends with the error, and the request
    with id ["r1"] that follows is not processed, although alone it is. *)
Lemma missing_id_ends_route_stream :
  let run := route_stream "[GET]:/x" (ToAction "SAVE") Examples.app_sources
               [(VObj [], Examples.request_anonymous); (VObj [], Examples.request_r1)] in
  console_error run = []
  /\ status run = Errored "No id found in request: [GET]:/x"
  /\ bus_sent run = []
  /\ bus_sent (route_stream "[GET]:/x" (ToAction "SAVE") Examples.app_sources
                 [(VObj [], Examples.request_r1)]) = [Examples.save_r1].
Proof. repeat split. Qed.

(** C6 (amended): for a request event that lacks an id, the mapping function
    of the route throws "No id found in request" without logging and without
    sending an action; a live route stream ends with that error, and the
    request events after it leave the actions sent, the console and the
    responses as they were before it. *)
Theorem missing_id_is_fatal :
  forall routeString target srcs currentState req,
    truthy req = false \/ truthy (get req "id") = false ->
    route_handler routeString target srcs currentState req
    = mkStep [] [] (Thrown ("No id found in request: " ++ routeString))
    /\ forall pre post,
         status (route_stream routeString target srcs pre) = Live ->
         route_stream routeString target srcs (pre ++ (currentState, req) :: post)
         = mkRun (bus_sent (route_stream routeString target srcs pre))
                 (console_error (route_stream routeString target srcs pre))
                 (responses (route_stream routeString target srcs pre))
                 (Errored ("No id found in request: " ++ routeString))
                 (flattened (route_stream routeString target srcs pre)).
Proof.
  intros routeString target srcs cs req Hid.
  assert (Hstep : route_handler routeString target srcs cs req
                  = mkStep [] [] (Thrown ("No id found in request: " ++ routeString))).
  { unfold route_handler. destruct Hid as [-> | ->]; simpl; auto.
    now rewrite orb_true_r. }
  split; [exact Hstep|].
  intros pre post Hlive.
  unfold route_stream in *. rewrite fold_left_app; simpl.
  set (run := fold_left (route_next routeString target srcs) pre route_start) in *.
  assert (Hnext : route_next routeString target srcs run (cs, req)
                  = mkRun (bus_sent run) (console_error run) (responses run)
                          (Errored ("No id found in request: " ++ routeString))
                          (flattened run)).
  { unfold route_next. rewrite Hlive. simpl fst; simpl snd. rewrite Hstep; simpl.
    now rewrite !app_nil_r. }
  rewrite Hnext. eapply route_next_dead; simpl; reflexivity.
Qed.

Lemma missing_id_is_fatal_witness :
  (truthy Examples.request_anonymous = false
   \/ truthy (get Examples.request_anonymous "id") = false)
  /\ route_handler "[GET]:/x" (ToAction "SAVE") Examples.app_sources (VObj [])
       Examples.request_anonymous
     = mkStep [] [] (Thrown "No id found in request: [GET]:/x").
Proof.
  assert (H : truthy Examples.request_anonymous = false
              \/ truthy (get Examples.request_anonymous "id") = false)
    by (right; reflexivity).
  split; [exact H|].
  exact (proj1 (missing_id_is_fatal "[GET]:/x" (ToAction "SAVE") Examples.app_sources
                  (VObj []) Examples.request_anonymous H)).
Defined.

(** ** The constructor *)

Lemma wire_routes_error (_method : string) (routes : list (string * route_entry))
    (msg : string) :
  wire_routes _method routes = Err msg -> first_char msg <> Some "C"%char.
Proof.
  induction routes as [|[route entry] routes IH]; simpl; [discriminate|].
  destruct entry as [target| |v]; simpl.
  - destruct (wire_routes _method routes); simpl; [discriminate|].
    intros [= <-]; now apply IH.
  - intros [= <-]; discriminate.
  - intros [= <-]; discriminate.
Qed.

Lemma wire_methods_error (router : option source)
    (methods : list (string * list (string * route_entry))) (msg : string) :
  wire_methods router methods = Err msg -> first_char msg <> Some "C"%char.
Proof.
  induction methods as [|[method routes] methods IH]; simpl; [discriminate|].
  destruct router as [r|]; [|intros [= <-]; discriminate].
  destruct (has_function r (toLowerCase method)); [|intros [= <-]; discriminate].
  destruct (wire_routes (toLowerCase method) routes) as [mapped|m] eqn:E; simpl.
  - destruct (wire_methods (Some r) methods); simpl; [discriminate|].
    intros [= <-]; now apply IH.
  - intros [= <-]; eapply wire_routes_error; eauto.
Qed.

(** C7: the code does not do what the claim says.  With a response function
    and no request parameter, [initResponse$] returns before it reaches its
    check, and the constructor builds the component, whether or not it is
    the first of the process; no configuration passes through the check's
    error at all. *)
Theorem response_without_request_constructs :
  (exists c, constructor Examples.response_only true = (Ok c, false)
             /\ response_s c = None
             /\ sendResponse_s c = [("send", OwnStream)])
  /\ (exists c, constructor Examples.response_only false = (Ok c, false)
                /\ response_s c = None)
  /\ (forall request response router,
        initResponse request response router
        <> Err "Cannot have a response parameter without a request parameter")
  /\ (forall response router, initResponse RequestUndefined response router = Ok None).
Proof.
  split; [eexists; split; [reflexivity|split; reflexivity]|].
  split; [eexists; split; reflexivity|].
  split; [|reflexivity].
  intros request response router.
  destruct request as [|methods|v]; simpl.
  - discriminate.
  - destruct (wire_methods router methods) as [wrapped|msg] eqn:E; simpl.
    + rewrite andb_false_r; discriminate.
    + intros [= ->]. now apply wire_methods_error in E.
  - destruct (String.eqb (typeof v) "object"); discriminate.
Qed.

Lemma constructor_flag_stays_false (o : Opts.t) :
  snd (constructor o false) = false.
Proof. unfold constructor; destruct (Opts.sources o); reflexivity. Qed.

Lemma constructor_clears_flag (o : Opts.t) (flag : bool) :
  Opts.sources o <> None -> snd (constructor o flag) = false.
Proof. unfold constructor; destruct (Opts.sources o); [reflexivity|congruence]. Qed.

(** Constructed when the flag is false, a component without intent and model
    gets none. *)
Lemma no_defaults_without_flag (o : Opts.t) (c : Component) :
  fst (constructor o false) = Ok c ->
  intent_undefined (Opts.intent o) = true ->
  Opts.model o = None ->
  intent c = IntentValue VUndefined /\ model c = None /\ model_s c = []
  /\ action_s c = ActionNever /\ initialState c = Opts.initialState o.
Proof.
  unfold constructor. destruct (Opts.sources o) as [srcs|]; [|discriminate].
  simpl fst. unfold root_defaults; simpl andb; cbv iota.
  intros Hc Hi Hm. unfold init in Hc. rewrite Hm in Hc.
  destruct (Opts.intent o) as [r|v]; [discriminate|].
  destruct v; try discriminate Hi. simpl in Hc.
  destruct (initResponse _ _ _); simpl in Hc; [|discriminate].
  destruct (initSendResponse _ _); simpl in Hc; [|discriminate].
  destruct (initChildren _); simpl in Hc; [|discriminate].
  destruct (initSinks _ _ _ _); simpl in Hc; [|discriminate].
  injection Hc as <-; simpl. repeat split; auto.
Qed.

Lemma construct_all_later (os : list Opts.t) (o : Opts.t) (c : Component) :
  In (o, Ok c) (combine os (fst (construct_all os false))) ->
  fst (constructor o false) = Ok c.
Proof.
  induction os as [|o' os IH]; simpl; [intros []|].
  destruct (constructor o' false) as [c' flag] eqn:E.
  assert (Hflag : flag = false).
  { pose proof (constructor_flag_stays_false o') as H. rewrite E in H; exact H. }
  subst flag.
  destruct (construct_all os false) as [cs last] eqn:E'; simpl.
  intros [H|H].
  - injection H as -> ->. now rewrite E.
  - apply IH. simpl. exact H.
Qed.

(** C9: the constructor reads the process-wide flag and leaves it false once
    it is past its check of the sources.  The first component of the
    process, given neither intent nor model, takes the synthesized no-op
    intent and model and an initial state defaulted to true; every component
    constructed after one whose construction got that far, given neither
    intent nor model, has no intent and no model, no reducer stream, an
    action stream that is [xs.never()], and the initial state it was
    given. *)
Theorem only_first_component_is_root :
  forall (o1 : Opts.t) (os : list Opts.t) (flag : bool),
    Opts.sources o1 <> None ->
    snd (constructor o1 flag) = false
    /\ (intent_undefined (Opts.intent o1) = true -> Opts.model o1 = None ->
        root_defaults true o1
        = (JS.or (Opts.initialState o1) (VBool true), noop_intent, Some noop_model))
    /\ (forall o c,
          In (o, Ok c)
             (combine os (fst (construct_all os (snd (constructor o1 flag))))) ->
          intent_undefined (Opts.intent o) = true ->
          Opts.model o = None ->
          intent c = IntentValue VUndefined /\ model c = None /\ model_s c = []
          /\ action_s c = ActionNever /\ initialState c = Opts.initialState o)
    /\ snd (construct_all os (snd (constructor o1 flag))) = false.
Proof.
  intros o1 os flag Hsrc.
  rewrite (constructor_clears_flag o1 flag Hsrc).
  split; [reflexivity|]. split; [|split].
  - intros Hi Hm. unfold root_defaults. now rewrite Hi, Hm.
  - intros o c Hin Hi Hm.
    apply no_defaults_without_flag; auto. eapply construct_all_later; eauto.
  - clear. induction os as [|o os IH]; simpl; auto.
    destruct (constructor o false) as [c f] eqn:E.
    pose proof (constructor_flag_stays_false o) as H. rewrite E in H; simpl in H; subst f.
    destruct (construct_all os false) as [cs last]; simpl in *. exact IH.
Qed.

Lemma only_first_component_is_root_witness :
  Opts.sources Examples.bare <> None
  /\ (exists c1 c2,
        construct_all [Examples.bare; Examples.bare] true = ([Ok c1; Ok c2], false)
        /\ initialState c1 = VBool true /\ action_s c1 <> ActionNever
        /\ initialState c2 = VUndefined /\ model c2 = None /\ action_s c2 = ActionNever).
Proof.
  assert (H : Opts.sources Examples.bare <> None) by discriminate.
  split; [exact H|].
  pose proof (only_first_component_is_root Examples.bare [Examples.bare] true H)
    as (_ & _ & Hlater & _).
  eexists; eexists. split; [reflexivity|].
  specialize (Hlater Examples.bare _ (or_introl eq_refl) eq_refl eq_refl).
  destruct Hlater as (_ & Hm & _ & Ha & Hi).
  repeat split; try discriminate; assumption.
Defined.

(** ** Re-entrant dispatch and the event loop *)

Section Traces.

Variable c : Component.

















(** What a series of calls of [next] does to the loop. *)
Lemma fold_dispatch (l : list action) (L : loop) :
  fold_left dispatch l L
  = mkLoop (now L) (next_timer L + length l)
           (timers L ++ dispatch_timers (now L) (next_timer L) l)
           (pending L) (cached L) (stopped L) (closed L)
           (trace L ++ dispatch_entries (next_timer L) l).
Proof.
  revert L; induction l as [|a l IH]; intros L; simpl.
  - rewrite Nat.add_0_r, !app_nil_r. now destruct L.
  - rewrite IH; unfold dispatch, set_timeout, log; simpl.
    rewrite <- !app_assoc; simpl. f_equal. lia.
Qed.

(** The mapping of a stream that has not stopped: the call, the dispatches
    and the return. *)
Lemma invoke_effect_runs (L : loop) (r : registration) (a : action) :
  stream_stopped (reg_sink r) (reg_action r) L = false ->
  let h := on_action false (reg_action r) (reg_reducer r) (cached L) a in
  invoke_effect L r a
  = mkLoop (now L) (next_timer L + length (scheduled h))
           (timers L ++ dispatch_timers (now L) (next_timer L) (scheduled h))
           (pending L) (cached L)
           (match result h with
            | Throw _ => (reg_sink r, reg_action r) :: stopped L
            | _ => stopped L
            end)
           (closed L)
           (trace L ++ Called (reg_sink r) (reg_action r) a
              :: dispatch_entries (next_timer L) (scheduled h)
              ++ [Returned (reg_sink r) (reg_action r) a (result h)]).
Proof.
  intros Hlive h. unfold invoke_effect. rewrite Hlive. fold h.
  rewrite fold_dispatch. unfold log, stop_stream; simpl.
  destruct (result h) as [v| | |msg]; simpl;
    rewrite <- ?app_assoc; simpl; rewrite <- ?app_assoc; reflexivity.
Qed.

(** The call of a state reducer by the state driver. *)
Lemma reduce_runs (L : loop) (s : value) (name : string) (a : action) (f : reducer_fn)
    (rest : list (string * action * reducer_fn)) :
  pending L = (name, a, f) :: rest ->
  relays c (stateSourceName c) = true ->
  let r := state_reducer name f a s in
  step c L (Reduce s)
  = mkLoop (now L) (next_timer L + length (fst r))
           (timers L ++ dispatch_timers (now L) (next_timer L) (fst r))
           rest
           (match state_entries c (snd r) with [] => cached L | _ => snd r end)
           (stopped L) (closed L)
           (trace L ++ Called (stateSourceName c) name a
              :: dispatch_entries (next_timer L) (fst r)
              ++ Returned (stateSourceName c) name a (Emit (snd r))
              :: state_entries c (snd r)).
Proof.
  intros Hp Hrel r. unfold step. rewrite Hp, Hrel. cbv zeta. fold r.
  clearbody r. destruct r as [l v]. simpl fst; simpl snd.
  rewrite fold_dispatch. unfold store, state_entries, log.
  destruct v; destruct (currentState c); simpl;
    rewrite <- ?app_assoc; simpl; rewrite <- ?app_assoc; reflexivity.
Qed.

End Traces.

Section Loop.

Variable c : Component.










Lemma earliest_in (ts : list timer) (t : timer) :
  earliest ts = Some t -> In t ts.
Proof.
  revert t; induction ts as [|t0 ts IH]; intros t; simpl; [discriminate|].
  destruct (earliest ts) as [t'|].
  - destruct (due t' <? due t0)%nat; intros [= <-]; auto.
  - intros [= <-]; auto.
Qed.

Lemma remove_timer_in (id : nat) (ts : list timer) (t : timer) :
  In t (remove_timer id ts) -> In t ts.
Proof.
  induction ts as [|t0 ts IH]; simpl; auto.
  destruct (Nat.eqb (timer_id t0) id); simpl; intuition.
Qed.





End Loop.

(** ** Request and response correlation *)

Section Provenance.

Variable c : Component.

Lemma from_request_more (inputs more : list input) (a : action) :
  from_request inputs a -> from_request (inputs ++ more) a.
Proof.
  intros [H|(r & rq & n & Hin & ->)]; [now left|].
  right. exists r, rq, n. split; [apply in_or_app; now left|reflexivity].
Qed.

Lemma ids_traced_more (inputs more : list input) (L : loop) :
  ids_traced inputs L -> ids_traced (inputs ++ more) L.
Proof.
  intros (H1 & H2 & H3). split; [|split].
  - intros t Hin. apply from_request_more; auto.
  - intros n a f Hin. eapply from_request_more; eauto.
  - intros sink name a Hin. eapply from_request_more; eauto.
Qed.

Lemma plain_action_no_id (inputs : list input) (t : string) (d : value) :
  from_request inputs (plain_action t d).
Proof. left; reflexivity. Qed.

Lemma next_action_no_id (name : string) (a : action) (d : dispatch_call) :
  request_id_of (next_action name a d) = VUndefined.
Proof. reflexivity. Qed.

Lemma dispatch_timers_no_id (inputs : list input) (name : string) (a : action)
    (l : list dispatch_call) (t0 n : nat) (t : timer) :
  In t (dispatch_timers t0 n (map (next_action name a) l)) ->
  from_request inputs (task_action (job t)).
Proof.
  revert n; induction l as [|d l IH]; intros n; simpl; [intros []|].
  intros [<-|Hin]; [left; reflexivity|eauto].
Qed.

Lemma dispatch_entries_not_called (n : nat) (l : list action) (sink name : string)
    (a : action) :
  ~ In (Called sink name a) (dispatch_entries n l).
Proof.
  revert n; induction l as [|a0 l IH]; intros n; simpl; [tauto|].
  intros [H|H]; [discriminate|]. eapply IH; eauto.
Qed.

(** The actions a mapping hands to [next] are made by [next]. *)
Lemma scheduled_by_next (name : string) (r : reducer) (cs : value) (a : action) :
  exists l, scheduled (on_action false name r cs a) = map (next_action name a) l.
Proof.
  unfold on_action. destruct r as [f|v].
  - unfold effect_map.
    destruct (existsb _ _); [eexists; reflexivity|].
    destruct (String.eqb _ "object"); [eexists; reflexivity|].
    destruct (String.eqb _ "undefined"); eexists; reflexivity.
  - exists []. destruct v as [| |[|]| | | | | |]; reflexivity.
Qed.

Lemma ids_invoke_effect (inputs : list input) (L : loop) (r : registration) (a : action) :
  ids_traced inputs L -> from_request inputs a ->
  ids_traced inputs (invoke_effect L r a).
Proof.
  intros (H1 & H2 & H3) Ha.
  destruct (stream_stopped (reg_sink r) (reg_action r) L) eqn:Hst.
  - unfold invoke_effect; rewrite Hst. split; [|split]; assumption.
  - rewrite (invoke_effect_runs L r a Hst).
    destruct (scheduled_by_next (reg_action r) (reg_reducer r) (cached L) a) as (l & Hl).
    split; [|split]; simpl.
    + intros t Hin. apply in_app_or in Hin as [Hin|Hin]; auto.
      rewrite Hl in Hin. eapply dispatch_timers_no_id; eauto.
    + exact H2.
    + intros sink name a0 Hin. apply in_app_or in Hin as [Hin|Hin]; eauto.
      destruct Hin as [Hin|Hin]; [injection Hin as _ _ <-; exact Ha|].
      exfalso. apply in_app_or in Hin as [Hin|[Hin|[]]].
      * eapply dispatch_entries_not_called; eauto.
      * discriminate.
Qed.

Lemma ids_fold_invoke (inputs : list input) (regs : list registration) (a : action)
    (L : loop) :
  ids_traced inputs L -> from_request inputs a ->
  ids_traced inputs (fold_left (fun L r => invoke_effect L r a) regs L).
Proof.
  revert L; induction regs as [|r regs IH]; intros L HL Ha; simpl; auto.
  apply IH; auto. now apply ids_invoke_effect.
Qed.

Lemma ids_emit_state (inputs : list input) (a : action) (L : loop) :
  ids_traced inputs L -> from_request inputs a -> ids_traced inputs (emit_state c a L).
Proof.
  intros (H1 & H2 & H3) Ha. split; [|split]; simpl; auto.
  intros n a0 f Hin. apply in_app_or in Hin as [Hin|Hin]; eauto.
  apply in_flat_map in Hin as (r & _ & Hin).
  destruct (reg_reducer r); [|contradiction].
  destruct Hin as [Hin|[]]. injection Hin as _ <- _. exact Ha.
Qed.

Lemma ids_log (inputs : list input) (e : entry) (L : loop) :
  (forall sink name a, e = Called sink name a -> from_request inputs a) ->
  ids_traced inputs L -> ids_traced inputs (log e L).
Proof.
  intros He (H1 & H2 & H3). split; [|split]; simpl; auto.
  intros sink name a Hin. apply in_app_or in Hin as [Hin|[Hin|[]]]; eauto.
Qed.

Lemma ids_send (inputs : list input) (L : loop) (a : action) :
  ids_traced inputs L -> from_request inputs a -> ids_traced inputs (send c L a).
Proof.
  intros HL Ha. unfold send.
  assert (H2 : ids_traced inputs
                 (fold_left (fun L r => invoke_effect L r a)
                    (filter (fun r => matches (reg_action r) a) (effect_streams c))
                    (log (Delivered a) L))).
  { apply ids_fold_invoke; auto. apply ids_log; auto. discriminate. }
  destruct (model c); [|exact H2].
  destruct (truthy (initialState c)).
  - destruct H2 as (H1 & H2 & H3). split; [|split]; simpl; auto.
    intros t Hin. apply in_app_or in Hin as [Hin|[<-|[]]]; auto.
  - now apply ids_emit_state.
Qed.

Lemma ids_fold_send (inputs : list input) (l : list action) (L : loop) :
  ids_traced inputs L -> Forall (from_request inputs) l ->
  ids_traced inputs (fold_left (send c) l L).
Proof.
  intros HL Hall; revert L HL; induction Hall as [|a l Ha Hall IH]; intros L HL; simpl; auto.
  apply IH. now apply ids_send.
Qed.

(** The actions a route sends are the ones synthesized for its requests. *)
Lemma sent_by_route (routeString : string) (target : route_target) (srcs : source_map)
    (cs rq : value) (a : action) :
  In a (sent (route_handler routeString target srcs cs rq)) ->
  exists name, a = request_action name rq.
Proof.
  unfold route_handler.
  destruct (negb (truthy rq) || negb (truthy (get rq "id"))); [intros []|].
  destruct (truthy (get rq "get") && _); [intros []|].
  destruct target as [name|f].
  - intros [<-|[]]. now exists name.
  - destruct (f cs rq); intros [].
Qed.

Lemma ids_same (inputs : list input) (L L' : loop) :
  timers L' = timers L -> pending L' = pending L -> trace L' = trace L ->
  ids_traced inputs L -> ids_traced inputs L'.
Proof.
  intros Ht Hp Htr (H1 & H2 & H3). unfold ids_traced. rewrite Ht, Hp, Htr.
  split; [exact H1|split; [exact H2|exact H3]].
Qed.

Lemma ids_store (inputs : list input) (v : value) (L : loop) :
  ids_traced inputs L -> ids_traced inputs (store c v L).
Proof.
  intros HL. unfold store. destruct (currentState c); [|exact HL].
  apply ids_log; [discriminate|].
  eapply ids_same; [| | |exact HL]; reflexivity.
Qed.

Lemma ids_step (inputs : list input) (L : loop) (i : input) :
  intent_without_ids c [i] ->
  ids_traced inputs L -> ids_traced (inputs ++ [i]) (step c L i).
Proof.
  intros Hi HL.
  assert (HL' : ids_traced (inputs ++ [i]) L) by now apply ids_traced_more.
  destruct i as [routeString rq|routeString|a|d|v|s| |dt].
  - (* Request *)
    unfold step.
    destruct (response_s c) as [routes|]; auto.
    destruct (find_route routeString routes) as [target|]; auto.
    destruct (route_closed routeString L); auto.
    assert (H1 : ids_traced (inputs ++ [Request routeString rq])
                   (fold_left (send c)
                      (sent (route_handler routeString target (sources c) (cached L) rq)) L)).
    { apply ids_fold_send; auto. apply Forall_forall. intros a Ha.
      apply sent_by_route in Ha as (name & ->).
      right. exists routeString, rq, name. split; [|reflexivity].
      apply in_or_app; right; now left. }
    destruct (mapped_to _); exact H1.
  - unfold step. destruct (closed L); exact HL'.
  - (* Intent *)
    unfold step.
    destruct (action_s c) as [|[|names|v] hydrates] eqn:Ea; auto.
    + destruct HL' as (H1 & H2 & H3). split; [|split]; simpl; auto.
      intros t Hin. apply in_app_or in Hin as [Hin|[<-|[]]]; auto.
      left. eapply Hi; [exact Ea|now left].
    + destruct (existsb _ names); auto.
      destruct HL' as (H1 & H2 & H3). split; [|split]; simpl; auto.
      intros t Hin. apply in_app_or in Hin as [Hin|[<-|[]]]; auto.
      left; reflexivity.
  - (* Hydrate *)
    unfold step. destruct (action_s c) as [|runner [|]]; auto.
    apply ids_send; auto. left; reflexivity.
  - unfold step. now apply ids_store.
  - (* Reduce *)
    destruct (pending L) as [|[[name a] f] rest] eqn:Hp;
      [unfold step; rewrite Hp; exact HL'|].
    destruct (relays c (stateSourceName c)) eqn:Hrel;
      [|unfold step; rewrite Hp, Hrel; exact HL'].
    rewrite (reduce_runs c L s name a f rest Hp Hrel).
    set (r := state_reducer name f a s).
    assert (Hr : fst r = map (next_action name a) (fst (f s (action_data a) (req a))))
      by reflexivity.
    destruct HL' as (H1 & H2 & H3).
    assert (Ha : from_request (inputs ++ [Reduce s]) a).
    { apply (H2 name a f). rewrite Hp. now left. }
    split; [|split]; cbn [timers pending trace].
    + intros t Hin. apply in_app_or in Hin as [Hin|Hin]; auto.
      rewrite Hr in Hin. eapply dispatch_timers_no_id; eauto.
    + intros n a0 f0 Hin. apply (H2 n a0 f0). rewrite Hp. now right.
    + intros sink name0 a0 Hin. apply in_app_or in Hin as [Hin|Hin]; eauto.
      destruct Hin as [Hin|Hin]; [injection Hin as _ _ <-; exact Ha|].
      exfalso. apply in_app_or in Hin as [Hin|[Hin|Hin]].
      * eapply dispatch_entries_not_called; eauto.
      * discriminate.
      * unfold state_entries in Hin.
        destruct (snd r); destruct (currentState c); simpl in Hin;
          try contradiction; destruct Hin as [Hin|[]]; discriminate.
  - (* Timeout *)
    unfold step. destruct (earliest (timers L)) as [t|] eqn:Et; auto.
    apply earliest_in in Et.
    destruct HL' as (H1 & H2 & H3).
    assert (Ht : from_request (inputs ++ [Timeout]) (task_action (job t))) by auto.
    assert (HL1 : ids_traced (inputs ++ [Timeout])
                    (log (Fired (timer_id t) (job t))
                       (mkLoop (Nat.max (now L) (due t)) (next_timer L)
                          (remove_timer (timer_id t) (timers L))
                          (pending L) (cached L) (stopped L) (closed L) (trace L)))).
    { apply ids_log; [discriminate|]. split; [|split]; simpl; auto.
      intros t0 Hin. apply H1. eapply remove_timer_in; eauto. }
    destruct (job t) as [a|a|a]; simpl in Ht.
    + now apply ids_send.
    + now apply ids_send.
    + now apply ids_emit_state.
  - unfold step. eapply ids_same; [| | |exact HL']; reflexivity.
Qed.

Lemma ids_start : ids_traced [] (start c).
Proof.
  split; [|split]; simpl.
  - intros t Hin. apply in_app_or in Hin as [Hin|Hin].
    + destruct (action_s c); [contradiction|].
      destruct Hin as [<-|[]]. left; reflexivity.
    + destruct (model c); [|contradiction].
      destruct (truthy (initialState c)); [|contradiction].
      destruct Hin as [<-|[]]. left; reflexivity.
  - intros n a f [].
  - intros sink name a [].
Qed.

Lemma ids_run (inputs : list input) :
  intent_without_ids c inputs -> ids_traced inputs (run c inputs).
Proof.
  unfold run. induction inputs as [|i inputs IH] using rev_ind; intros Hi; simpl.
  - apply ids_start.
  - rewrite fold_left_app; simpl. apply ids_step.
    + intros h a Ha [H|[]]. eapply Hi; eauto. apply in_or_app; right; left; exact H.
    + apply IH. intros h a Ha Hin. eapply Hi; eauto. apply in_or_app; now left.
Qed.

End Provenance.

Section Correlation.

Variable srcs : source_map.

(** The contract of a source's [request(id)] selector: the stream it
    returns carries the events tagged with that id. *)
Hypothesis request_correlates :
  forall n s i ev,
    In (n, s) srcs -> has_function s REQUEST_SELECTOR_METHOD = true ->
    In ev (request_events s i) -> get ev "_reqId" = i.

Lemma selected_carry_id (i ev : value) :
  In ev (selected_responses srcs i) -> get ev "_reqId" = i.
Proof.
  unfold selected_responses; intros Hin.
  apply in_flat_map in Hin as ([n s] & Hs & Hin); simpl in Hin.
  destruct (has_function s REQUEST_SELECTOR_METHOD) eqn:E; [|contradiction].
  eapply request_correlates; eauto.
Qed.

Lemma handler_events_carry_id (routeString : string) (target : route_target)
    (cs req : value) (events : list value) (ev : value) :
  mapped_to (route_handler routeString target srcs cs req) = Inner events ->
  In ev events ->
  truthy (get req "id") = true /\ get ev "_reqId" = get req "id".
Proof.
  unfold route_handler.
  destruct (truthy req); simpl; [|discriminate].
  destruct (truthy (get req "id")) eqn:Eid; simpl; [|discriminate].
  destruct (truthy (get req "get") && _); simpl; [discriminate|].
  destruct target as [name|f].
  - simpl; intros [= <-] Hin. split; auto. now apply selected_carry_id.
  - destruct (f cs req) as [r|msg]; simpl; [|discriminate].
    intros [= <-] [<-|[]]. split; auto.
Qed.

Lemma route_stream_snoc (routeString : string) (target : route_target)
    (reqs : list (value * value)) (creq : value * value) :
  route_stream routeString target srcs (reqs ++ [creq])
  = route_next routeString target srcs (route_stream routeString target srcs reqs) creq.
Proof. unfold route_stream; now rewrite fold_left_app. Qed.

Lemma route_responses_from_requests (routeString : string) (target : route_target)
    (reqs : list (value * value)) (ev : value) :
  In ev (responses (route_stream routeString target srcs reqs)) ->
  exists creq, In creq reqs
               /\ truthy (get (snd creq) "id") = true
               /\ get ev "_reqId" = get (snd creq) "id".
Proof.
  induction reqs as [|creq reqs IH] using rev_ind; [intros []|].
  rewrite route_stream_snoc.
  set (run := route_stream routeString target srcs reqs) in *.
  assert (Hold : In ev (responses run) ->
                 exists c, In c (reqs ++ [creq]) /\ truthy (get (snd c) "id") = true
                           /\ get ev "_reqId" = get (snd c) "id").
  { intros Hin. destruct (IH Hin) as (c & Hc & H). exists c; split; auto.
    apply in_or_app; now left. }
  assert (Hnew : forall events,
             mapped_to (route_handler routeString target srcs (fst creq) (snd creq))
             = Inner events ->
             In ev (responses run ++ events) ->
             exists c, In c (reqs ++ [creq]) /\ truthy (get (snd c) "id") = true
                       /\ get ev "_reqId" = get (snd c) "id").
  { intros events E Hin. apply in_app_or in Hin as [Hin|Hin]; auto.
    exists creq. split; [apply in_or_app; right; now left|].
    eapply handler_events_carry_id; eauto. }
  unfold route_next.
  destruct (status run); auto;
    destruct (mapped_to (route_handler routeString target srcs (fst creq) (snd creq)))
      as [msg|events|] eqn:E; simpl; eauto.
Qed.

(** C1 (amended): for a request with id i routed to an action name, the one
    action sent into the bus is the one synthesized for the request and
    carries i; the events merged into the response stream for it are the
    ones the sources select by i, they carry i, and the response sent out
    for each of them is [{ _reqId: i, _action, command, data }]; an object
    that a reducer handling the action returns on a non-state sink is
    emitted stamped with i and the action's name, and a response made from
    it carries i.  Every event of a route's response stream carries the id
    of one of the requests handled on the route.  The stamp of an emission
    is the request id of the action handled, whatever the action is; and in
    every run in which the actions of an intent stream carry no request id,
    every action a reducer is called on has no request id or is the action
    synthesized for a request that has arrived. *)
Theorem request_response_correlation :
  forall routeString name currentState rq,
    truthy rq = true -> truthy (get rq "id") = true ->
    truthy (get rq "get") && negb (String.eqb (typeof (get rq "get")) "function") = false ->
    let i := get rq "id" in
    let step := route_handler routeString (ToAction name) srcs currentState rq in
    sent step = [request_action name rq]
    /\ request_id_of (request_action name rq) = i
    /\ mapped_to step = Inner (selected_responses srcs i)
    /\ (forall ev command,
          In ev (selected_responses srcs i) ->
          get ev "_reqId" = i
          /\ send_response command ev
             = Ok (VObj [("_reqId", i); ("_action", get ev "_action");
                         ("command", VStr command); ("data", get ev "data")]))
    /\ (forall sink_reducer state command,
          let reduced := snd (sink_reducer state (action_data (request_action name rq)) rq) in
          typeof reduced = "object" ->
          result (on_action false name (RFun sink_reducer) state (request_action name rq))
          = Emit (stamp name (request_action name rq) reduced)
          /\ get (stamp name (request_action name rq) reduced) "_reqId" = i
          /\ get (stamp name (request_action name rq) reduced) "_action" = VStr name
          /\ send_response command (stamp name (request_action name rq) reduced)
             = Ok (VObj [("_reqId", i); ("_action", VStr name); ("command", VStr command);
                         ("data", get (stamp name (request_action name rq) reduced) "data")]))
    /\ (forall target reqs ev,
          In ev (responses (route_stream routeString target srcs reqs)) ->
          exists creq, In creq reqs
                       /\ truthy (get (snd creq) "id") = true
                       /\ get ev "_reqId" = get (snd creq) "id")
    /\ (forall sink a reduced, get (stamp sink a reduced) "_reqId" = request_id_of a)
    /\ (forall (c : Component) (inputs : list input),
          intent_without_ids c inputs ->
          forall sink action_name a,
            In (Called sink action_name a) (trace (run c inputs)) ->
            from_request inputs a).
Proof.
  intros routeString name cs rq Hreq Hid Hget i step. subst i.
  assert (Hi : request_id_of (request_action name rq) = get rq "id").
  { unfold request_id_of, JS.or; simpl. now rewrite Hid. }
  assert (Hstep : step = mkStep [request_action name rq] [] (Inner (selected_responses srcs (get rq "id")))).
  { unfold step, route_handler. rewrite Hreq, Hid; simpl. now rewrite Hget. }
  split; [now rewrite Hstep|]. split; [exact Hi|]. split; [now rewrite Hstep|].
  split; [|split; [|split; [|split]]].
  - intros ev command Hin.
    pose proof (selected_carry_id _ ev Hin) as He. split; [exact He|].
    unfold send_response.
    destruct ev; try (now rewrite He, Hid); simpl in He;
      rewrite <- He in Hid; discriminate.
  - intros f state command reduced Hobj.
    split; [|split; [|split]].
    + unfold on_action, effect_map. fold reduced.
      change (req (request_action name rq)) with rq. fold reduced.
      destruct reduced; try discriminate Hobj; reflexivity.
    + now rewrite stamp_reqId.
    + apply stamp_action.
    + unfold send_response.
      assert (Hs : get (stamp name (request_action name rq) reduced) "_reqId" = get rq "id")
        by now rewrite stamp_reqId.
      assert (Ha : get (stamp name (request_action name rq) reduced) "_action" = VStr name)
        by apply stamp_action.
      unfold stamp in *. rewrite Hs, Ha. now rewrite Hid.
  - intros target reqs ev. apply route_responses_from_requests.
  - intros sink a reduced. apply stamp_reqId.
  - intros c inputs Hintent sink action_name a Hin.
    destruct (ids_run c inputs Hintent) as (_ & _ & H3). eauto.
Qed.

End Correlation.

(** C1, as stated, fails in its last part: an action of an intent stream
    that has a [_reqId] of its own is stamped on what its reducer emits,
    although no request has arrived, and the mapping of the outbound
    responses sends out any event that has a truthy [_reqId]. *)
Lemma forged_request_id_is_stamped :
  exists c,
    fst (constructor Examples.streamer false) = Ok c
    /\ let inputs := [Intent Examples.forged; Timeout; Timeout] in
       let emitted := VObj [("command", VStr "save"); ("value", VNum 1);
                            ("_reqId", VStr "forged"); ("_action", VStr "SAVE")] in
       (forall routeString rq, ~ In (Request routeString rq) inputs)
       /\ In (Returned "DB" "SAVE" Examples.forged (Emit emitted)) (trace (run c inputs))
       /\ send_response "send" emitted
          = Ok (VObj [("_reqId", VStr "forged"); ("_action", VStr "SAVE");
                      ("command", VStr "send"); ("data", VUndefined)]).
Proof.
  eexists. split; [reflexivity|]. cbv zeta. split; [|split].
  - intros routeString rq [H|[H|[H|[]]]]; discriminate.
  - vm_compute. tauto.
  - reflexivity.
Qed.

Lemma request_response_correlation_witness :
  truthy Examples.request_r1 = true
  /\ truthy (get Examples.request_r1 "id") = true
  /\ sent (route_handler "[GET]:/x" (ToAction "SAVE") Examples.app_sources (VObj [])
             Examples.request_r1) = [Examples.save_r1]
  /\ forall ev,
       In ev (selected_responses Examples.app_sources (VStr "r1")) ->
       get ev "_reqId" = VStr "r1".
Proof.
  assert (Hsrc : forall n s i ev,
             In (n, s) Examples.app_sources ->
             has_function s REQUEST_SELECTOR_METHOD = true ->
             In ev (request_events s i) -> get ev "_reqId" = i).
  { intros n s i ev [H|[H|[H|[]]]]; injection H as <- <-; simpl;
      try discriminate.
    intros _ [<-|[]]; reflexivity. }
  pose proof (request_response_correlation Examples.app_sources Hsrc
                "[GET]:/x" "SAVE" (VObj []) Examples.request_r1
                eq_refl eq_refl eq_refl) as (Hsent & _ & _ & Hev & _).
  split; [reflexivity|]. split; [reflexivity|]. split; [exact Hsent|].
  intros ev Hin. exact (proj1 (Hev ev "send" Hin)).
Defined.



(** ** Scenarios *)

(** The counter: from [{ count: 0 }], two INCREMENT actions with data 1 give
    the states [{ count: 0 }], [{ count: 1 }], [{ count: 2 }]. *)
Example counter_scenario :
  drive VUndefined
    (state_sink "STATE" Examples.increment_regs (VObj [("count", VNum 0)])
       [plain_action "INCREMENT" (VNum 1); plain_action "INCREMENT" (VNum 1)])
  = [VObj [("count", VNum 0)]; VObj [("count", VNum 1)]; VObj [("count", VNum 2)]].
Proof. reflexivity. Qed.

(** A function route: with the state [{ count: 5 }], the request ["r1"] on a
    route to [(state, req) => state.count] gives one response event, tagged
    FUNCTION, with the request's id and the data 5; no action is sent. *)
Example function_route_scenario :
  route_handler "[GET]:/x" (ToFunction Examples.read_count) Examples.app_sources
    (VObj [("count", VNum 5)]) Examples.request_r1
  = mkStep [] []
      (Inner [VObj [("type", VStr "FUNCTION"); ("data", VNum 5);
                    ("req", Examples.request_r1); ("_reqId", VStr "r1");
                    ("_action", VStr "FUNCTION")]]).
Proof. reflexivity. Qed.

(** A state reducer that dispatches: the reducer of PING calls [next] and
    returns [{ n: 1 }]; the state is stored in the turn of the call, and the
    dispatched PONG is delivered when its timer runs, after that. *)
Example state_dispatch_scenario :
  exists c,
    fst (constructor Examples.pinger false) = Ok c
    /\ skipn 10 (trace (run c Examples.ping_then_timers))
       = [Called "STATE" "PING" (plain_action "PING" (VNum 5));
          Dispatched 5 (plain_action "PONG" (VNum 5));
          Returned "STATE" "PING" (plain_action "PING" (VNum 5))
                   (Emit (VObj [("n", VNum 1)]));
          Stored (VObj [("n", VNum 1)]);
          Fired 5 (SendNext (plain_action "PONG" (VNum 5)));
          Delivered (plain_action "PONG" (VNum 5))]
    /\ cached (run c Examples.ping_then_timers) = VObj [("n", VNum 1)].
Proof. eexists. split; [reflexivity|]. split; reflexivity. Qed.

(** A reducer stream that throws stops alone: the DB reducer of SAVE returns
    a Symbol and its stream ends with the error on the first request; on
    the second request it is not called again. *)
Example stopped_stream_scenario :
  exists c,
    fst (constructor (Opts.mk "counter" (Some Examples.app_sources)
                        (IntentValue VUndefined)
                        (RequestObject [("GET", [("/x", Route (ToAction "SAVE"))])])
                        (Some Examples.counter_model) ResponseUndefined false []
                        VUndefined "DOM" "STATE" "HTTP") false) = Ok c
    /\ let L := run c [Request "[GET]:/x" Examples.request_r1;
                       Request "[GET]:/x" Examples.request_r1] in
       trace L
       = [Delivered Examples.save_r1;
          Called "DB" "SAVE" Examples.save_r1;
          Returned "DB" "SAVE" Examples.save_r1 (Throw "Invalid reducer type for SAVE symbol");
          Delivered Examples.save_r1]
       /\ stopped L = [("DB", "SAVE")] /\ closed L = [].
Proof. eexists. split; [reflexivity|]. cbv zeta. repeat split. Qed.

(** An action no stream filters in gives no emission on any sink. *)
Example unknown_action_scenario :
  state_sink "STATE" Examples.increment_regs VUndefined [plain_action "NOPE" (VObj [])] = []
  /\ effect_sink "DB" Examples.increment_regs [(VObj [], plain_action "NOPE" (VObj []))] = [].
Proof. split; reflexivity. Qed.

(** A malformed reducer: the DB reducer of SAVE returns a Symbol; its mapping
    throws for the SAVE action, and the state sink is what it is without
    that entry of the model. *)
Example malformed_reducer_scenario :
  (exists regs,
      registrations "counter" "STATE" Examples.counter_model = Ok regs
      /\ map result (effect_sink "DB" regs [(VObj [], Examples.save_r1)])
         = [Throw "Invalid reducer type for SAVE symbol"]
      /\ drive (VObj [("count", VNum 0)])
           (state_sink "STATE" regs VUndefined
              [Examples.save_r1; plain_action "INCREMENT" (VNum 1)])
         = [VObj [("count", VNum 1)]])
  /\ result (on_action false "SAVE" (RFun Examples.say_nothing) (VObj []) Examples.save_r1)
     = Emit VUndefined
  /\ warnings (on_action false "SAVE" (RFun Examples.say_nothing) (VObj []) Examples.save_r1)
     = ["'undefined' value sent to SAVE"]
  /\ result (on_action false "SAVE" (RFun Examples.say_sent) (VObj []) Examples.save_r1)
     = Emit (VStr "sent").
Proof. split; [eexists; split; [reflexivity|split; reflexivity]|repeat split]. Qed.

(** * Further properties of the code *)

(** ** Data handed from one reducer to the next through [next] *)

Lemma get_set_same (k : string) (x : value) (o : props) :
  get (VObj (set k x o)) k = x.
Proof. unfold get; now rewrite lookup_set_same. Qed.

Lemma get_set_other (k k' : string) (x : value) (o : props) :
  k <> k' -> get (VObj (set k x o)) k' = get (VObj o) k'.
Proof. intros H; unfold get; now rewrite lookup_set_other. Qed.

Lemma wrapper_data_read_back (name : string) (a : action) (t : string)
    (d : value) :
  truthy (request_id_of a) = true ->
  typeof d <> "object" ->
  data (next_action name a (t, d))
  = VObj [("data", d); ("_reqId", request_id_of a); ("_action", VStr name)].
Proof.
  intros Hid Hty. unfold next_action; simpl. rewrite Hid.
  destruct (String.eqb (typeof d) "object") eqn:E; [|reflexivity].
  apply String.eqb_eq in E; contradiction.
Qed.

(** X1: data that is not an object, dispatched by a reducer that handles an
    action with a request id, travels wrapped as [{ data, _reqId, _action }];
    the reducer of the dispatched action gets the data back when it is
    truthy, and gets the wrapper itself when the data is falsy (0, the empty
    string, false, undefined). *)
Theorem dispatched_data_round_trip :
  forall name a t d,
    truthy (request_id_of a) = true ->
    typeof d <> "object" ->
    let sent := next_action name a (t, d) in
    type sent = t
    /\ data sent = VObj [("data", d); ("_reqId", request_id_of a); ("_action", VStr name)]
    /\ (truthy d = true -> action_data sent = d)
    /\ (truthy d = false -> action_data sent = data sent).
Proof.
  intros name a t d Hid Hty sent.
  assert (Hdata : data sent
                  = VObj [("data", d); ("_reqId", request_id_of a); ("_action", VStr name)]).
  { unfold sent, next_action; simpl. rewrite Hid.
    destruct (String.eqb (typeof d) "object") eqn:E; [|reflexivity].
    apply String.eqb_eq in E; contradiction. }
  split; [reflexivity|]. split; [exact Hdata|].
  unfold action_data. rewrite Hdata. unfold JS.and; simpl.
  split; intros Hd; rewrite Hd; [now rewrite Hid | now rewrite Hd].
Qed.

Lemma dispatched_data_round_trip_witness :
  truthy (request_id_of Examples.save_r1) = true
  /\ typeof (VNum 0) <> "object"
  /\ action_data (next_action "SAVE" Examples.save_r1 ("LOG", VNum 5)) = VNum 5
  /\ action_data (next_action "SAVE" Examples.save_r1 ("LOG", VNum 0))
     = VObj [("data", VNum 0); ("_reqId", VStr "r1"); ("_action", VStr "SAVE")].
Proof.
  assert (Hid : truthy (request_id_of Examples.save_r1) = true) by reflexivity.
  assert (Hty : forall n, typeof (VNum n) <> "object") by (intros n; discriminate).
  split; [exact Hid|]. split; [exact (Hty 0%Z)|]. split.
  - exact (proj1 (proj2 (proj2 (dispatched_data_round_trip "SAVE" Examples.save_r1
                                  "LOG" (VNum 5) Hid (Hty 5%Z)))) eq_refl).
  - exact (proj2 (proj2 (proj2 (dispatched_data_round_trip "SAVE" Examples.save_r1
                                  "LOG" (VNum 0) Hid (Hty 0%Z)))) eq_refl).
Defined.

(** X2: an object dispatched by a reducer that handles an action with a
    request id travels with its own properties and the two stamps [_reqId]
    and [_action]; the reducer of the dispatched action gets that stamped
    object, unless the object has a truthy [data] property, in which case it
    gets that property alone. *)
Theorem dispatched_object_data :
  forall name a t o,
    truthy (request_id_of a) = true ->
    NoDup (map fst o) ->
    let sent := next_action name a (t, VObj o) in
    get (data sent) "_reqId" = request_id_of a
    /\ get (data sent) "_action" = VStr name
    /\ (forall k, k <> "_reqId" -> k <> "_action" -> get (data sent) k = get (VObj o) k)
    /\ (truthy (get (VObj o) "data") = false -> action_data sent = data sent)
    /\ (truthy (get (VObj o) "data") = true -> action_data sent = get (VObj o) "data").
Proof.
  intros name a t o Hid Hnd sent.
  assert (Hdata : data sent
                  = VObj (set "_action" (VStr name) (set "_reqId" (request_id_of a) o))).
  { unfold sent, next_action; simpl. rewrite Hid. now rewrite spread_copy. }
  assert (Hr : get (data sent) "_reqId" = request_id_of a).
  { rewrite Hdata, get_set_other by discriminate. apply get_set_same. }
  assert (Hk : forall k, k <> "_reqId" -> k <> "_action" ->
                         get (data sent) k = get (VObj o) k).
  { intros k H1 H2. rewrite Hdata, !get_set_other; auto. }
  split; [exact Hr|]. split; [rewrite Hdata; apply get_set_same|]. split; [exact Hk|].
  assert (Htruthy : truthy (data sent) = true) by (rewrite Hdata; reflexivity).
  unfold action_data, JS.and. rewrite Htruthy.
  rewrite (Hk "data") by discriminate.
  split; intros Hd; rewrite Hd.
  - now rewrite Hd.
  - now rewrite Hr, Hid.
Qed.

Lemma dispatched_object_data_witness :
  truthy (request_id_of Examples.save_r1) = true
  /\ NoDup (map fst [("data", VStr "payload"); ("sent", VBool true)])
  /\ action_data (next_action "SAVE" Examples.save_r1
                    ("LOG", VObj [("data", VStr "payload"); ("sent", VBool true)]))
     = VStr "payload".
Proof.
  assert (Hid : truthy (request_id_of Examples.save_r1) = true) by reflexivity.
  assert (Hnd : NoDup (map fst [("data", VStr "payload"); ("sent", VBool true)])).
  { repeat constructor; simpl; intuition discriminate. }
  split; [exact Hid|]. split; [exact Hnd|].
  exact (proj2 (proj2 (proj2 (proj2 (dispatched_object_data "SAVE" Examples.save_r1 "LOG"
                                       _ Hid Hnd)))) eq_refl).
Defined.

(** X3: the action that [next] sends has no request id of its own, whatever
    the action it was dispatched from: an object emitted on a non-state sink
    by a reducer that handles it is stamped with an undefined [_reqId], over
    any [_reqId] the reducer returned, and such an emission selected into a
    response makes the response mapping throw. *)
Theorem dispatched_action_loses_request_id :
  forall name a c sink reduced command,
    request_id_of (next_action name a c) = VUndefined
    /\ get (stamp sink (next_action name a c) reduced) "_reqId" = VUndefined
    /\ send_response command (stamp sink (next_action name a c) reduced)
       = Err ("No request id found for response for: " ++ command).
Proof.
  intros name a c sink reduced command.
  assert (H : get (stamp sink (next_action name a c) reduced) "_reqId" = VUndefined)
    by (rewrite stamp_reqId; reflexivity).
  split; [reflexivity|]. split; [exact H|].
  unfold send_response. now rewrite H.
Qed.

(** X4: the stamping of an object returned on a non-state sink keeps every
    other property of the object as it is, and replaces a [_reqId] or
    [_action] the reducer set itself. *)
Theorem stamp_keeps_other_fields :
  forall name a o,
    NoDup (map fst o) ->
    (forall k, k <> "_reqId" -> k <> "_action" ->
               get (stamp name a (VObj o)) k = get (VObj o) k)
    /\ get (stamp name a (VObj o)) "_reqId" = request_id_of a
    /\ get (stamp name a (VObj o)) "_action" = VStr name.
Proof.
  intros name a o Hnd. split; [|split; [apply stamp_reqId | apply stamp_action]].
  intros k H1 H2. unfold stamp. rewrite spread_copy by assumption.
  now rewrite !get_set_other by auto.
Qed.

Lemma stamp_keeps_other_fields_witness :
  NoDup (map fst [("command", VStr "save"); ("_reqId", VStr "mine")])
  /\ get (stamp "SAVE" Examples.save_r1
            (VObj [("command", VStr "save"); ("_reqId", VStr "mine")])) "command"
     = VStr "save"
  /\ get (stamp "SAVE" Examples.save_r1
            (VObj [("command", VStr "save"); ("_reqId", VStr "mine")])) "_reqId"
     = VStr "r1".
Proof.
  assert (Hnd : NoDup (map fst [("command", VStr "save"); ("_reqId", VStr "mine")])).
  { repeat constructor; simpl; intuition discriminate. }
  split; [exact Hnd|].
  destruct (stamp_keeps_other_fields "SAVE" Examples.save_r1 _ Hnd) as (Hk & Hr & _).
  split; [rewrite Hk by discriminate; reflexivity | rewrite Hr; reflexivity].
Defined.

(** ** The model's reducer streams *)

Lemma deliver_nothing (isStateSink : bool) (streams : list registration)
    (cs : value) (a : action) :
  Forall (fun r => String.eqb (type a) (reg_action r) = false) streams ->
  deliver isStateSink streams cs a = [].
Proof.
  intros H; unfold deliver. rewrite filter_none; [reflexivity|].
  apply Forall_forall; intros r Hin. rewrite Forall_forall in H.
  unfold matches. exact (H r Hin).
Qed.

Lemma Forall_sink_streams (P : registration -> Prop) (sink : string)
    (regs : list registration) :
  Forall P regs -> Forall P (sink_streams sink regs).
Proof.
  intros H; apply Forall_forall; intros r Hin.
  apply filter_In in Hin as (Hin & _). rewrite Forall_forall in H; auto.
Qed.

(** X5: actions whose type is not a key of the model give no emission on any
    sink, the state sink included, and nothing is thrown. *)
Theorem unknown_actions_emit_nothing :
  forall name st (m : model_map) regs (bus : list (value * action)),
    registrations name st m = Ok regs ->
    (forall ca, In ca bus -> model_lookup (type (snd ca)) m = None) ->
    (forall sink, effect_sink sink regs bus = [])
    /\ state_sink st regs VUndefined (map snd bus) = [].
Proof.
  intros name st m regs bus Hregs Hbus.
  assert (Hnone : forall ca sink isState cs,
             In ca bus -> deliver isState (sink_streams sink regs) cs (snd ca) = []).
  { intros ca sink isState cs Hin. apply deliver_nothing, Forall_sink_streams.
    eapply registrations_actions; eauto. }
  split.
  - intros sink. unfold effect_sink.
    induction bus as [|ca bus IH]; simpl; auto.
    rewrite (Hnone ca) by now left. simpl. apply IH.
    + intros ca' Hin; apply Hbus; now right.
    + intros ca' sink' isState cs Hin; apply Hnone; now right.
  - unfold state_sink, shimmed; simpl.
    induction bus as [|ca bus IH]; simpl; auto.
    rewrite (Hnone ca) by now left. simpl. apply IH.
    + intros ca' Hin; apply Hbus; now right.
    + intros ca' sink' isState cs Hin; apply Hnone; now right.
Qed.

Lemma unknown_actions_emit_nothing_witness :
  registrations "counter" "STATE" Examples.counter_model
  = Ok [mkReg "STATE" "INCREMENT" (RFun Examples.increment);
        mkReg "DB" "SAVE" (RFun Examples.say_symbol)]
  /\ effect_sink "DB" [mkReg "STATE" "INCREMENT" (RFun Examples.increment);
                       mkReg "DB" "SAVE" (RFun Examples.say_symbol)]
       [(VObj [], plain_action "NOPE" (VObj [])); (VObj [], plain_action "BOOTSTRAP" VUndefined)]
     = [].
Proof.
  split; [reflexivity|].
  refine (proj1 (unknown_actions_emit_nothing "counter" "STATE" Examples.counter_model _
                   [(VObj [], plain_action "NOPE" (VObj []));
                    (VObj [], plain_action "BOOTSTRAP" VUndefined)] eq_refl _) "DB").
  intros ca [<-|[<-|[]]]; reflexivity.
Defined.

(** X6: [initModel$] builds the reducer streams exactly when every entry of
    the model is a function or an object, and otherwise throws.  The streams
    are then, in the order of the model and of the sinks of each entry: for
    a function, one stream on the state sink with that function; for an
    object, one stream for each of its sinks, on that sink and with the
    reducer given for it; each under the action of its entry. *)
Theorem registrations_accept_functions_and_objects :
  forall name st (m : model_map),
    (forallb (fun ke => entry_accepted (snd ke)) m = true ->
     registrations name st m
     = Ok (flat_map (fun ke => match snd ke with
                               | EntryFun f => [mkReg st (fst ke) (RFun f)]
                               | EntrySinks sinks =>
                                   map (fun kv => mkReg (fst kv) (fst ke) (snd kv)) sinks
                               | EntryOther _ => []
                               end) m)
     /\ forall regs sink action r,
          registrations name st m = Ok regs ->
          (In (mkReg sink action r) regs
           <-> exists e, In (action, e) m
                         /\ match e with
                            | EntryFun f => sink = st /\ r = RFun f
                            | EntrySinks sinks => In (sink, r) sinks
                            | EntryOther _ => False
                            end))
    /\ (forallb (fun ke => entry_accepted (snd ke)) m = false ->
        exists msg, registrations name st m = Err msg).
Proof.
  intros name st m.
  assert (Herr : forallb (fun ke => entry_accepted (snd ke)) m = false ->
                 exists msg, registrations name st m = Err msg).
  { induction m as [|[k e] m IH]; simpl; [discriminate|].
    destruct e as [f|sinks|v]; simpl.
    - intros H. destruct (IH H) as (msg & ->). simpl; eauto.
    - intros H. destruct (IH H) as (msg & ->). simpl; eauto.
    - intros _. destruct v; simpl; eauto. }
  assert (Hclosed : forallb (fun ke => entry_accepted (snd ke)) m = true ->
                    registrations name st m
                    = Ok (flat_map (fun ke => match snd ke with
                                              | EntryFun f => [mkReg st (fst ke) (RFun f)]
                                              | EntrySinks sinks =>
                                                  map (fun kv => mkReg (fst kv) (fst ke) (snd kv))
                                                      sinks
                                              | EntryOther _ => []
                                              end) m)).
  { clear Herr. induction m as [|[k e] m IH]; simpl; [reflexivity|].
    destruct e as [f|sinks|v]; simpl; try discriminate;
      intros H; rewrite (IH H); reflexivity. }
  split; [intros Hall; split; [now apply Hclosed|]|exact Herr].
  intros regs sink action r Hregs. rewrite (Hclosed Hall) in Hregs.
    injection Hregs as <-. rewrite in_flat_map. split.
    + intros ([k e] & Hin & Hr). simpl in Hr. destruct e as [f|sinks|v].
      * destruct Hr as [Hr|[]]. injection Hr as <- <- <-.
        exists (EntryFun f); auto.
      * apply in_map_iff in Hr as ([s0 r0] & Hr & Hkv). injection Hr as <- <- <-.
        exists (EntrySinks sinks); auto.
      * destruct Hr.
    + intros (e & Hin & He). exists (action, e). split; [assumption|]. simpl.
      destruct e as [f|sinks|v].
      * destruct He as [-> ->]. now left.
      * apply in_map_iff. exists (sink, r). auto.
      * destruct He.
Qed.

Lemma registrations_accept_functions_and_objects_witness :
  forallb (fun ke => entry_accepted (snd ke)) Examples.counter_model = true
  /\ registrations "counter" "STATE" Examples.counter_model
     = Ok [mkReg "STATE" "INCREMENT" (RFun Examples.increment);
           mkReg "DB" "SAVE" (RFun Examples.say_symbol)].
Proof.
  split; [reflexivity|].
  exact (proj1 (proj1 (registrations_accept_functions_and_objects "counter" "STATE"
                         Examples.counter_model) eq_refl)).
Defined.

Lemma model_lookup_set_same (k : string) (e : model_entry) (m : model_map) :
  model_lookup k (model_set k e m) = Some e.
Proof.
  induction m as [|[k' e'] m IH]; simpl.
  - now rewrite String.eqb_refl.
  - destruct (String.eqb k k') eqn:E; simpl; rewrite E; auto.
Qed.

Lemma model_lookup_set_other (k k' : string) (e : model_entry) (m : model_map) :
  k <> k' -> model_lookup k' (model_set k e m) = model_lookup k' m.
Proof.
  intros Hne; induction m as [|[k0 e0] m IH]; simpl.
  - destruct (String.eqb k' k) eqn:E; auto.
    apply String.eqb_eq in E; congruence.
  - destruct (String.eqb k k0) eqn:E; simpl.
    + apply String.eqb_eq in E; subst k0.
      destruct (String.eqb k' k) eqn:E'; auto.
      apply String.eqb_eq in E'; congruence.
    + destruct (String.eqb k' k0); auto.
Qed.

Lemma model_set_keys (k : string) (e : model_entry) (m : model_map) :
  In k (map fst m) -> map fst (model_set k e m) = map fst m.
Proof.
  induction m as [|[k' e'] m IH]; simpl; [intros []|].
  destruct (String.eqb k k') eqn:E; simpl; auto.
  intros [H|H]; [subst; now rewrite String.eqb_refl in E|].
  now rewrite IH.
Qed.

Lemma model_lookup_in (k : string) (m : model_map) (e : model_entry) :
  model_lookup k m = Some e -> In k (map fst m).
Proof.
  induction m as [|[k' e'] m IH]; simpl; [discriminate|].
  destruct (String.eqb k k') eqn:E; auto.
  apply String.eqb_eq in E; auto.
Qed.

Lemma model_lookup_none (k : string) (m : model_map) :
  model_lookup k m = None -> ~ In k (map fst m).
Proof.
  induction m as [|[k' e'] m IH]; simpl; auto.
  destruct (String.eqb k k') eqn:E; [discriminate|].
  apply String.eqb_neq in E. intros H [H'|H']; [congruence | now apply IH].
Qed.

Lemma model_set_nodup (k : string) (e : model_entry) (m : model_map) :
  NoDup (map fst m) -> NoDup (map fst (model_set k e m)).
Proof.
  intros Hnd. destruct (model_lookup k m) as [e'|] eqn:E.
  - rewrite model_set_keys; auto. eapply model_lookup_in; eauto.
  - rewrite model_set_fresh by assumption. rewrite map_app; simpl.
    apply NoDup_app; [assumption | repeat constructor; auto |].
    intros x Hin [<-|[]]. eapply model_lookup_none; eauto.
Qed.

(** The streams registered under an action come from an entry of the model
    for that action. *)
Lemma registrations_of_entry (n st : string) (m : model_map) (regs : list registration)
    (r : registration) :
  registrations n st m = Ok regs ->
  In r regs ->
  exists e, In (reg_action r, e) m
            /\ match e with
               | EntryFun f => reg_sink r = st
               | EntrySinks sinks => In (reg_sink r) (map fst sinks)
               | EntryOther _ => False
               end.
Proof.
  revert regs; induction m as [|[k e] m IH]; intros regs Hregs Hin; simpl in Hregs.
  - injection Hregs as <-. destruct Hin.
  - destruct e as [f|sinks|v]; simpl in Hregs.
    + destruct (registrations n st m) as [more|msg]; simpl in Hregs; [|discriminate].
      injection Hregs as <-. destruct Hin as [<-|Hin].
      * exists (EntryFun f); simpl; auto.
      * destruct (IH more eq_refl Hin) as (e & He & H). exists e; simpl; auto.
    + destruct (registrations n st m) as [more|msg]; simpl in Hregs; [|discriminate].
      injection Hregs as <-. apply in_app_or in Hin as [Hin|Hin].
      * apply in_map_iff in Hin as (kv & <- & Hkv). exists (EntrySinks sinks); simpl.
        split; auto. now apply in_map.
      * destruct (IH more eq_refl Hin) as (e & He & H). exists e; simpl; auto.
    + destruct v; discriminate Hregs.
Qed.

Lemma in_model_lookup (k : string) (e : model_entry) (m : model_map) :
  NoDup (map fst m) -> In (k, e) m -> model_lookup k m = Some e.
Proof.
  induction m as [|[k' e'] m IH]; simpl; [intros _ []|].
  intros Hnd [H|H]; inversion Hnd as [|x l Hnotin Hnd']; subst.
  - injection H as -> ->. now rewrite String.eqb_refl.
  - destruct (String.eqb k k') eqn:E; auto.
    apply String.eqb_eq in E; subst k'.
    exfalso; apply Hnotin. change k with (fst (k, e)). now apply in_map.
Qed.

(** X7: after [initState] the INITIALIZE action has reducer streams on the
    state sink only: sinks given for it other than the state sink are
    dropped, with one warning each, and the entries of the other actions
    are as they were. *)
Theorem INITIALIZE_only_on_state_sink :
  forall name st (m m' : model_map) (warned : list string) (regs : list registration),
    NoDup (map fst m) ->
    initState st m = Ok (m', warned) ->
    registrations name st m' = Ok regs ->
    (forall r, In r regs -> reg_action r = INITIALIZE_ACTION -> reg_sink r = st)
    /\ (forall k, k <> INITIALIZE_ACTION -> model_lookup k m' = model_lookup k m)
    /\ (forall sinks,
          model_lookup INITIALIZE_ACTION m = Some (EntrySinks sinks) ->
          length warned
          = length (filter (fun kv => negb (String.eqb (fst kv) st)) sinks)).
Proof.
  intros name st m m' warned regs Hnd Hinit Hregs.
  assert (Hshape :
    NoDup (map fst m')
    /\ (forall e', model_lookup INITIALIZE_ACTION m' = Some e' ->
                   match e' with
                   | EntrySinks sinks => Forall (fun kv => fst kv = st) sinks
                   | _ => True
                   end)
    /\ (forall k, k <> INITIALIZE_ACTION -> model_lookup k m' = model_lookup k m)
    /\ (forall sinks,
          model_lookup INITIALIZE_ACTION m = Some (EntrySinks sinks) ->
          length warned
          = length (filter (fun kv => negb (String.eqb (fst kv) st)) sinks))).
  { assert (Hset : forall sinks,
               Forall (fun kv : string * reducer => fst kv = st) sinks ->
               m' = model_set INITIALIZE_ACTION (EntrySinks sinks) m ->
               NoDup (map fst m')
               /\ (forall e', model_lookup INITIALIZE_ACTION m' = Some e' ->
                              match e' with
                              | EntrySinks sinks => Forall (fun kv => fst kv = st) sinks
                              | _ => True
                              end)
               /\ (forall k, k <> INITIALIZE_ACTION ->
                             model_lookup k m' = model_lookup k m)).
    { intros sinks Hs ->. split; [now apply model_set_nodup|]. split.
      - intros e'. rewrite model_lookup_set_same. intros [= <-]. exact Hs.
      - intros k Hk. apply model_lookup_set_other; congruence. }
    unfold initState in Hinit.
    destruct (model_lookup INITIALIZE_ACTION m) as [e|] eqn:El.
    - destruct e as [f|sinks|v].
      + injection Hinit as <- <-. rewrite El.
        split; [assumption|]. split; [intros e' [= <-]; exact I|].
        split; [reflexivity | discriminate].
      + injection Hinit as Hm Hw.
        destruct (Hset (filter (fun kv => String.eqb (fst kv) st) sinks))
          as (H1 & H2 & H3); auto.
        { apply Forall_forall; intros kv Hin. apply filter_In in Hin as (_ & Hin).
          now apply String.eqb_eq. }
        split; [exact H1|]. split; [exact H2|]. split; [exact H3|].
        intros sinks' [= <-]. rewrite <- Hw. now rewrite length_map.
      + destruct v; try (injection Hinit as <- <-; rewrite El;
                         split; [assumption|]; split; [intros e' [= <-]; exact I|];
                         split; [reflexivity | discriminate]).
        * injection Hinit as Hm Hw.
          destruct (Hset [(st, RFun default_initialize)]) as (H1 & H2 & H3); auto.
          split; [exact H1|]. split; [exact H2|]. split; [exact H3 | discriminate].
        * discriminate Hinit.
        * destruct (existsb _ (chars_from 0 s)); [discriminate|].
          injection Hinit as <- <-. rewrite El.
          split; [assumption|]. split; [intros e' [= <-]; exact I|].
          split; [reflexivity | discriminate].
    - injection Hinit as Hm Hw.
      destruct (Hset [(st, RFun default_initialize)]) as (H1 & H2 & H3); auto.
      split; [exact H1|]. split; [exact H2|]. split; [exact H3 | discriminate]. }
  destruct Hshape as (Hnd' & Hentry & Hother & Hwarn).
  split; [|split; assumption].
  intros r Hin Hact.
  destruct (registrations_of_entry name st m' regs r Hregs Hin) as (e & He & Hsink).
  rewrite Hact in He. apply (in_model_lookup _ _ _ Hnd') in He.
  specialize (Hentry e He).
  destruct e as [f|sinks|v]; [exact Hsink| |contradiction].
  apply in_map_iff in Hsink as (kv & <- & Hkv).
  rewrite Forall_forall in Hentry. now apply Hentry.
Qed.

Lemma INITIALIZE_only_on_state_sink_witness :
  NoDup (map fst More.eager_model)
  /\ exists m' regs,
       initState "STATE" More.eager_model
       = Ok (m', ["INITIALIZE can only be used with the STATE source... disregarding DB";
                  "INITIALIZE can only be used with the STATE source... disregarding LOG"])
       /\ registrations "eager" "STATE" m' = Ok regs
       /\ map (fun r => (reg_sink r, reg_action r)) regs
          = [("STATE", "INITIALIZE"); ("DB", "SAVE")]
       /\ forall r, In r regs -> reg_action r = INITIALIZE_ACTION -> reg_sink r = "STATE".
Proof.
  assert (Hnd : NoDup (map fst More.eager_model)).
  { repeat constructor; simpl; intuition discriminate. }
  split; [exact Hnd|].
  eexists; eexists. split; [reflexivity|]. split; [reflexivity|]. split; [reflexivity|].
  exact (proj1 (INITIALIZE_only_on_state_sink "eager" "STATE" More.eager_model _ _ _
                  Hnd eq_refl eq_refl)).
Defined.

(** ** Wiring of routes and responses *)

Lemma upper_lower_ascii (c : ascii) : upper_ascii (lower_ascii c) = upper_ascii c.
Proof.
  destruct c as [[|] [|] [|] [|] [|] [|] [|] [|]]; vm_compute; reflexivity.
Qed.

Lemma upper_lower (s : string) : toUpperCase (toLowerCase s) = toUpperCase s.
Proof.
  unfold toUpperCase, toLowerCase.
  induction s as [|c s IH]; simpl; auto. now rewrite IH, upper_lower_ascii.
Qed.

Lemma wire_routes_strings (_method : string) (routes : list (string * route_entry))
    (wired : list wired_route) :
  wire_routes _method routes = Ok wired ->
  map fst wired
  = map (fun r => "[" ++ toUpperCase _method ++ "]:"
                    ++ (if String.eqb (fst r) "" then "none" else fst r)) routes
  /\ Forall2 (fun r w => snd r = Route (snd w)) routes wired.
Proof.
  revert wired; induction routes as [|[route entry] routes IH]; intros wired; simpl.
  - intros [= <-]; split; [reflexivity | constructor].
  - destruct entry as [target| |v]; simpl; try discriminate.
    destruct (wire_routes _method routes) as [more|msg]; simpl; [|discriminate].
    intros [= <-]. destruct (IH more eq_refl) as (Hs & Ht). simpl.
    split; [now rewrite Hs | constructor; auto].
Qed.

(** X8: a method of the request object is looked up on the request source in
    lower case, whatever its case in the object, and each of its routes is
    wired under the name "[METHOD]:route" with the method in upper case and
    an empty route written "none"; every route keeps its target. *)
Theorem routes_are_wired_by_method :
  forall router method routes wired,
    wire_methods router [(method, routes)] = Ok wired ->
    (exists r, router = Some r /\ has_function r (toLowerCase method) = true)
    /\ map fst wired
       = map (fun r => "[" ++ toUpperCase method ++ "]:"
                         ++ (if String.eqb (fst r) "" then "none" else fst r)) routes
    /\ Forall2 (fun r w => snd r = Route (snd w)) routes wired.
Proof.
  intros router method routes wired; simpl.
  destruct router as [r|]; [|discriminate].
  destruct (has_function r (toLowerCase method)) eqn:Hf; [|discriminate].
  destruct (wire_routes (toLowerCase method) routes) as [mapped|msg] eqn:Hw;
    simpl; [|discriminate].
  intros [= <-]. rewrite app_nil_r.
  destruct (wire_routes_strings _ _ _ Hw) as (Hs & Ht).
  rewrite upper_lower in Hs. split; eauto.
Qed.

Lemma routes_are_wired_by_method_witness :
  exists wired,
    wire_methods (Some Examples.http_source) MoreRouting.mixed_case_request = Ok wired
    /\ map fst wired = ["[GET]:/x"; "[GET]:none"].
Proof.
  exists [("[GET]:/x", ToAction "SAVE"); ("[GET]:none", ToFunction Examples.read_count)].
  split; [reflexivity|].
  exact (proj1 (proj2 (routes_are_wired_by_method (Some Examples.http_source) "Get"
                         [("/x", Route (ToAction "SAVE"));
                          ("", Route (ToFunction Examples.read_count))]
                         [("[GET]:/x", ToAction "SAVE");
                          ("[GET]:none", ToFunction Examples.read_count)]
                         eq_refl))).
Defined.

Lemma existsb_uses_select_false (entries : list (string * response_stream)) :
  existsb (uses_select true) entries = false ->
  existsb (uses_select false) entries = false ->
  Forall (fun e => snd e = OwnStream) entries.
Proof.
  induction entries as [|[command [[names|]|]] entries IH]; simpl; intros H1 H2;
    try discriminate; constructor; auto.
Qed.

(** X9: when no request parameter was given, so that the response stream is
    undefined, a response function is accepted exactly when no stream of
    the object it returns comes from [select]; with a request parameter every
    object of streams is accepted. *)
Theorem response_without_request_needs_no_select :
  forall entries,
    (initSendResponse (ResponseFunction (ResponseObject entries)) None = Ok entries
     <-> Forall (fun e => snd e = OwnStream) entries)
    /\ (forall routes,
          initSendResponse (ResponseFunction (ResponseObject entries)) (Some routes)
          = Ok entries).
Proof.
  intros entries. split; [|reflexivity]. simpl. split.
  - destruct (existsb (uses_select true) entries) eqn:E1; [discriminate|].
    destruct (existsb (uses_select false) entries) eqn:E2; [discriminate|].
    intros _. now apply existsb_uses_select_false.
  - intros H.
    assert (Hno : forall b, existsb (uses_select b) entries = false).
    { intros b. induction H as [|[command stream] entries Hx _ IH]; simpl; auto.
      simpl in Hx; subst stream. unfold uses_select at 1; simpl. exact IH. }
    now rewrite !Hno.
Qed.

(** X10: a request with an id on a route to a function is answered without
    the action bus: no action is sent, the one response event is tagged
    FUNCTION, passes every selection of the response function, and is sent
    out under a command as [{ _reqId, _action: 'FUNCTION', command, data }]
    with the request's id and the function's result. *)
Theorem function_route_response :
  forall routeString f srcs currentState rq result,
    truthy rq = true -> truthy (get rq "id") = true ->
    truthy (get rq "get") && negb (String.eqb (typeof (get rq "get")) "function") = false ->
    f currentState rq = Ok result ->
    exists ev,
      route_handler routeString (ToFunction f) srcs currentState rq
      = mkStep [] [] (Inner [ev])
      /\ (forall actions, selects actions ev = true)
      /\ (forall command,
            send_response command ev
            = Ok (VObj [("_reqId", get rq "id"); ("_action", VStr "FUNCTION");
                        ("command", VStr command); ("data", result)])).
Proof.
  intros routeString f srcs cs rq result Hrq Hid Hget Hf.
  eexists. split; [|split].
  - unfold route_handler. rewrite Hrq, Hid; simpl. rewrite Hget, Hf. reflexivity.
  - intros [[|n names]|]; reflexivity.
  - intros command. unfold send_response; simpl. now rewrite Hid.
Qed.

Lemma function_route_response_witness :
  truthy Examples.request_r1 = true
  /\ Examples.read_count (VObj [("count", VNum 5)]) Examples.request_r1 = Ok (VNum 5)
  /\ exists ev,
       route_handler "[GET]:/x" (ToFunction Examples.read_count) Examples.app_sources
         (VObj [("count", VNum 5)]) Examples.request_r1 = mkStep [] [] (Inner [ev])
       /\ send_response "send" ev
          = Ok (VObj [("_reqId", VStr "r1"); ("_action", VStr "FUNCTION");
                      ("command", VStr "send"); ("data", VNum 5)]).
Proof.
  split; [reflexivity|]. split; [reflexivity|].
  destruct (function_route_response "[GET]:/x" Examples.read_count Examples.app_sources
              (VObj [("count", VNum 5)]) Examples.request_r1 (VNum 5)
              eq_refl eq_refl eq_refl eq_refl) as (ev & Hh & _ & Hs).
  exists ev. split; [exact Hh | exact (Hs "send")].
Defined.

(** ** The sinks and the constructed instance *)

Lemma add_name_in (k x : string) (names : list string) :
  In x (add_name k names) <-> x = k \/ In x names.
Proof.
  induction names as [|k' names IH]; simpl.
  - intuition.
  - destruct (String.eqb k k') eqn:E; simpl.
    + apply String.eqb_eq in E; subst. intuition.
    + rewrite IH. intuition.
Qed.

Lemma add_name_nodup (k : string) (names : list string) :
  NoDup names -> NoDup (add_name k names).
Proof.
  induction names as [|k' names IH]; simpl; intros Hnd.
  - repeat constructor; auto.
  - destruct (String.eqb k k') eqn:E; auto.
    inversion Hnd as [|x l Hnotin Hnd']; subst. constructor; auto.
    rewrite add_name_in. intros [->|H]; [|contradiction].
    now rewrite String.eqb_refl in E.
Qed.

(** X11: [initSinks] throws exactly when the state source is among the
    sources, is not the DOM source, and has no stream; otherwise the sinks
    are the DOM sink, the request sink and one sink for every source, and
    nothing else, each once. *)
Theorem sinks_cover_sources :
  forall srcs DOM STATE HTTP,
    ((exists msg, initSinks srcs DOM STATE HTTP = Err msg)
     <-> In STATE (map fst srcs) /\ STATE <> DOM /\ state_stream STATE srcs = false)
    /\ forall sinks,
         initSinks srcs DOM STATE HTTP = Ok sinks ->
         In DOM sinks /\ In HTTP sinks
         /\ (forall n, In n sinks <-> n = DOM \/ n = HTTP \/ In n (map fst srcs))
         /\ (NoDup (map fst srcs) -> NoDup sinks).
Proof.
  intros srcs DOM STATE HTTP. unfold initSinks, state_stream.
  set (has := match find_source STATE srcs with
              | Some s => has_stream s
              | None => false
              end).
  set (bad := existsb (fun n => negb (String.eqb n DOM) && String.eqb n STATE && negb has)
                      (map fst srcs)).
  assert (Hbad : bad = true <-> In STATE (map fst srcs) /\ STATE <> DOM /\ has = false).
  { unfold bad. rewrite existsb_exists. split.
    - intros (n & Hin & H).
      apply andb_true_iff in H as (H & Hh). apply andb_true_iff in H as (Hd & Hs).
      apply String.eqb_eq in Hs; subst n.
      apply negb_true_iff in Hd, Hh. apply String.eqb_neq in Hd. auto.
    - intros (Hin & Hd & Hh). exists STATE. split; auto.
      apply String.eqb_neq in Hd. now rewrite Hd, String.eqb_refl, Hh. }
  split.
  - rewrite <- Hbad. destruct bad; split; eauto; try discriminate.
    intros (msg & H); discriminate H.
  - intros sinks. destruct bad; [discriminate|]. intros [= <-].
    assert (Hin : forall n,
               In n (add_name HTTP (add_name DOM
                       (filter (fun n => negb (String.eqb n DOM)) (map fst srcs))))
               <-> n = DOM \/ n = HTTP \/ In n (map fst srcs)).
    { intros n. rewrite !add_name_in, filter_In.
      destruct (String.eqb n DOM) eqn:E.
      - apply String.eqb_eq in E. intuition discriminate.
      - intuition. }
    split; [apply Hin; auto|]. split; [apply Hin; auto|]. split; [exact Hin|].
    intros Hnd. apply add_name_nodup, add_name_nodup. now apply NoDup_filter.
Qed.

Lemma sinks_cover_sources_witness :
  NoDup (map fst Examples.app_sources)
  /\ initSinks Examples.app_sources "DOM" "STATE" "HTTP" = Ok ["STATE"; "HTTP"; "DB"; "DOM"]
  /\ NoDup ["STATE"; "HTTP"; "DB"; "DOM"].
Proof.
  assert (Hnd : NoDup (map fst Examples.app_sources)).
  { repeat constructor; simpl; intuition discriminate. }
  split; [exact Hnd|]. split; [reflexivity|].
  destruct (proj2 (sinks_cover_sources Examples.app_sources "DOM" "STATE" "HTTP")
              _ eq_refl) as (_ & _ & _ & H).
  exact (H Hnd).
Defined.

Lemma construct_all_stays_false (os : list Opts.t) :
  snd (construct_all os false) = false.
Proof.
  induction os as [|o os IH]; simpl; auto.
  destruct (constructor o false) as [c f] eqn:E.
  pose proof (constructor_flag_stays_false o) as H. rewrite E in H; simpl in H; subst f.
  destruct (construct_all os false) as [cs last]; simpl in *. exact IH.
Qed.

(** X12: a construction rejected for missing sources does not touch the
    process-wide root flag.  In a process whose first constructions are all
    rejected that way, the first one given sources is constructed as the
    root, and the ones after it are not. *)
Theorem root_role_goes_to_first_with_sources :
  forall (rejected : list Opts.t) (o : Opts.t) (rest : list Opts.t),
    Forall (fun b => Opts.sources b = None) rejected ->
    Opts.sources o <> None ->
    construct_all (rejected ++ o :: rest) true
    = ((map (fun _ => Err "Missing or invalid sources") rejected
          ++ fst (constructor o true) :: fst (construct_all rest false))%list,
       false).
Proof.
  intros rejected o rest Hrej Ho.
  induction Hrej as [|b rejected Hb _ IH]; simpl.
  - destruct (constructor o true) as [c f] eqn:E.
    pose proof (constructor_clears_flag o true Ho) as Hf. rewrite E in Hf; simpl in Hf.
    subst f.
    pose proof (construct_all_stays_false rest) as Hlast.
    destruct (construct_all rest false) as [cs last]; simpl in *. now subst last.
  - unfold constructor at 1. rewrite Hb. rewrite IH. reflexivity.
Qed.

Lemma root_role_goes_to_first_with_sources_witness :
  Forall (fun b => Opts.sources b = None) [MoreRouting.no_sources]
  /\ Opts.sources Examples.bare <> None
  /\ exists c1 c2,
       construct_all [MoreRouting.no_sources; Examples.bare; Examples.bare] true
       = ([Err "Missing or invalid sources"; Ok c1; Ok c2], false)
       /\ initialState c1 = VBool true /\ initialState c2 = VUndefined.
Proof.
  assert (H1 : Forall (fun b => Opts.sources b = None) [MoreRouting.no_sources])
    by (repeat constructor).
  assert (H2 : Opts.sources Examples.bare <> None) by discriminate.
  split; [exact H1|]. split; [exact H2|].
  eexists; eexists. split.
  - etransitivity.
    + exact (root_role_goes_to_first_with_sources [MoreRouting.no_sources] Examples.bare
               [Examples.bare] H1 H2).
    + reflexivity.
  - split; reflexivity.
Defined.

Lemma init_fields (o : Opts.t) (srcs : source_map) (cs : option value)
    (defaults : value * intent_param * option model_map) (c : Component) :
  init o srcs cs defaults = Ok c ->
  currentState c = cs /\ initialState c = fst (fst defaults)
  /\ intent c = snd (fst defaults) /\ sources c = srcs
  /\ sourceNames c = map fst srcs /\ name c = Opts.name o.
Proof.
  destruct defaults as [[init0 intent0] model0]. unfold init.
  destruct (initIntent intent0); simpl; [|discriminate].
  destruct (initAction _ _); simpl; [|discriminate].
  destruct (initResponse _ _ _); simpl; [|discriminate].
  destruct (match model0 with
            | Some m => _
            | None => _
            end) as [mw|]; simpl; [|discriminate].
  destruct (match fst mw with
            | Some m => _
            | None => _
            end); simpl; [|discriminate].
  destruct (initSendResponse _ _); simpl; [|discriminate].
  destruct (initChildren _); simpl; [|discriminate].
  destruct (initSinks _ _ _ _); simpl; [|discriminate].
  intros [= <-]; simpl. repeat split.
Qed.

(** X13: the cached state of a constructed component is there only when the
    state source has a stream; it is the value that stream hands to the
    listener the constructor subscribes, when it holds one, and otherwise
    the initial state the component was given, or the empty object when
    that is falsy.  The default of a root component comes after: a root
    component without intent, model and initial state, on a state stream
    that holds no value yet, has the initial state true and the cached
    state [{}]. *)
Theorem cached_state_is_set_before_root_default :
  forall o flag srcs c,
    Opts.sources o = Some srcs ->
    fst (constructor o flag) = Ok c ->
    currentState c
    = (if state_stream (Opts.stateSourceName o) srcs
       then Some (match state_held (Opts.stateSourceName o) srcs with
                  | Some val => val
                  | None => JS.or (Opts.initialState o) (VObj [])
                  end)
       else None)
    /\ (flag = true -> intent_undefined (Opts.intent o) = true -> Opts.model o = None ->
        truthy (Opts.initialState o) = false ->
        state_stream (Opts.stateSourceName o) srcs = true ->
        state_held (Opts.stateSourceName o) srcs = None ->
        initialState c = VBool true /\ currentState c = Some (VObj [])).
Proof.
  intros o flag srcs c Hs Hc. unfold constructor in Hc. rewrite Hs in Hc; simpl in Hc.
  apply init_fields in Hc as (Hcs & Hinit & _).
  unfold state_stream, state_held. split; [exact Hcs|].
  intros -> Hi Hm Hfalsy Hstream Hheld.
  unfold root_defaults in Hinit. rewrite Hi, Hm in Hinit; simpl in Hinit.
  rewrite Hstream, Hheld in Hcs.
  unfold JS.or in *. rewrite Hfalsy in *. auto.
Qed.

Lemma cached_state_is_set_before_root_default_witness :
  Opts.sources Examples.bare = Some Examples.app_sources
  /\ (exists c,
         fst (constructor Examples.bare true) = Ok c
         /\ initialState c = VBool true /\ currentState c = Some (VObj []))
  /\ exists c,
       fst (constructor MoreRouting.warm false) = Ok c
       /\ currentState c = Some (VObj [("count", VNum 7)]).
Proof.
  split; [reflexivity|]. split.
  - eexists. split; [reflexivity|].
    match goal with
    | |- initialState ?c = _ /\ _ =>
        exact (proj2 (cached_state_is_set_before_root_default Examples.bare true
                        Examples.app_sources c eq_refl eq_refl)
                 eq_refl eq_refl eq_refl eq_refl eq_refl eq_refl)
    end.
  - eexists. split; [reflexivity|]. reflexivity.
Defined.

(** ** The first reducer of the state sink in the event loop *)

Section FirstReducer.

Variable c : Component.
Hypothesis has_model : model c <> None.
Hypothesis truthy_initial_state : truthy (initialState c) = true.
Hypothesis initialize_stream :
  exists r f, In r (model_s c) /\ reg_sink r = stateSourceName c
              /\ reg_action r = INITIALIZE_ACTION /\ reg_reducer r = RFun f.

Lemma state_calls_app (tr1 tr2 : list entry) :
  state_calls (stateSourceName c) (tr1 ++ tr2) = (state_calls (stateSourceName c) tr1 ++ state_calls (stateSourceName c) tr2)%list.
Proof. unfold state_calls; apply flat_map_app. Qed.

Lemma state_calls_dispatch_entries (n : nat) (l : list action) :
  state_calls (stateSourceName c) (dispatch_entries n l) = [].
Proof. revert n; induction l as [|a l IH]; intros n; simpl; auto. Qed.

Lemma grows_quietly_refl (L : loop) : grows_quietly (stateSourceName c) L L.
Proof.
  split; [exists []; now rewrite app_nil_r|]. split; auto.
  exists []; split; [now rewrite app_nil_r | reflexivity].
Qed.

Lemma grows_quietly_trans (L1 L2 L3 : loop) :
  grows_quietly (stateSourceName c) L1 L2 -> grows_quietly (stateSourceName c) L2 L3 -> grows_quietly (stateSourceName c) L1 L3.
Proof.
  intros ((m1 & Ht1) & Hp1 & n1 & Hn1 & Hc1) ((m2 & Ht2) & Hp2 & n2 & Hn2 & Hc2).
  split; [exists (m1 ++ m2)%list; rewrite Ht2, Ht1; now rewrite app_assoc|].
  split; [congruence|].
  exists (n1 ++ n2)%list. split; [rewrite Hn2, Hn1; now rewrite app_assoc|].
  now rewrite state_calls_app, Hc1, Hc2.
Qed.

Lemma invoke_effect_quiet (L : loop) (r : registration) (a : action) :
  String.eqb (reg_sink r) (stateSourceName c) = false ->
  grows_quietly (stateSourceName c) L (invoke_effect L r a).
Proof.
  intros Hsink.
  destruct (stream_stopped (reg_sink r) (reg_action r) L) eqn:Hst.
  - unfold invoke_effect; rewrite Hst. apply grows_quietly_refl.
  - rewrite (invoke_effect_runs L r a Hst).
    split; [eexists; reflexivity|]. split; [reflexivity|].
    eexists. split; [reflexivity|].
    simpl. rewrite Hsink; simpl.
    rewrite state_calls_app, state_calls_dispatch_entries. reflexivity.
Qed.

Lemma fold_invoke_quiet (regs : list registration) (a : action) (L : loop) :
  Forall (fun r => String.eqb (reg_sink r) (stateSourceName c) = false) regs ->
  grows_quietly (stateSourceName c) L (fold_left (fun L r => invoke_effect L r a) regs L).
Proof.
  intros H; revert L; induction H as [|r regs Hr _ IH]; intros L; simpl.
  - apply grows_quietly_refl.
  - eapply grows_quietly_trans; [apply invoke_effect_quiet; exact Hr | apply IH].
Qed.

Lemma send_quiet (L : loop) (a : action) : grows_quietly (stateSourceName c) L (send c L a).
Proof.
  unfold send.
  assert (H : grows_quietly (stateSourceName c) L
                (fold_left (fun L r => invoke_effect L r a)
                   (filter (fun r => matches (reg_action r) a) (effect_streams c))
                   (log (Delivered a) L))).
  { eapply grows_quietly_trans; [|apply fold_invoke_quiet].
    - split; [exists []; simpl; now rewrite app_nil_r|]. split; [reflexivity|].
      exists [Delivered a]; split; reflexivity.
    - apply Forall_forall; intros r Hin.
      apply filter_In in Hin as (Hin & _). unfold effect_streams in Hin.
      apply filter_In in Hin as (_ & Hin). now apply negb_true_iff in Hin. }
  destruct (model c); [|contradiction].
  rewrite truthy_initial_state.
  eapply grows_quietly_trans; [exact H|].
  split; [eexists; reflexivity|]. split; [reflexivity|].
  exists []; split; [simpl; now rewrite app_nil_r | reflexivity].
Qed.

Lemma fold_send_quiet (l : list action) (L : loop) :
  grows_quietly (stateSourceName c) L (fold_left (send c) l L).
Proof.
  revert L; induction l as [|a l IH]; intros L; simpl.
  - apply grows_quietly_refl.
  - eapply grows_quietly_trans; [apply send_quiet | apply IH].
Qed.

Lemma earliest_leftmost (l1 l2 : list timer) (t0 : timer) :
  due t0 = 0 -> Forall (fun t => 0 < due t) l1 ->
  earliest (l1 ++ t0 :: l2) = Some t0.
Proof.
  intros H0 H1. induction H1 as [|t l1 Ht _ IH]; simpl.
  - destruct (earliest l2) as [t'|]; auto.
    rewrite H0. now destruct (due t').
  - rewrite IH, H0.
    destruct (Nat.ltb_spec 0 (due t)); [reflexivity | lia].
Qed.

(** The reducers that the INITIALIZE pseudo-action puts in the queue. *)
Lemma emit_initialize (L : loop) :
  exists name f rest,
    pending (emit_state c (initialize_action c) L)
    = (pending L ++ (name, initialize_action c, f) :: rest)%list.
Proof.
  unfold emit_state; simpl.
  destruct initialize_stream as (r & f & Hin & Hsink & Hact & Hred).
  set (streams := filter (fun r => matches (reg_action r) (initialize_action c))
                         (sink_streams (stateSourceName c) (model_s c))).
  assert (Hr : In r streams).
  { apply filter_In; split.
    - apply filter_In; split; auto. rewrite Hsink. apply String.eqb_refl.
    - unfold matches. rewrite Hact. reflexivity. }
  assert (Hfresh : forall l,
             In r l ->
             exists name f rest,
               flat_map (fun r => match reg_reducer r with
                                  | RFun f => [(reg_action r, initialize_action c, f)]
                                  | RVal _ => []
                                  end) l
               = (name, initialize_action c, f) :: rest).
  { induction l as [|r0 l IH]; [intros []|]. intros [->|Hl]; simpl.
    - rewrite Hred; simpl; eauto.
    - destruct (reg_reducer r0); simpl; eauto. }
  destruct (Hfresh streams Hr) as (name & f' & rest & ->). eauto.
Qed.

Lemma phase_quiet (L L' : loop) :
  grows_quietly (stateSourceName c) L L' ->
  initialize_phase c L -> initialize_phase c L'.
Proof.
  intros ((more & Ht) & Hp & new & Hn & Hc) [l1 l2 Htm Hl1 Hpend Hcalls
                                             |name f rest Hpend Hcalls|Hhd].
  - apply (InitializeDue c L' l1 (l2 ++ more)%list); auto.
    + rewrite Ht, Htm. rewrite <- app_assoc; reflexivity.
    + congruence.
    + now rewrite Hn, state_calls_app, Hc, app_nil_r.
  - apply (InitializeQueued c L' name f rest); [congruence|].
    now rewrite Hn, state_calls_app, Hc, app_nil_r.
  - apply InitializeCalled. rewrite Hn, state_calls_app.
    destruct (state_calls (stateSourceName c) (trace L)); [discriminate | exact Hhd].
Qed.

Lemma phase_called_grows (L L' : loop) (new : list entry) :
  trace L' = (trace L ++ new)%list ->
  hd_error (state_calls (stateSourceName c) (trace L)) = Some (initialize_action c) ->
  initialize_phase c L'.
Proof.
  intros Hn Hhd. apply InitializeCalled. rewrite Hn, state_calls_app.
  destruct (state_calls (stateSourceName c) (trace L)); [discriminate | exact Hhd].
Qed.

Lemma phase_start : initialize_phase c (start c).
Proof.
  unfold start.
  destruct (model c) as [m|] eqn:Hm; [|contradiction].
  rewrite truthy_initial_state.
  apply (InitializeDue c _
           (match action_s c with
            | ActionMerged _ _ =>
                [mkTimer 0 10 (Wrapped (plain_action BOOTSTRAP_ACTION VUndefined))]
            | ActionNever => []
            end) []); simpl; auto.
  destruct (action_s c); repeat constructor; simpl; lia.
Qed.

Lemma store_quiet (L : loop) (v : value) :
  grows_quietly (stateSourceName c) L (store c v L).
Proof.
  unfold store. destruct (currentState c); [|apply grows_quietly_refl].
  split; [exists []; simpl; now rewrite app_nil_r|]. split; [reflexivity|].
  exists [Stored v]; split; reflexivity.
Qed.

Lemma state_calls_state_entries (v : value) :
  state_calls (stateSourceName c) (state_entries c v) = [].
Proof.
  unfold state_entries. destruct v; destruct (currentState c); reflexivity.
Qed.

Lemma phase_step (L : loop) (i : input) :
  initialize_phase c L -> initialize_phase c (step c L i).
Proof.
  intros HL.
  destruct i as [routeString rq|routeString|a|d|v|s| |dt].
  - (* Request *)
    unfold step.
    destruct (response_s c) as [routes|]; auto.
    destruct (find_route routeString routes) as [target|]; auto.
    destruct (route_closed routeString L); auto.
    set (h := route_handler routeString target (sources c) (cached L) rq).
    eapply phase_quiet; [|exact HL].
    destruct (fold_send_quiet (sent h) L) as (Ht & Hp & Hn).
    destruct (mapped_to h); split; auto.
  - (* Detach *)
    unfold step. destruct (closed L); auto.
    eapply phase_quiet; [|exact HL].
    split; [exists []; simpl; now rewrite app_nil_r|]. split; [reflexivity|].
    exists []; split; [simpl; now rewrite app_nil_r | reflexivity].
  - (* Intent *)
    assert (Hset : forall a0, grows_quietly (stateSourceName c) L (set_timeout 10 (Wrapped a0) L)).
    { intros a0. split; [eexists; reflexivity|]. split; [reflexivity|].
      exists []; split; [simpl; now rewrite app_nil_r | reflexivity]. }
    unfold step.
    destruct (action_s c) as [|runner hydrates]; auto.
    destruct runner as [|names|v]; auto.
    + eapply phase_quiet; eauto.
    + destruct (existsb _ names); auto. eapply phase_quiet; eauto.
  - (* Hydrate *)
    unfold step.
    destruct (action_s c) as [|runner [|]]; auto.
    eapply phase_quiet; [apply send_quiet | exact HL].
  - (* StateEmits *)
    unfold step. eapply phase_quiet; [apply store_quiet|exact HL].
  - (* Reduce *)
    destruct (pending L) as [|[[name a] f] rest] eqn:Hpend;
      [unfold step; rewrite Hpend; exact HL|].
    destruct (relays c (stateSourceName c)) eqn:Hrel;
      [|unfold step; rewrite Hpend, Hrel; exact HL].
    rewrite (reduce_runs c L s name a f rest Hpend Hrel).
    destruct HL as [l1 l2 Htm Hl1 Hp Hcalls|name0 f0 rest0 Hp Hcalls|Hhd].
    + rewrite Hp in Hpend; discriminate.
    + rewrite Hp in Hpend. injection Hpend as <- <- <- <-.
      apply InitializeCalled. cbn [trace].
      rewrite state_calls_app, Hcalls; simpl.
      now rewrite String.eqb_refl.
    + eapply phase_called_grows; [|exact Hhd]. reflexivity.
  - (* Timeout *)
    unfold step.
    destruct (earliest (timers L)) as [t|] eqn:Et; auto.
    set (L1 := log (Fired (timer_id t) (job t))
                   (mkLoop (Nat.max (now L) (due t)) (next_timer L)
                           (remove_timer (timer_id t) (timers L))
                           (pending L) (cached L) (stopped L) (closed L) (trace L))).
    assert (Hfired : trace L1 = (trace L ++ [Fired (timer_id t) (job t)])%list)
      by reflexivity.
    assert (Hemit : forall a, trace (emit_state c a L1) = trace L1) by reflexivity.
    destruct HL as [l1 l2 Htm Hl1 Hp Hcalls|name0 f0 rest0 Hp Hcalls|Hhd].
    + rewrite Htm, earliest_leftmost in Et by auto. injection Et as <-. simpl job.
      destruct (emit_initialize L1) as (name & f & rest & Hq).
      apply (InitializeQueued c _ name f rest).
      * rewrite Hq. unfold L1; simpl. now rewrite Hp.
      * rewrite Hemit, Hfired.
        now rewrite state_calls_app, Hcalls.
    + assert (HL1 : initialize_phase c L1).
      { apply (InitializeQueued c L1 name0 f0 rest0); [exact Hp|].
        rewrite Hfired. now rewrite state_calls_app, Hcalls. }
      destruct (job t) as [a|a|a].
      * eapply phase_quiet; [apply send_quiet | exact HL1].
      * eapply phase_quiet; [apply send_quiet | exact HL1].
      * apply (InitializeQueued c _ name0 f0
                 (rest0 ++ flat_map (fun r => match reg_reducer r with
                                              | RFun f => [(reg_action r, a, f)]
                                              | RVal _ => []
                                              end)
                             (filter (fun r => matches (reg_action r) a)
                                     (sink_streams (stateSourceName c) (model_s c))))%list).
        -- unfold emit_state, L1; simpl. now rewrite Hp.
        -- rewrite Hemit, Hfired. now rewrite state_calls_app, Hcalls.
    + assert (HL1 : initialize_phase c L1) by (eapply phase_called_grows; eauto).
      destruct (job t) as [a|a|a].
      * eapply phase_quiet; [apply send_quiet | exact HL1].
      * eapply phase_quiet; [apply send_quiet | exact HL1].
      * inversion HL1 as [l1 l2 Htm Hl1 Hp Hcalls|name0 f0 rest0 Hp Hcalls|Hhd'].
        -- rewrite Hfired in Hcalls.
           rewrite state_calls_app in Hcalls.
           destruct (state_calls (stateSourceName c) (trace L)); discriminate.
        -- rewrite Hfired in Hcalls.
           rewrite state_calls_app in Hcalls.
           destruct (state_calls (stateSourceName c) (trace L)); discriminate.
        -- apply InitializeCalled. rewrite Hemit. exact Hhd'.
  - (* Wait *)
    unfold step.
    eapply phase_quiet; [|exact HL].
    split; [exists []; simpl; now rewrite app_nil_r|]. split; [reflexivity|].
    exists []; split; [simpl; now rewrite app_nil_r | reflexivity].
Qed.

Lemma phase_run (inputs : list input) : initialize_phase c (run c inputs).
Proof.
  unfold run. induction inputs as [|i inputs IH] using rev_ind; simpl.
  - apply phase_start.
  - rewrite fold_left_app; simpl. now apply phase_step.
Qed.

End FirstReducer.

(** X14: for a component with a model, a truthy initial state and a reducer
    for INITIALIZE on the state sink, in every run of the event loop the
    first reducer of the state sink that the state driver gets to call is
    the one of the INITIALIZE pseudo-action, whatever requests, intent
    events and timers come first. *)
Theorem INITIALIZE_is_reduced_first :
  forall (c : Component) (inputs : list input),
    model c <> None ->
    truthy (initialState c) = true ->
    (exists r f, In r (model_s c) /\ reg_sink r = stateSourceName c
                 /\ reg_action r = INITIALIZE_ACTION /\ reg_reducer r = RFun f) ->
    forall a,
      hd_error (state_calls (stateSourceName c) (trace (run c inputs))) = Some a ->
      a = initialize_action c.
Proof.
  intros c inputs Hm Ht Hr a Hhd.
  destruct (phase_run c Hm Ht Hr inputs) as [l1 l2 _ _ _ Hcalls|name f rest _ Hcalls|Hhd'].
  - rewrite Hcalls in Hhd; discriminate.
  - rewrite Hcalls in Hhd; discriminate.
  - rewrite Hhd' in Hhd. now injection Hhd as <-.
Qed.

Lemma INITIALIZE_is_reduced_first_witness :
  exists c,
    fst (constructor Examples.saver true) = Ok c
    /\ model c <> None
    /\ truthy (initialState c) = true
    /\ hd_error (state_calls (stateSourceName c)
                   (trace (run c [Request "[GET]:/x" Examples.request_r1; Timeout;
                                  Reduce VUndefined])))
       = Some (plain_action "INITIALIZE" (VObj [("count", VNum 0)]))
    /\ forall a,
         hd_error (state_calls (stateSourceName c)
                     (trace (run c [Request "[GET]:/x" Examples.request_r1; Timeout;
                                    Reduce VUndefined]))) = Some a ->
         a = plain_action "INITIALIZE" (VObj [("count", VNum 0)]).
Proof.
  eexists. split; [reflexivity|].
  split; [discriminate|]. split; [reflexivity|]. split; [reflexivity|].
  match goal with
  | |- forall a, hd_error (state_calls _ (trace (run ?c ?inputs))) = _ -> _ =>
      apply (INITIALIZE_is_reduced_first c inputs)
  end.
  - discriminate.
  - reflexivity.
  - exists (mkReg "STATE" "INITIALIZE" (RFun default_initialize)), default_initialize.
    split; [right; right; left; reflexivity | repeat split].
Defined.

(** ** The view's input *)

Section Assoc.

Context {A : Type}.

Lemma assoc_get_set_same (k : string) (x : A) (l : list (string * A)) :
  assoc_get k (assoc_set k x l) = Some x.
Proof.
  induction l as [|[k' y] l IH]; simpl.
  - now rewrite String.eqb_refl.
  - destruct (String.eqb k k') eqn:E; simpl; rewrite E; auto.
Qed.

Lemma assoc_get_set_other (k k' : string) (x : A) (l : list (string * A)) :
  k <> k' -> assoc_get k' (assoc_set k x l) = assoc_get k' l.
Proof.
  intros Hne; induction l as [|[k0 y] l IH]; simpl.
  - destruct (String.eqb k' k) eqn:E; auto.
    apply String.eqb_eq in E; congruence.
  - destruct (String.eqb k k0) eqn:E; simpl.
    + apply String.eqb_eq in E; subst k0.
      destruct (String.eqb k' k) eqn:E'; auto.
      apply String.eqb_eq in E'; congruence.
    + destruct (String.eqb k' k0); auto.
Qed.

Lemma assoc_set_keys_in (k k' : string) (x : A) (l : list (string * A)) :
  In k' (map fst (assoc_set k x l)) <-> k' = k \/ In k' (map fst l).
Proof.
  induction l as [|[k0 y] l IH]; simpl.
  - intuition.
  - destruct (String.eqb k k0) eqn:E; simpl.
    + apply String.eqb_eq in E; subst. intuition.
    + rewrite IH. intuition.
Qed.

Lemma assoc_set_nodup (k : string) (x : A) (l : list (string * A)) :
  NoDup (map fst l) -> NoDup (map fst (assoc_set k x l)).
Proof.
  induction l as [|[k0 y] l IH]; simpl; intros Hnd.
  - repeat constructor; auto.
  - inversion Hnd as [|z l' Hnotin Hnd']; subst.
    destruct (String.eqb k k0) eqn:E; simpl; [constructor; auto|].
    constructor; auto. rewrite assoc_set_keys_in.
    intros [->|H]; [now rewrite String.eqb_refl in E | contradiction].
Qed.

End Assoc.

Lemma children_keys (children : list string) (acc : list (string * render_stream)) :
  NoDup (map fst acc) ->
  let o := fold_left (fun acc child => assoc_set child (ChildDOM child) acc) children acc in
  NoDup (map fst o)
  /\ forall child,
       assoc_get child o
       = if existsb (String.eqb child) children then Some (ChildDOM child)
         else assoc_get child acc.
Proof.
  revert acc; induction children as [|c children IH]; intros acc Hnd; simpl.
  - auto.
  - destruct (IH (assoc_set c (ChildDOM c) acc) (assoc_set_nodup _ _ _ Hnd)) as (H1 & H2).
    split; [exact H1|]. intros child. rewrite H2.
    destruct (existsb (String.eqb child) children); [now rewrite orb_true_r|].
    rewrite orb_false_r. destruct (String.eqb child c) eqn:E.
    + apply String.eqb_eq in E; subst. apply assoc_get_set_same.
    + apply String.eqb_neq in E. apply assoc_get_set_other; congruence.
Qed.

Lemma render_input_map (g : render_stream -> value) (p : list (string * render_stream)) :
  NoDup (map fst p) ->
  render_input (map fst p) (map (fun kv => g (snd kv)) p)
  = map (fun kv => (fst kv, g (snd kv))) p.
Proof.
  intros Hnd. unfold render_input.
  assert (Hc : combine (map fst p) (map (fun kv => g (snd kv)) p)
               = map (fun kv => (fst kv, g (snd kv))) p).
  { clear; induction p as [|kv p IH]; simpl; auto. now rewrite IH. }
  rewrite Hc. rewrite fold_set_nodup; [reflexivity|].
  simpl. rewrite map_map; simpl. exact Hnd.
Qed.

Lemma lookup_map_values (g : render_stream -> value) (p : list (string * render_stream))
    (k : string) :
  lookup k (map (fun kv => (fst kv, g (snd kv))) p) = option_map g (assoc_get k p).
Proof.
  induction p as [|[k' x] p IH]; simpl; auto.
  destruct (String.eqb k k'); auto.
Qed.

(** X15: the object the view function is called with holds the latest state
    under the key [state] and under the name of the state source, whatever
    the children are called, so that a child named [state] or like the state
    source is not seen by the view; every other child is there under its
    name with the latest value of its DOM sink, provided the DOM source name
    is a key of the sources; without that key no child is seen at all. *)
Theorem view_sees_state_and_children :
  forall sourceNames DOM STATE children state dom,
    let input := VObj (view_input sourceNames DOM STATE children state dom) in
    get input "state" = state
    /\ get input STATE = state
    /\ (forall child,
          child <> "state" -> child <> STATE ->
          get input child
          = if existsb (String.eqb DOM) sourceNames && existsb (String.eqb child) children
            then dom child else VUndefined).
Proof.
  intros sourceNames DOM STATE children state dom input.
  set (g := fun s => match s with StateStream => state | ChildDOM n => dom n end).
  set (o := match children_DOM sourceNames DOM children with Some o => o | None => [] end).
  assert (Ho : NoDup (map fst o)
               /\ forall child,
                    assoc_get child o
                    = if existsb (String.eqb DOM) sourceNames
                         && existsb (String.eqb child) children
                      then Some (ChildDOM child) else None).
  { unfold o, children_DOM.
    destruct (existsb (String.eqb DOM) sourceNames); simpl.
    - apply (children_keys children []). constructor.
    - split; [constructor | reflexivity]. }
  destruct Ho as (Hnd & Hget).
  assert (Hin : forall k,
             get input k = match assoc_get k (renderParams (children_DOM sourceNames DOM children) STATE) with
                           | Some s => g s
                           | None => VUndefined
                           end).
  { intros k. unfold input, view_input, get.
    change (fun p : string * render_stream =>
              match snd p with
              | StateStream => state
              | ChildDOM childName => dom childName
              end) with (fun kv : string * render_stream => g (snd kv)).
    rewrite render_input_map.
    - rewrite lookup_map_values.
      destruct (assoc_get k _); reflexivity.
    - unfold renderParams. fold o. now apply assoc_set_nodup, assoc_set_nodup. }
  unfold renderParams in Hin; fold o in Hin.
  split; [|split].
  - rewrite Hin. destruct (String.eqb STATE "state") eqn:E.
    + apply String.eqb_eq in E; rewrite E. now rewrite assoc_get_set_same.
    + apply String.eqb_neq in E.
      rewrite assoc_get_set_other by assumption. now rewrite assoc_get_set_same.
  - rewrite Hin. now rewrite assoc_get_set_same.
  - intros child H1 H2. rewrite Hin.
    rewrite !assoc_get_set_other by congruence.
    rewrite Hget. destruct (_ && _); reflexivity.
Qed.

Lemma view_sees_state_and_children_witness :
  "list" <> "state" /\ "list" <> "STATE"
  /\ VObj (view_input ["DOM"; "STATE"] "DOM" "STATE" ["list"; "state"]
             (VObj [("count", VNum 1)])
             (fun child => VStr ("<" ++ child ++ ">")))
     = VObj [("list", VStr "<list>"); ("state", VObj [("count", VNum 1)]);
             ("STATE", VObj [("count", VNum 1)])]
  /\ get (VObj (view_input ["DOM"; "STATE"] "DOM" "STATE" ["list"; "state"]
                  (VObj [("count", VNum 1)])
                  (fun child => VStr ("<" ++ child ++ ">")))) "list"
     = VStr "<list>".
Proof.
  assert (H1 : "list" <> "state") by discriminate.
  assert (H2 : "list" <> "STATE") by discriminate.
  split; [exact H1|]. split; [exact H2|]. split; [reflexivity|].
  exact (proj2 (proj2 (view_sees_state_and_children ["DOM"; "STATE"] "DOM" "STATE"
                         ["list"; "state"] (VObj [("count", VNum 1)])
                         (fun child => VStr ("<" ++ child ++ ">"))))
           "list" H1 H2).
Defined.

(** ** [switchable.js] *)

Section SwitchableProps.

Import Switchable.

Lemma dropRepeats_head (l : string) (names : list string) :
  match dropRepeats (Some l) names with
  | n :: _ => String.eqb l n = false
  | [] => True
  end.
Proof.
  induction names as [|n names IH]; simpl; auto.
  destruct (String.eqb l n) eqn:E; [exact IH | exact E].
Qed.

Lemma dropRepeats_no_repeat (last : option string) (names : list string) :
  no_repeat (dropRepeats last names) = true.
Proof.
  revert last; induction names as [|n names IH]; intros last; simpl; auto.
  destruct (match last with Some l => String.eqb l n | None => false end).
  - apply IH.
  - pose proof (dropRepeats_head n names) as Hh. pose proof (IH (Some n)) as Hr.
    simpl. destruct (dropRepeats (Some n) names) as [|n' rest]; auto.
    rewrite Hh; simpl. exact Hr.
Qed.

Lemma dropRepeats_snoc (last : option string) (names : list string) (n n' : string) :
  Switchable.dropRepeats last (names ++ [n; n'])
  = (Switchable.dropRepeats last (names ++ [n])
       ++ (if String.eqb n n' then [] else [n']))%list.
Proof.
  revert last; induction names as [|n0 names IH]; intros last; simpl.
  - destruct (match last with Some l => String.eqb l n | None => false end) eqn:E.
    + destruct last as [l|]; [|discriminate]. apply String.eqb_eq in E; subst l.
      destruct (String.eqb n n'); reflexivity.
    + simpl. destruct (String.eqb n n'); reflexivity.
  - destruct (match last with Some l => String.eqb l n0 | None => false end).
    + apply IH.
    + simpl. now rewrite IH.
Qed.

(** X16: [withInitial$] starts with the initial name; the first name of
    [name$] comes through whatever it is, the initial name included; and
    every later name comes through exactly when it differs from the name
    that came on [name$] just before it.  So no name is carried twice in a
    row after the initial one. *)
Theorem withInitial_drops_repeats_after_initial :
  forall initial,
    Switchable.withInitial initial [] = [initial]
    /\ (forall n, Switchable.withInitial initial [n] = [initial; n])
    /\ (forall names n n',
          Switchable.withInitial initial (names ++ [n; n'])
          = (Switchable.withInitial initial (names ++ [n])
               ++ (if String.eqb n n' then [] else [n']))%list)
    /\ (forall names, Switchable.no_repeat (tl (Switchable.withInitial initial names)) = true).
Proof.
  intros initial. split; [reflexivity|]. split; [reflexivity|]. split.
  - intros names n n'. unfold Switchable.withInitial.
    now rewrite dropRepeats_snoc.
  - intros names. apply dropRepeats_no_repeat.
Qed.

Lemma assoc_get_given (sourceNames : list string) (k : string) :
  In k sourceNames ->
  assoc_get k (map (fun n => (n, Original n)) sourceNames) = Some (Original k).
Proof.
  induction sourceNames as [|n names IH]; simpl; [intros []|].
  destruct (String.eqb k n) eqn:E.
  - apply String.eqb_eq in E; now subst.
  - intros [->|H]; [now rewrite String.eqb_refl in E | auto].
Qed.

(** X17: when the sources have a state source under [stateSourceName], each
    factory is called with the state source narrowed to its component under
    the key [state], and with every other source as given; unless
    [stateSourceName] is [state] itself, the source under [stateSourceName]
    is thus the one given, not the narrowed one.  Without a source under
    [stateSourceName] nothing is narrowed. *)
Theorem narrowed_state_source_is_under_state :
  forall sourceNames stateSourceName component,
    (In stateSourceName sourceNames ->
     assoc_get "state" (factory_sources sourceNames stateSourceName component)
     = Some (Narrowed component)
     /\ forall k, In k sourceNames -> k <> "state" ->
                  assoc_get k (factory_sources sourceNames stateSourceName component)
                  = Some (Original k))
    /\ (~ In stateSourceName sourceNames ->
        factory_sources sourceNames stateSourceName component
        = map (fun n => (n, Original n)) sourceNames).
Proof.
  intros sourceNames st component.
  assert (Hex : existsb (String.eqb st) sourceNames = true <-> In st sourceNames).
  { rewrite existsb_exists. split.
    - intros (x & Hin & E). apply String.eqb_eq in E. now subst.
    - intros H; exists st; split; auto. apply String.eqb_refl. }
  pose proof (assoc_get_given sourceNames) as Hgiven.
  unfold factory_sources. split.
  - intros Hin. apply Hex in Hin. rewrite Hin. split.
    + apply assoc_get_set_same.
    + intros k Hk Hne. rewrite assoc_get_set_other by congruence. now apply Hgiven.
  - intros Hnot. destruct (existsb (String.eqb st) sourceNames); auto.
    exfalso. apply Hnot, Hex. reflexivity.
Qed.

Lemma narrowed_state_source_is_under_state_witness :
  In "STATE" ["DOM"; "STATE"]
  /\ factory_sources ["DOM"; "STATE"] "STATE" "home"
     = [("DOM", Original "DOM"); ("STATE", Original "STATE"); ("state", Narrowed "home")]
  /\ assoc_get "STATE" (factory_sources ["DOM"; "STATE"] "STATE" "home")
     = Some (Original "STATE").
Proof.
  assert (H : In "STATE" ["DOM"; "STATE"]) by (right; left; reflexivity).
  split; [exact H|]. split; [reflexivity|].
  refine (proj2 (proj1 (narrowed_state_source_is_under_state ["DOM"; "STATE"] "STATE"
                          "home") H) "STATE" H _).
  discriminate.
Defined.

Lemma narrowed_not_selected (component : string) (timeline : list occurrence) (h : held) :
  current h <> component ->
  ~ In component (names_of timeline) ->
  narrowed_state component h timeline = [].
Proof.
  revert h; induction timeline as [|o timeline IH]; intros h Hc Hn; simpl; auto.
  destruct o as [n|s|comp sink v]; simpl in Hn.
  - destruct (repeats h n).
    + apply IH; auto.
    + destruct (String.eqb n component) eqn:E.
      * apply String.eqb_eq in E; subst. exfalso; apply Hn; now left.
      * apply String.eqb_neq in E. simpl. apply IH; simpl; auto.
  - destruct (String.eqb (current h) component) eqn:E.
    + apply String.eqb_eq in E; contradiction.
    + simpl. apply IH; auto.
  - apply IH; auto.
Qed.

Lemma narrowed_while_selected (component : string) (timeline : list occurrence) (h : held) :
  current h = component ->
  names_of timeline = [] ->
  narrowed_state component h timeline = states_of timeline.
Proof.
  revert h; induction timeline as [|o timeline IH]; intros h Hc Hn; simpl; auto.
  destruct o as [n|s|comp sink v]; simpl in Hn; [discriminate| |].
  - rewrite Hc, String.eqb_refl. simpl. f_equal. apply IH; auto.
  - apply IH; auto.
Qed.

End SwitchableProps.

Section SwitchableStreams.

Import Switchable.

Lemma narrowed_on_selection (component : string) (states : list value) (s : value)
    (h : held) :
  current h <> component ->
  repeats h component = false ->
  narrowed_state component h (map Stated (states ++ [s]) ++ [Named component]) = [s].
Proof.
  revert h; induction states as [|s0 states IH]; intros h Hc Hr; simpl.
  - destruct (String.eqb (current h) component) eqn:E.
    + apply String.eqb_eq in E; contradiction.
    + simpl. unfold repeats in *; simpl. rewrite Hr, String.eqb_refl. reflexivity.
  - destruct (String.eqb (current h) component) eqn:E.
    + apply String.eqb_eq in E; contradiction.
    + simpl. apply IH; auto.
Qed.

(** X18: the state stream handed to a component follows the selection: a
    component that is not the initial one and whose name never comes gets no
    state; the component selected from the start gets every state for as
    long as no name comes; and a component gets the latest state at once
    when its name comes. *)
Theorem narrowed_state_follows_selection :
  forall component initial timeline,
    (initial <> component -> ~ In component (names_of timeline) ->
     narrowed_state component (hold initial) timeline = [])
    /\ (initial = component -> names_of timeline = [] ->
        narrowed_state component (hold initial) timeline = states_of timeline)
    /\ (forall states s,
          initial <> component ->
          narrowed_state component (hold initial)
            (map Stated (states ++ [s]) ++ [Named component]) = [s]).
Proof.
  intros component initial timeline. split; [|split].
  - intros Hi Hn. now apply narrowed_not_selected.
  - intros Hi Hn. now apply narrowed_while_selected.
  - intros states s Hi. apply narrowed_on_selection; auto.
Qed.

Lemma narrowed_state_follows_selection_witness :
  "home" <> "about"
  /\ narrowed_state "about" (hold "home")
       (map Stated ([VNum 1] ++ [VNum 2]) ++ [Named "about"]) = [VNum 2]
  /\ narrowed_state "about" (hold "home") [Stated (VNum 1); Stated (VNum 2)] = [].
Proof.
  assert (H : "home" <> "about") by discriminate.
  split; [exact H|]. split.
  - exact (proj2 (proj2 (narrowed_state_follows_selection "about" "home" []))
             [VNum 1] (VNum 2) H).
  - refine (proj1 (narrowed_state_follows_selection "about" "home"
                     [Stated (VNum 1); Stated (VNum 2)]) H _).
    simpl; tauto.
Defined.

Lemma switched_events_origin (cs : components) (sink : string)
    (timeline : list occurrence) (h : held) (v : value) :
  In v (switched_events cs sink h timeline) ->
  (exists component,
      In (Emitted component sink v) timeline
      /\ sink_of cs component sink <> None
      /\ (component = current h \/ In component (names_of timeline)))
  \/ (exists component,
        assoc_get component (latest h) = Some v
        /\ sink_of cs component sink = Some true
        /\ In component (names_of timeline)).
Proof.
  revert h; induction timeline as [|o timeline IH]; intros h; simpl; [intros []|].
  assert (Hlift : forall h' n,
             (current h' = current h \/ current h' = n) ->
             latest h' = latest h ->
             In v (switched_events cs sink h' timeline) ->
             (exists component,
                 In (Emitted component sink v) timeline
                 /\ sink_of cs component sink <> None
                 /\ (component = current h \/ n = component
                     \/ In component (names_of timeline)))
             \/ (exists component,
                   assoc_get component (latest h) = Some v
                   /\ sink_of cs component sink = Some true
                   /\ (n = component \/ In component (names_of timeline)))).
  { intros h' n Hcur Hlat Hin.
    destruct (IH h' Hin) as [(comp & H1 & H2 & H3)|(comp & H1 & H2 & H3)].
    - left; exists comp. repeat split; auto.
      destruct H3 as [->|H3]; auto. destruct Hcur as [->| ->]; auto.
    - right; exists comp. rewrite <- Hlat. auto. }
  destruct o as [n|s|comp sink' v'].
  - destruct (repeats h n).
    + intros Hin. destruct (Hlift h n (or_introl eq_refl) eq_refl Hin)
        as [(comp & H1 & H2 & H3)|(comp & H1 & H2 & H3)].
      * left; exists comp; simpl. repeat split; auto.
      * right; exists comp; simpl. auto.
    + intros Hin. apply in_app_or in Hin as [Hin|Hin].
      * right; exists n. unfold replayed in Hin.
        destruct (sink_of cs n sink) as [[|]|] eqn:Es; try contradiction.
        destruct (assoc_get n (latest h)) as [v0|] eqn:El; [|contradiction].
        destruct Hin as [<-|[]]. simpl; auto.
      * destruct (Hlift (mkHeld (Some n) n (state h) (latest h)) n
                    (or_intror eq_refl) eq_refl Hin)
          as [(comp & H1 & H2 & H3)|(comp & H1 & H2 & H3)].
        -- left; exists comp; simpl. repeat split; auto.
        -- right; exists comp; simpl. auto.
  - intros Hin.
    destruct (IH _ Hin) as [(comp & H1 & H2 & H3)|(comp & H1 & H2 & H3)].
    + left; exists comp; simpl. repeat split; auto.
    + right; exists comp; simpl. auto.
  - destruct (String.eqb sink' sink) eqn:Es; simpl.
    + apply String.eqb_eq in Es; subst sink'.
      destruct (sink_of cs comp sink) as [b|] eqn:Ed.
      * intros Hin. apply in_app_or in Hin as [Hin|Hin].
        -- destruct (String.eqb comp (current h)) eqn:Ec; [|contradiction].
           apply String.eqb_eq in Ec. destruct Hin as [<-|[]].
           left; exists comp. split; [now left|]. split; [congruence | auto].
        -- destruct (IH _ Hin) as [(c0 & H1 & H2 & H3)|(c0 & H1 & H2 & H3)];
             simpl in *.
           ++ left; exists c0. repeat split; auto.
           ++ destruct (String.eqb c0 comp) eqn:E0.
              ** apply String.eqb_eq in E0; subst c0.
                 rewrite assoc_get_set_same in H1. injection H1 as <-.
                 left; exists comp. split; [now left|]. split; [congruence | auto].
              ** apply String.eqb_neq in E0.
                 rewrite assoc_get_set_other in H1 by congruence.
                 right; exists c0. auto.
      * intros Hin.
        destruct (IH _ Hin) as [(c0 & H1 & H2 & H3)|(c0 & H1 & H2 & H3)].
        -- left; exists c0. repeat split; auto.
        -- right; exists c0. auto.
    + intros Hin.
      destruct (IH _ Hin) as [(c0 & H1 & H2 & H3)|(c0 & H1 & H2 & H3)].
      * left; exists c0. repeat split; auto.
      * right; exists c0. auto.
Qed.

(** X19: a sink named in [switched] starts with the empty string, and every
    value it relays after that was emitted on that sink by a component that
    is the initial one or whose name has come on [name$]; what a component
    that was never selected emits is not relayed. *)
Theorem switched_sink_relays_selected_components :
  forall cs switched initial sink timeline,
    In sink (switched_list switched) ->
    exists events,
      switchable_sink cs switched initial sink timeline = VStr "" :: events
      /\ forall v,
           In v events ->
           exists component,
             In (Emitted component sink v) timeline
             /\ sink_of cs component sink <> None
             /\ (component = initial \/ In component (names_of timeline)).
Proof.
  intros cs switched initial sink timeline Hin.
  exists (switched_events cs sink (hold initial) timeline). split.
  - unfold switchable_sink.
    assert (H : existsb (String.eqb sink) (switched_list switched) = true).
    { apply existsb_exists. exists sink; split; auto. apply String.eqb_refl. }
    now rewrite H.
  - intros v Hv.
    destruct (switched_events_origin _ _ _ _ _ Hv)
      as [(comp & H1 & H2 & H3)|(comp & H1 & _)]; [eauto | discriminate H1].
Qed.

Lemma switched_sink_relays_selected_components_witness :
  In "DOM" (switched_list (SwitchedName "DOM"))
  /\ switchable_sink MoreSwitchable.pages (SwitchedName "DOM") "home" "DOM"
       MoreSwitchable.visit_about
     = [VStr ""; VStr "<home>"; VStr "<about>"]
  /\ exists component,
       In (Emitted component "DOM" (VStr "<about>")) MoreSwitchable.visit_about
       /\ (component = "home" \/ In component (names_of MoreSwitchable.visit_about)).
Proof.
  assert (H : In "DOM" (switched_list (SwitchedName "DOM"))) by (left; reflexivity).
  split; [exact H|]. split; [reflexivity|].
  destruct (switched_sink_relays_selected_components MoreSwitchable.pages
              (SwitchedName "DOM") "home" "DOM" MoreSwitchable.visit_about H)
    as (events & Heq & Hev).
  injection Heq as <-.
  destruct (Hev (VStr "<about>")) as (comp & H1 & _ & H2).
  - right; left; reflexivity.
  - exists comp; auto.
Defined.

Lemma merged_events_in (cs : components) (sink : string) (timeline : list occurrence)
    (v : value) :
  In v (merged_events cs sink timeline)
  <-> exists component,
        In (Emitted component sink v) timeline /\ sink_of cs component sink <> None.
Proof.
  induction timeline as [|o timeline IH]; simpl.
  - split; [intros [] | intros (comp & [] & _)].
  - destruct o as [n|s|comp sink' v'].
    + rewrite IH. split; intros (c0 & H1 & H2); exists c0; split; auto.
      destruct H1 as [H1|H1]; [discriminate | auto].
    + rewrite IH. split; intros (c0 & H1 & H2); exists c0; split; auto.
      destruct H1 as [H1|H1]; [discriminate | auto].
    + destruct (String.eqb sink' sink) eqn:Es; simpl.
      * apply String.eqb_eq in Es; subst sink'.
        destruct (sink_of cs comp sink) as [b|] eqn:Ed; simpl.
        -- rewrite IH. split.
           ++ intros [<-|(c0 & H1 & H2)].
              ** exists comp; split; [now left | congruence].
              ** exists c0; auto.
           ++ intros (c0 & [H1|H1] & H2).
              ** injection H1 as -> ->. now left.
              ** right; exists c0; auto.
        -- rewrite IH. split; intros (c0 & H1 & H2); exists c0; split; auto.
           destruct H1 as [H1|H1]; auto. injection H1 as -> ->. congruence.
      * apply String.eqb_neq in Es.
        rewrite IH. split; intros (c0 & H1 & H2); exists c0; split; auto.
        destruct H1 as [H1|H1]; auto. injection H1 as _ Hs _. congruence.
Qed.

(** X20: a switchable has one sink for every key of the sources and no
    other, so that what a component emits on a sink that is no key of the
    sources is dropped; a sink not named in [switched] relays what every
    component that has this sink emits on it, whatever the names on
    [name$]. *)
Theorem merged_sink_relays_every_component :
  forall cs sourceNames switched initial timeline,
    map fst (switchable cs sourceNames switched initial timeline) = sourceNames
    /\ forall sink,
         ~ In sink (switched_list switched) ->
         forall v,
           In v (switchable_sink cs switched initial sink timeline)
           <-> exists component,
                 In (Emitted component sink v) timeline
                 /\ sink_of cs component sink <> None.
Proof.
  intros cs sourceNames switched initial timeline. split.
  - unfold switchable. rewrite map_map; simpl. apply map_id.
  - intros sink Hnot v. unfold switchable_sink.
    destruct (existsb (String.eqb sink) (switched_list switched)) eqn:E.
    + apply existsb_exists in E as (x & Hx & Ex).
      apply String.eqb_eq in Ex; subst x. contradiction.
    + apply merged_events_in.
Qed.

Lemma merged_sink_relays_every_component_witness :
  ~ In "LOG" (switched_list (SwitchedName "DOM"))
  /\ switchable MoreSwitchable.pages ["DOM"; "LOG"] (SwitchedName "DOM") "home"
       MoreSwitchable.visit_about
     = [("DOM", [VStr ""; VStr "<home>"; VStr "<about>"]); ("LOG", [VStr "seen"])]
  /\ In (VStr "seen")
       (switchable_sink MoreSwitchable.pages (SwitchedName "DOM") "home" "LOG"
          MoreSwitchable.visit_about).
Proof.
  assert (H : ~ In "LOG" (switched_list (SwitchedName "DOM"))).
  { intros [H|[]]; discriminate H. }
  split; [exact H|]. split; [reflexivity|].
  apply (proj2 (merged_sink_relays_every_component MoreSwitchable.pages ["DOM"; "LOG"]
                  (SwitchedName "DOM") "home" MoreSwitchable.visit_about) "LOG" H).
  exists "home". split; [right; right; right; left; reflexivity | discriminate].
Defined.

End SwitchableStreams.

(** ** Requests, pass-through reducers and the state queue *)

(** X21: data that is not an object, dispatched while handling an action with
    a request id, keeps that id when the reducer of the dispatched action
    is [true] (pass the data on): the wrapper [{ data, _reqId, _action }] is
    emitted as it is, and a response made from it carries the request id,
    the name of the dispatching action and the data. *)
Theorem pass_through_keeps_request_id :
  forall name a t d sinkName isStateSink currentState command,
    truthy (request_id_of a) = true ->
    typeof d <> "object" ->
    let sent := next_action name a (t, d) in
    on_action isStateSink sinkName (RVal (VBool true)) currentState sent
    = mkHandled [] []
        (Emit (VObj [("data", d); ("_reqId", request_id_of a); ("_action", VStr name)]))
    /\ send_response command (data sent)
       = Ok (VObj [("_reqId", request_id_of a); ("_action", VStr name);
                   ("command", VStr command); ("data", d)]).
Proof.
  intros name a t d sinkName isStateSink cs command Hid Hty sent.
  pose proof (wrapper_data_read_back name a t d Hid Hty) as Hdata.
  fold sent in Hdata. split.
  - change (on_action isStateSink sinkName (RVal (VBool true)) cs sent)
      with (mkHandled [] [] (Emit (data sent))).
    now rewrite Hdata.
  - rewrite Hdata. unfold send_response; simpl. now rewrite Hid.
Qed.

Lemma request_taken_handled (routeString name : string) (srcs : source_map)
    (cs rq : value) :
  request_taken rq = true ->
  route_handler routeString (ToAction name) srcs cs rq
  = mkStep [request_action name rq] [] (Inner (selected_responses srcs (get rq "id"))).
Proof.
  unfold request_taken. intros H.
  apply andb_true_iff in H as (H & Hget). apply andb_true_iff in H as (Hrq & Hid).
  apply negb_true_iff in Hget.
  unfold route_handler. rewrite Hrq, Hid; simpl. now rewrite Hget.
Qed.

Lemma route_fold_taken (routeString name : string) (srcs : source_map)
    (reqs : list (value * value)) (run : route_run) :
  status run = Live ->
  forallb (fun cr => request_taken (snd cr)) reqs = true ->
  let run' := fold_left (route_next routeString (ToAction name) srcs) reqs run in
  bus_sent run' = (bus_sent run ++ map (fun cr => request_action name (snd cr)) reqs)%list
  /\ console_error run' = console_error run
  /\ responses run'
     = (responses run
          ++ flat_map (fun cr => selected_responses srcs (get (snd cr) "id")) reqs)%list
  /\ status run' = Live.
Proof.
  revert run; induction reqs as [|cr reqs IH]; intros run Hlive Hall; cbv zeta.
  - simpl. rewrite !app_nil_r. auto.
  - simpl in Hall. apply andb_true_iff in Hall as (Hcr & Hall). simpl fold_left.
    assert (Hnext : route_next routeString (ToAction name) srcs run cr
                    = mkRun (bus_sent run ++ [request_action name (snd cr)])
                            (console_error run)
                            (responses run ++ selected_responses srcs (get (snd cr) "id"))
                            Live true).
    { unfold route_next. rewrite Hlive, request_taken_handled by assumption. simpl.
      now rewrite app_nil_r. }
    rewrite Hnext.
    destruct (IH (mkRun (bus_sent run ++ [request_action name (snd cr)])
                        (console_error run)
                        (responses run ++ selected_responses srcs (get (snd cr) "id"))
                        Live true) eq_refl Hall) as (H1 & H2 & H3 & H4).
    rewrite H1, H2, H3, H4. simpl. rewrite <- !app_assoc. auto.
Qed.

(** X22: on a route to an action name, a series of request events that the
    mapping function takes (each truthy, with a truthy id, and with a [get]
    that is a function if there is one) sends one action for each request
    into the action stream, in the order of the requests, each with the body
    and the id of its request; nothing is logged as an error and the stream
    of the route stays live. *)
Theorem taken_requests_send_one_action_each :
  forall routeString name srcs (reqs : list (value * value)),
    forallb (fun cr => request_taken (snd cr)) reqs = true ->
    let run := route_stream routeString (ToAction name) srcs reqs in
    bus_sent run = map (fun cr => request_action name (snd cr)) reqs
    /\ console_error run = []
    /\ status run = Live.
Proof.
  intros routeString name srcs reqs Hall run. unfold run, route_stream.
  destruct (route_fold_taken routeString name srcs reqs route_start eq_refl Hall)
    as (H1 & H2 & _ & H4).
  split; [exact H1|split; [exact H2|exact H4]].
Qed.

Lemma taken_requests_send_one_action_each_witness :
  forallb (fun cr => request_taken (snd cr))
    [(VObj [], Examples.request_r1);
     (VObj [], VObj [("id", VNum 7); ("body", VStr "b")])] = true
  /\ bus_sent (route_stream "[GET]:/x" (ToAction "SAVE") Examples.app_sources
                 [(VObj [], Examples.request_r1);
                  (VObj [], VObj [("id", VNum 7); ("body", VStr "b")])])
     = [Examples.save_r1;
        mkAction "SAVE" (VStr "b") (VObj [("id", VNum 7); ("body", VStr "b")])
                 (VNum 7) (VStr "SAVE")].
Proof.
  split; [reflexivity|].
  exact (proj1 (taken_requests_send_one_action_each "[GET]:/x" "SAVE" Examples.app_sources
                  [(VObj [], Examples.request_r1);
                   (VObj [], VObj [("id", VNum 7); ("body", VStr "b")])] eq_refl)).
Defined.

Lemma invoke_effect_keeps (L : loop) (r : registration) (a : action) :
  now (invoke_effect L r a) = now L /\ pending (invoke_effect L r a) = pending L.
Proof.
  destruct (stream_stopped (reg_sink r) (reg_action r) L) eqn:Hst.
  - unfold invoke_effect; rewrite Hst; auto.
  - rewrite (invoke_effect_runs L r a Hst). auto.
Qed.

Lemma fold_invoke_keeps (regs : list registration) (a : action) (L : loop) :
  now (fold_left (fun L r => invoke_effect L r a) regs L) = now L
  /\ pending (fold_left (fun L r => invoke_effect L r a) regs L) = pending L.
Proof.
  revert L; induction regs as [|r regs IH]; intros L; simpl; auto.
  destruct (IH (invoke_effect L r a)) as (H1 & H2).
  destruct (invoke_effect_keeps L r a) as (H3 & H4). split; congruence.
Qed.

(** X23: in the turn in which a request routed to an action name arrives, on
    a route whose mapping is still subscribed, the reducers of the state
    sink for its action are not yet with the state driver when the component
    has a truthy initial state: the action waits in a timer of delay 0 set
    in that turn; with a falsy initial state they are handed to the state
    driver in that same turn. *)
Theorem state_reducers_wait_only_with_initial_state :
  forall (c : Component) (L : loop) routeString name routes rq,
    model c <> None ->
    route_closed routeString L = false ->
    response_s c = Some routes ->
    find_route routeString routes = Some (ToAction name) ->
    request_taken rq = true ->
    let L' := step c L (Request routeString rq) in
    (truthy (initialState c) = true ->
     pending L' = pending L
     /\ exists id, In (mkTimer id (now L) (Shimmed (request_action name rq))) (timers L'))
    /\ (truthy (initialState c) = false ->
        pending L' = (pending L ++ state_reducers_for c (request_action name rq))%list).
Proof.
  intros c L routeString name routes rq Hm Hlive Hroutes Hfind Htaken L'.
  assert (HL' : pending L' = pending (send c L (request_action name rq))
                /\ timers L' = timers (send c L (request_action name rq))).
  { unfold L', step. rewrite Hroutes, Hfind, Hlive.
    rewrite request_taken_handled by assumption. simpl. auto. }
  destruct HL' as (Hp & Ht). rewrite Hp, Ht. unfold send.
  destruct (model c); [|contradiction].
  set (L2 := fold_left (fun L r => invoke_effect L r (request_action name rq))
               (filter (fun r => matches (reg_action r) (request_action name rq))
                       (effect_streams c))
               (log (Delivered (request_action name rq)) L)).
  destruct (fold_invoke_keeps
              (filter (fun r => matches (reg_action r) (request_action name rq))
                      (effect_streams c))
              (request_action name rq) (log (Delivered (request_action name rq)) L))
    as (Hnow & Hpend).
  fold L2 in Hnow, Hpend. simpl in Hnow, Hpend.
  split; intros Hinit; rewrite Hinit.
  - split; [exact Hpend|]. exists (next_timer L2). simpl.
    apply in_or_app; right; left. rewrite Hnow. f_equal. lia.
  - unfold emit_state, state_reducers_for; simpl. now rewrite Hpend.
Qed.

Lemma state_reducers_wait_only_with_initial_state_witness :
  exists c,
    fst (constructor Examples.saver true) = Ok c
    /\ model c <> None
    /\ request_taken Examples.request_r1 = true
    /\ truthy (initialState c) = true
    /\ pending (step c (start c) (Request "[GET]:/x" Examples.request_r1)) = [].
Proof.
  eexists. split; [reflexivity|].
  split; [discriminate|]. split; [reflexivity|]. split; [reflexivity|].
  match goal with
  | |- pending (step ?c _ _) = _ =>
      exact (proj1 (proj1 (state_reducers_wait_only_with_initial_state c (start c)
                             "[GET]:/x" "SAVE" [("[GET]:/x", ToAction "SAVE")]
                             Examples.request_r1
                             ltac:(discriminate) eq_refl eq_refl eq_refl eq_refl)
                      eq_refl))
  end.
Defined.

Lemma pass_through_keeps_request_id_witness :
  truthy (request_id_of Examples.save_r1) = true
  /\ typeof (VStr "done") <> "object"
  /\ send_response "send" (data (next_action "SAVE" Examples.save_r1 ("REPLY", VStr "done")))
     = Ok (VObj [("_reqId", VStr "r1"); ("_action", VStr "SAVE");
                 ("command", VStr "send"); ("data", VStr "done")]).
Proof.
  assert (Hid : truthy (request_id_of Examples.save_r1) = true) by reflexivity.
  assert (Hty : typeof (VStr "done") <> "object") by discriminate.
  split; [exact Hid|]. split; [exact Hty|].
  exact (proj2 (pass_through_keeps_request_id "SAVE" Examples.save_r1 "REPLY" (VStr "done")
                  "HTTP" false (VObj []) "send" Hid Hty)).
Defined.

(** ** The action stream *)

Section Bootstrap.

Variable c : Component.
Hypothesis has_intent : action_s c <> ActionNever.

Lemma wrapped_actions_app (tr1 tr2 : list entry) :
  wrapped_actions (tr1 ++ tr2) = (wrapped_actions tr1 ++ wrapped_actions tr2)%list.
Proof. apply flat_map_app. Qed.

Lemma wrapped_dispatch_entries (n : nat) (l : list action) :
  wrapped_actions (dispatch_entries n l) = [].
Proof. revert n; induction l as [|a l IH]; intros n; simpl; auto. Qed.

Lemma wrapped_block (e e' : entry) (ds tail : list entry) :
  wrapped_actions [e] = [] -> wrapped_actions ds = [] ->
  wrapped_actions [e'] = [] -> wrapped_actions tail = [] ->
  wrapped_actions (e :: ds ++ e' :: tail) = [].
Proof.
  intros H1 H2 H3 H4.
  change (e :: ds ++ e' :: tail) with ([e] ++ ds ++ [e'] ++ tail)%list.
  now rewrite !wrapped_actions_app, H1, H2, H3, H4.
Qed.

Lemma dispatch_timers_unwrapped (t0 n : nat) (l : list action) :
  Forall (fun t => is_wrapped (job t) = false /\ (n <= timer_id t)%nat)
         (dispatch_timers t0 n l).
Proof.
  revert n; induction l as [|a l IH]; intros n; simpl; constructor.
  - simpl; split; [reflexivity|lia].
  - eapply Forall_impl; [|apply (IH (S n))].
    intros t [H1 H2]; split; [assumption|lia].
Qed.

Lemma grows_unwrapped_refl (L : loop) : grows_unwrapped L L.
Proof.
  split; [reflexivity|]. split; [lia|]. split.
  - exists []. split; [now rewrite app_nil_r|constructor].
  - exists []. split; [now rewrite app_nil_r|reflexivity].
Qed.

Lemma grows_unwrapped_trans (L1 L2 L3 : loop) :
  grows_unwrapped L1 L2 -> grows_unwrapped L2 L3 -> grows_unwrapped L1 L3.
Proof.
  intros (Hn1 & Hi1 & (m1 & Ht1 & Hf1) & (n1 & Hr1 & Hw1))
         (Hn2 & Hi2 & (m2 & Ht2 & Hf2) & (n2 & Hr2 & Hw2)).
  split; [congruence|]. split; [lia|]. split.
  - exists (m1 ++ m2)%list. split.
    + rewrite Ht2, Ht1. now rewrite app_assoc.
    + apply Forall_app; split; [assumption|].
      eapply Forall_impl; [|exact Hf2].
      intros t [H1 H2]; split; [assumption|lia].
  - exists (n1 ++ n2)%list. split.
    + rewrite Hr2, Hr1. now rewrite app_assoc.
    + rewrite wrapped_actions_app, Hw1, Hw2. reflexivity.
Qed.

Lemma invoke_effect_unwrapped (L : loop) (r : registration) (a : action) :
  grows_unwrapped L (invoke_effect L r a).
Proof.
  destruct (stream_stopped (reg_sink r) (reg_action r) L) eqn:Hst.
  - unfold invoke_effect; rewrite Hst. apply grows_unwrapped_refl.
  - rewrite (invoke_effect_runs L r a Hst).
    split; [reflexivity|]. split; [simpl; lia|]. split.
    + eexists; split; [reflexivity|apply dispatch_timers_unwrapped].
    + eexists; split; [reflexivity|].
      apply wrapped_block;
        [reflexivity|apply wrapped_dispatch_entries|reflexivity|reflexivity].
Qed.

Lemma fold_invoke_unwrapped (regs : list registration) (a : action) (L : loop) :
  grows_unwrapped L (fold_left (fun L r => invoke_effect L r a) regs L).
Proof.
  revert L; induction regs as [|r regs IH]; intros L; simpl.
  - apply grows_unwrapped_refl.
  - eapply grows_unwrapped_trans; [apply invoke_effect_unwrapped|apply IH].
Qed.

Lemma set_timeout_unwrapped (delay : nat) (j : task) (L : loop) :
  is_wrapped j = false -> grows_unwrapped L (set_timeout delay j L).
Proof.
  intros Hj. unfold set_timeout.
  split; [reflexivity|]. split; [simpl; lia|]. split.
  - eexists; split; [reflexivity|].
    constructor; [|constructor]. simpl; split; [assumption|lia].
  - exists []. split; [simpl; now rewrite app_nil_r|reflexivity].
Qed.

Lemma emit_state_unwrapped (a : action) (L : loop) :
  grows_unwrapped L (emit_state c a L).
Proof.
  unfold emit_state.
  split; [reflexivity|]. split; [simpl; lia|]. split.
  - exists []. split; [simpl; now rewrite app_nil_r|constructor].
  - exists []. split; [simpl; now rewrite app_nil_r|reflexivity].
Qed.

Lemma log_unwrapped (e : entry) (L : loop) :
  wrapped_actions [e] = [] -> grows_unwrapped L (log e L).
Proof.
  intros He. unfold log.
  split; [reflexivity|]. split; [simpl; lia|]. split.
  - exists []. split; [simpl; now rewrite app_nil_r|constructor].
  - exists [e]. split; [reflexivity|assumption].
Qed.

Lemma send_unwrapped (L : loop) (a : action) : grows_unwrapped L (send c L a).
Proof.
  unfold send.
  assert (H2 : grows_unwrapped L
                 (fold_left (fun L r => invoke_effect L r a)
                    (filter (fun r => matches (reg_action r) a) (effect_streams c))
                    (log (Delivered a) L))).
  { eapply grows_unwrapped_trans; [apply (log_unwrapped (Delivered a)); reflexivity|].
    apply fold_invoke_unwrapped. }
  destruct (model c); [|exact H2].
  destruct (truthy (initialState c)).
  - eapply grows_unwrapped_trans; [exact H2|]. now apply set_timeout_unwrapped.
  - eapply grows_unwrapped_trans; [exact H2|]. apply emit_state_unwrapped.
Qed.

Lemma fold_send_unwrapped (l : list action) (L : loop) :
  grows_unwrapped L (fold_left (send c) l L).
Proof.
  revert L; induction l as [|a l IH]; intros L; simpl.
  - apply grows_unwrapped_refl.
  - eapply grows_unwrapped_trans; [apply send_unwrapped|apply IH].
Qed.

Lemma hd_error_app {A : Type} (l1 l2 : list A) (x : A) :
  hd_error l1 = Some x -> hd_error (l1 ++ l2) = Some x.
Proof. destruct l1; simpl; [discriminate|auto]. Qed.

Lemma bootstrap_unwrapped (L L' : loop) :
  grows_unwrapped L L' -> bootstrap_phase L -> bootstrap_phase L'.
Proof.
  intros (Hn & Hi & (more & Ht & Hf) & (new & Hr & Hw)) [l2 Hl Hall Hpos Hnone|Hhd Hten].
  - apply (BootstrapDue L' (l2 ++ more)).
    + rewrite Ht, Hl. reflexivity.
    + apply Forall_app; split; [assumption|].
      eapply Forall_impl; [|exact Hf].
      intros t [H1 H2]; split; [lia|]. rewrite H1; discriminate.
    + lia.
    + rewrite Hr, wrapped_actions_app, Hnone, Hw. reflexivity.
  - apply BootstrapOut.
    + rewrite Hr, wrapped_actions_app. now apply hd_error_app.
    + lia.
Qed.

Lemma earliest_head (t0 t : timer) (l : list timer) :
  earliest (t0 :: l) = Some t -> t = t0 \/ (In t l /\ (due t < due t0)%nat).
Proof.
  simpl. destruct (earliest l) as [t'|] eqn:E.
  - destruct (due t' <? due t0)%nat eqn:Hlt; intros [= <-]; auto.
    right; split; [now apply earliest_in|now apply Nat.ltb_lt].
  - intros [= <-]; auto.
Qed.

Lemma remove_timer_Forall (P : timer -> Prop) (id : nat) (l : list timer) :
  Forall P l -> Forall P (remove_timer id l).
Proof.
  induction 1 as [|t l Ht Hl IH]; simpl; [constructor|].
  destruct (Nat.eqb (timer_id t) id); [assumption|now constructor].
Qed.

Lemma bootstrap_start : bootstrap_phase (start c).
Proof.
  unfold start.
  destruct (action_s c) as [|kind hydrates] eqn:E; [now elim has_intent|].
  eapply BootstrapDue; simpl; [reflexivity| |lia|reflexivity].
  destruct (model c); [|constructor].
  destruct (truthy (initialState c)); [|constructor].
  constructor; [|constructor]. simpl; split; [lia|discriminate].
Qed.

Lemma bootstrap_reduce (L : loop) (s : value) :
  grows_unwrapped L (step c L (Reduce s)).
Proof.
  destruct (pending L) as [|[[name a] f] rest] eqn:Hp;
    [unfold step; rewrite Hp; apply grows_unwrapped_refl|].
  destruct (relays c (stateSourceName c)) eqn:Hrel;
    [|unfold step; rewrite Hp, Hrel; apply grows_unwrapped_refl].
  rewrite (reduce_runs c L s name a f rest Hp Hrel).
  split; [reflexivity|]. split; [simpl; lia|]. split.
  - eexists; split; [reflexivity|apply dispatch_timers_unwrapped].
  - eexists; split; [reflexivity|].
    apply wrapped_block; [reflexivity|apply wrapped_dispatch_entries|reflexivity|].
    unfold state_entries.
    destruct (snd (state_reducer name f a s)); destruct (currentState c); reflexivity.
Qed.

Lemma bootstrap_store (L : loop) (v : value) : grows_unwrapped L (store c v L).
Proof.
  unfold store. destruct (currentState c); [|apply grows_unwrapped_refl].
  split; [reflexivity|]. split; [simpl; lia|]. split.
  - exists []. split; [simpl; now rewrite app_nil_r|constructor].
  - exists [Stored v]. split; reflexivity.
Qed.

Lemma bootstrap_request (L : loop) (routeString : string) (rq : value) :
  grows_unwrapped L (step c L (Request routeString rq)).
Proof.
  unfold step.
  destruct (response_s c) as [routes|]; [|apply grows_unwrapped_refl].
  destruct (find_route routeString routes) as [target|]; [|apply grows_unwrapped_refl].
  destruct (route_closed routeString L); [apply grows_unwrapped_refl|].
  cbv zeta.
  destruct (fold_send_unwrapped
              (sent (route_handler routeString target (sources c) (cached L) rq)) L)
    as (Hn & Hi & Ht & Hr).
  destruct (mapped_to _); (split; [exact Hn|]; split; [exact Hi|]; split; [exact Ht|exact Hr]).
Qed.

Lemma bootstrap_step (L : loop) (i : input) :
  bootstrap_phase L -> bootstrap_phase (step c L i).
Proof.
  intros Hphase.
  destruct i as [routeString rq|routeString|a|d|v|s| |dt].
  - eapply bootstrap_unwrapped; [apply bootstrap_request|assumption].
  - unfold step. destruct (closed L); [assumption|].
    destruct Hphase as [l2 Hl Hall Hpos Hnone|Hhd Hten].
    + now apply (BootstrapDue _ l2).
    + now apply BootstrapOut.
  - (* the runner of the intent emits *)
    assert (Hset : forall a', bootstrap_phase (set_timeout 10 (Wrapped a') L)).
    { intros a'. destruct Hphase as [l2 Hl Hall Hpos Hnone|Hhd Hten].
      - apply (BootstrapDue _ (l2 ++ [mkTimer (next_timer L) (now L + 10) (Wrapped a')])).
        + simpl. rewrite Hl. reflexivity.
        + apply Forall_app; split; [assumption|].
          constructor; [|constructor]. simpl; split; [assumption|lia].
        + simpl; lia.
        + exact Hnone.
      - apply BootstrapOut; assumption. }
    unfold step. destruct (action_s c) as [|[|names|v] hydrates]; auto.
    destruct (existsb _ names); auto.
  - unfold step. destruct (action_s c) as [|kind [|]]; auto.
    eapply bootstrap_unwrapped; [apply send_unwrapped|assumption].
  - unfold step. eapply bootstrap_unwrapped; [apply bootstrap_store|assumption].
  - eapply bootstrap_unwrapped; [apply bootstrap_reduce|assumption].
  - (* the event loop runs the timer due first *)
    unfold step. destruct (earliest (timers L)) as [t|] eqn:E; [|assumption].
    cbv zeta.
    destruct Hphase as [l2 Hl Hall Hpos Hnone|Hhd Hten].
    + rewrite Hl in E. apply earliest_head in E as [->|[Hin Hdue]].
      * (* the BOOTSTRAP action comes out *)
        simpl job. eapply bootstrap_unwrapped; [apply send_unwrapped|].
        apply BootstrapOut.
        -- unfold log; simpl. rewrite wrapped_actions_app, Hnone. reflexivity.
        -- unfold log; simpl. lia.
      * simpl in Hdue.
        pose proof (proj1 (Forall_forall _ _) Hall t Hin) as [Hid Hw].
        assert (Hnw : is_wrapped (job t) = false).
        { destruct (is_wrapped (job t)); [|reflexivity].
          specialize (Hw eq_refl). lia. }
        assert (Hdue' : bootstrap_phase
                  (log (Fired (timer_id t) (job t))
                     (mkLoop (Nat.max (now L) (due t)) (next_timer L)
                        (remove_timer (timer_id t) (timers L))
                        (pending L) (cached L) (stopped L) (closed L) (trace L)))).
        { apply (BootstrapDue _ (remove_timer (timer_id t) l2)).
          - unfold log; simpl. rewrite Hl. simpl.
            destruct (timer_id t); [lia|reflexivity].
          - now apply remove_timer_Forall.
          - exact Hpos.
          - unfold log; simpl. rewrite wrapped_actions_app, Hnone. simpl.
            destruct (job t); simpl in *; (reflexivity || discriminate). }
        destruct (job t) as [a|a|a]; [|discriminate|].
        -- eapply bootstrap_unwrapped; [apply send_unwrapped|exact Hdue'].
        -- eapply bootstrap_unwrapped; [apply emit_state_unwrapped|exact Hdue'].
    + assert (Hout : bootstrap_phase
                  (log (Fired (timer_id t) (job t))
                     (mkLoop (Nat.max (now L) (due t)) (next_timer L)
                        (remove_timer (timer_id t) (timers L))
                        (pending L) (cached L) (stopped L) (closed L) (trace L)))).
      { apply BootstrapOut.
        - unfold log; simpl. rewrite wrapped_actions_app. now apply hd_error_app.
        - unfold log; simpl. lia. }
      destruct (job t) as [a|a|a].
      * eapply bootstrap_unwrapped; [apply send_unwrapped|exact Hout].
      * eapply bootstrap_unwrapped; [apply send_unwrapped|exact Hout].
      * eapply bootstrap_unwrapped; [apply emit_state_unwrapped|exact Hout].
  - (* time passes *)
    unfold step.
    destruct Hphase as [l2 Hl Hall Hpos Hnone|Hhd Hten].
    + now apply (BootstrapDue _ l2).
    + apply BootstrapOut; [assumption|]. simpl.
      destruct (earliest (timers L)); lia.
Qed.

Lemma bootstrap_run (inputs : list input) : bootstrap_phase (run c inputs).
Proof.
  unfold run.
  assert (Hgen : forall L, bootstrap_phase L -> bootstrap_phase (fold_left (step c) inputs L)).
  { induction inputs as [|i inputs IH]; intros L HL; simpl; [assumption|].
    apply IH. now apply bootstrap_step. }
  apply Hgen, bootstrap_start.
Qed.

End Bootstrap.

(** X24: for a component whose intent gave an action stream, the first action
    to come out of [wrapped$] in any run of the event loop is the BOOTSTRAP
    action, whatever the intent, requests and timers do before, and nothing
    comes out of [wrapped$] before 10 ms have passed. *)
Theorem BOOTSTRAP_is_first_intent_action :
  forall (c : Component) (inputs : list input),
    action_s c <> ActionNever ->
    (now (run c inputs) < 10 -> wrapped_actions (trace (run c inputs)) = [])%nat
    /\ forall a,
         hd_error (wrapped_actions (trace (run c inputs))) = Some a ->
         a = bootstrap_action.
Proof.
  intros c inputs Hintent.
  destruct (bootstrap_run c Hintent inputs) as [l2 Hl Hall Hpos Hnone|Hhd Hten].
  - split; [auto|]. intros a. rewrite Hnone. discriminate.
  - split; [lia|]. intros a Ha. congruence.
Qed.

Lemma BOOTSTRAP_is_first_intent_action_witness :
  exists c,
    fst (constructor Examples.saver true) = Ok c
    /\ action_s c <> ActionNever
    /\ wrapped_actions
         (trace (run c [Intent (plain_action "INCREMENT" (VNum 1)); Timeout; Timeout; Timeout]))
       = [bootstrap_action; plain_action "INCREMENT" (VNum 1)]
    /\ forall a,
         hd_error (wrapped_actions
                     (trace (run c [Intent (plain_action "INCREMENT" (VNum 1));
                                    Timeout; Timeout; Timeout]))) = Some a ->
         a = bootstrap_action.
Proof.
  eexists. split; [reflexivity|].
  split; [discriminate|]. split; [reflexivity|].
  match goal with
  | |- forall a, hd_error (wrapped_actions (trace (run ?c ?inputs))) = _ -> _ =>
      apply (proj2 (BOOTSTRAP_is_first_intent_action c inputs ltac:(discriminate)))
  end.
Defined.
